(** * Grid search planner (class [GraphSearch], "week 3" notebook)

    A shallow embedding of the Python class [GraphSearch] (occupancy grid,
    Dijkstra expansion loop, path reconstruction) and the properties of it
    that the design specification states.

    Two number models.  The first one ([GraphSearch], [Search]) takes
    the numbers as exact: obstacle coordinates, the resolution and the
    robot radius are rationals ([Q]); a path cost, which the code only
    ever builds as a sum of [1]s and [math.sqrt(2)]s, is an element
    [a + b*sqrt 2] of Z[sqrt 2] with an exact comparison.  It carries the
    properties that hold whatever the rounding of the floats does: the
    shape of the array, the dictionaries of the loop, the parent chain
    and the cells of the returned path.

    The second one ([Float], [Num], [Arith], [DoubleGraphSearch],
    [DoubleSearch]) computes as CPython does.  A [float] is an IEEE 754
    binary64 number: a finite double is the rational it stands for, and
    each operation returns the exact result rounded to nearest, ties to
    even, on 53 bits, with the subnormals below and an infinity above;
    there are NaNs, and every comparison with one is false.  An [int] is
    exact; where it meets a [float] it is converted, which rounds it
    once or raises [OverflowError].  The sign of a zero is not kept: no
    operation of the code tells the two zeros apart.  [x ** 2] on a
    [float] is the power function of the C library and is a parameter of
    the constructor.  This model carries the properties that depend on
    what is computed: the cells that the constructor marks, the
    dimensions of the grid, the node that the loop selects, the order
    in which the cells are closed, and the termination of [planning] on
    every input.

    [round] is Python 3's round-half-to-even.  Dictionaries iterate in
    key insertion order (CPython 3.6 and later).

    The development also covers, from the same notebook, the collision
    test and the nearest neighbour search of the class [RRT], in
    doubles, and the two resampling functions of the particle filter on
    weights that are all zero, with the random draws as an input. *)

From Stdlib Require Import ZArith QArith Qround Qabs Qreals Reals Lia List Bool.
From Stdlib Require Import Sorted Qpower.
From Stdlib Require Lra Lqa.
Import ListNotations.
#[local] Open Scope Z_scope.

(* ===================================================================== *)
(** ** Python primitives *)
(* ===================================================================== *)

Module Py.

(** The built-in exceptions the class can raise. *)
Inductive exn : Type :=
| ValueError
| IndexError
| KeyError
| ZeroDivisionError.

(** Outcome of running a piece of code: a value, a raised exception, or
    a loop that was still running when the fuel of the model ran out. *)
Inductive res (A : Type) : Type :=
| Return (a : A)
| Raise (e : exn)
| OutOfFuel.
Arguments Return {A} a.
Arguments Raise {A} e.
Arguments OutOfFuel {A}.

Definition bind {A B : Type} (c : res A) (k : A -> res B) : res B :=
  match c with
  | Return a => k a
  | Raise e => Raise e
  | OutOfFuel => OutOfFuel
  end.

(** [a < b] and [a <= b] on rationals, as booleans. *)
Definition Qleb (a b : Q) : bool := Qle_bool a b.
Definition Qltb (a b : Q) : bool := negb (Qle_bool b a).

(** [round(q)]: nearest integer, ties to the even one. *)
Definition round (q : Q) : Z :=
  let f := Qfloor q in
  match (q - inject_Z f ?= 1 # 2)%Q with
  | Lt => f
  | Gt => f + 1
  | Eq => if Z.even f then f else f + 1
  end.

(** [min(l)] and [max(l)] of a list of numbers; [ValueError] on [[]]. *)
Fixpoint min_from (m : Q) (l : list Q) : Q :=
  match l with
  | [] => m
  | q :: l' => min_from (if Qltb q m then q else m) l'
  end.

Fixpoint max_from (m : Q) (l : list Q) : Q :=
  match l with
  | [] => m
  | q :: l' => max_from (if Qltb m q then q else m) l'
  end.

Definition min (l : list Q) : res Q :=
  match l with
  | [] => Raise ValueError
  | q :: l' => Return (min_from q l')
  end.

Definition max (l : list Q) : res Q :=
  match l with
  | [] => Raise ValueError
  | q :: l' => Return (max_from q l')
  end.

(** [range(n)]: empty when [n <= 0]. *)
Definition range (n : Z) : list Z := map Z.of_nat (seq 0 (Z.to_nat n)).

(** [l[i]]: a negative index counts from the end, anything outside
    [-len(l) <= i < len(l)] raises [IndexError]. *)
Definition index {A : Type} (l : list A) (i : Z) : res A :=
  let n := Z.of_nat (length l) in
  let j := if i <? 0 then i + n else i in
  if (0 <=? j) && (j <? n)
  then match nth_error l (Z.to_nat j) with
       | Some a => Return a
       | None => Raise IndexError
       end
  else Raise IndexError.

(** [math.sqrt(a) <= r] for [a >= 0], decided without computing the root. *)
Definition sqrt_le (a r : Q) : bool :=
  Qleb 0 r && Qleb a (r * r).

(** *** Dictionaries with integer keys

    A [dict] is the list of its items in iteration order, which is the
    order in which the keys were first inserted. *)
Definition dict (V : Type) : Type := list (Z * V).

Definition keys {V : Type} (d : dict V) : list Z := map fst d.

Fixpoint get {V : Type} (d : dict V) (k : Z) : option V :=
  match d with
  | [] => None
  | (k', v) :: d' => if k' =? k then Some v else get d' k
  end.

(** [k in d] *)
Definition mem {V : Type} (k : Z) (d : dict V) : bool :=
  match get d k with Some _ => true | None => false end.

(** [d[k] = v]: an existing key keeps its place, a new one goes last. *)
Fixpoint set {V : Type} (d : dict V) (k : Z) (v : V) : dict V :=
  match d with
  | [] => [(k, v)]
  | (k', v') :: d' =>
      if k' =? k then (k, v) :: d' else (k', v') :: set d' k v
  end.

(** [del d[k]] (the class only deletes keys that are present). *)
Fixpoint del {V : Type} (d : dict V) (k : Z) : dict V :=
  match d with
  | [] => []
  | (k', v') :: d' => if k' =? k then d' else (k', v') :: del d' k
  end.

End Py.

Import Py.

Notation "x <- c ;; k" := (Py.bind c (fun x => k))
  (at level 61, c at next level, right associativity).

(* ===================================================================== *)
(** ** Path costs: sums of [1]s and [math.sqrt(2)]s *)
(* ===================================================================== *)

Module Cost.

(** [ones + diags * sqrt 2] *)
Record t : Type := make { ones : Z; diags : Z }.

Definition zero : t := make 0 0.
Definition one : t := make 1 0.
Definition sqrt2 : t := make 0 1.

Definition add (a b : t) : t :=
  make (ones a + ones b) (diags a + diags b).

(** [0 < p + q * sqrt 2], by comparing squares. *)
Definition pos (p q : Z) : bool :=
  if 0 <=? q
  then if 0 <=? p then (0 <? p) || (0 <? q) else p * p <? 2 * q * q
  else if 0 <? p then 2 * q * q <? p * p else false.

(** [a < b] *)
Definition ltb (a b : t) : bool :=
  pos (ones b - ones a) (diags b - diags a).

(** [a > b] *)
Definition gtb (a b : t) : bool := ltb b a.

(** The real number a cost stands for. *)
Definition val (a : t) : R := (IZR (ones a) + IZR (diags a) * sqrt 2)%R.

End Cost.

(* ===================================================================== *)
(** ** The class *)
(* ===================================================================== *)

(** [class Node]: grid indices, accumulated cost, parent id. *)
Module Node.
Record t : Type := make { x : Z; y : Z; cost : Cost.t; pind : Z }.
End Node.

Module GraphSearch.

(** One row [[dx, dy, cost]] of the motion model. *)
Definition motion_t : Type := (Z * Z * Cost.t)%type.

(** The attributes of a [GraphSearch] object. *)
Record t : Type := make {
  reso : Q;
  rr : Q;
  minx : Z;
  miny : Z;
  maxx : Z;
  maxy : Z;
  xwidth : Z;
  ywidth : Z;
  obmap : list (list bool);
  motion : list motion_t
}.

Definition get_motion_model : list motion_t :=
  [ (1, 0, Cost.one);
    (0, 1, Cost.one);
    (-1, 0, Cost.one);
    (0, -1, Cost.one);
    (-1, -1, Cost.sqrt2);
    (-1, 1, Cost.sqrt2);
    (1, -1, Cost.sqrt2);
    (1, 1, Cost.sqrt2) ].

(** [index*reso + minp] *)
Definition position (reso : Q) (index minp : Z) : Q :=
  (inject_Z index * reso + inject_Z minp)%Q.

Definition calc_position (self : t) (index minp : Z) : Q :=
  position (reso self) index minp.

(** [round((position - minp)/reso)] *)
Definition calc_xyindex (self : t) (pos : Q) (minp : Z) : res Z :=
  if Qeq_bool (reso self) 0 then Raise ZeroDivisionError
  else Return (Py.round ((pos - inject_Z minp) / reso self)%Q).

(** [(node.y - miny) * xwidth + (node.x - minx)] *)
Definition calc_index (self : t) (node : Node.t) : Z :=
  (Node.y node - miny self) * xwidth self + (Node.x node - minx self).

(** [obmap[ix][iy]] *)
Definition obmap_at (self : t) (ix iy : Z) : res bool :=
  row <- Py.index (obmap self) ix ;; Py.index row iy.

Definition verify_node (self : t) (node : Node.t) : res bool :=
  let px := calc_position self (Node.x node) (minx self) in
  let py := calc_position self (Node.y node) (miny self) in
  if Qltb px (inject_Z (minx self)) then Return false
  else if Qltb py (inject_Z (miny self)) then Return false
  else if Qleb (inject_Z (maxx self)) px then Return false
  else if Qleb (inject_Z (maxy self)) py then Return false
  else
    occ <- obmap_at self (Node.x node) (Node.y node) ;;
    if occ then Return false else Return true.

(** Is the grid point [(x, y)] within [rr] of one of the obstacle points
    [zip(ox, oy)]?  (The innermost loop of [calc_obstacle_map], which sets
    the cell and breaks at the first such obstacle.) *)
Definition near_obstacle (rr : Q) (obstacles : list (Q * Q)) (x y : Q) : bool :=
  existsb (fun o => let '(iox, ioy) := o in
                    Py.sqrt_le ((iox - x) ^ 2 + (ioy - y) ^ 2)%Q rr)
          obstacles.

(** The attributes that [calc_obstacle_map] sets. *)
Definition calc_obstacle_map (reso rr : Q) (ox oy : list Q)
  : res (Z * Z * Z * Z * Z * Z * list (list bool)) :=
  mnx <- Py.min ox ;;
  mny <- Py.min oy ;;
  mxx <- Py.max ox ;;
  mxy <- Py.max oy ;;
  let minx := Py.round mnx in
  let miny := Py.round mny in
  let maxx := Py.round mxx in
  let maxy := Py.round mxy in
  if Qeq_bool reso 0 then Raise ZeroDivisionError
  else
    let xwidth := Py.round (inject_Z (maxx - minx) / reso)%Q in
    let ywidth := Py.round (inject_Z (maxy - miny) / reso)%Q in
    let obmap :=
      map (fun ix =>
             let x := position reso ix minx in
             map (fun iy =>
                    let y := position reso iy miny in
                    near_obstacle rr (combine ox oy) x y)
                 (Py.range ywidth))
          (Py.range xwidth) in
    Return (minx, miny, maxx, maxy, xwidth, ywidth, obmap).

(** [GraphSearch(ox, oy, reso, rr)] *)
Definition init (ox oy : list Q) (reso rr : Q) : res t :=
  m <- calc_obstacle_map reso rr ox oy ;;
  let '(minx, miny, maxx, maxy, xwidth, ywidth, obmap) := m in
  Return (make reso rr minx miny maxx maxy xwidth ywidth obmap
               get_motion_model).

End GraphSearch.

(* ===================================================================== *)
(** ** The search loop of [planning] *)
(* ===================================================================== *)

Module Search.
Import GraphSearch.

(** The local variables of [planning] that the loop updates. *)
Record state : Type := mkState {
  openset : Py.dict Node.t;
  closedset : Py.dict Node.t;
  expansion : list (Q * Q)
}.

(** [min(openset, key=lambda o: openset[o].cost)]: the first key, in
    iteration order, whose node has the least cost. *)
Fixpoint min_cost_from (best : Z * Node.t) (d : Py.dict Node.t) : Z * Node.t :=
  match d with
  | [] => best
  | e :: d' =>
      min_cost_from
        (if Cost.ltb (Node.cost (snd e)) (Node.cost (snd best)) then e else best)
        d'
  end.

Definition min_cost (d : Py.dict Node.t) : res Z :=
  match d with
  | [] => Raise ValueError
  | e :: d' => Return (fst (min_cost_from e d'))
  end.

(** [openset[k]] *)
Definition lookup (d : Py.dict Node.t) (k : Z) : res Node.t :=
  match Py.get d k with
  | Some n => Return n
  | None => Raise KeyError
  end.

(** [Node(current.x + motion[i][0], current.y + motion[i][1],
         current.cost + motion[i][2], c_id)] *)
Definition neighbour (current : Node.t) (c_id : Z) (m : motion_t) : Node.t :=
  let '(dx, dy, c) := m in
  Node.make (Node.x current + dx) (Node.y current + dy)
            (Cost.add (Node.cost current) c) c_id.

(** The [for] loop over the motion model: the neighbours of [current],
    whose key is [c_id], are entered into the open set. *)
Fixpoint expand (self : t) (current : Node.t) (c_id : Z)
    (closedset : Py.dict Node.t) (ms : list motion_t)
    (openset : Py.dict Node.t) : res (Py.dict Node.t) :=
  match ms with
  | [] => Return openset
  | m :: ms' =>
      let node := neighbour current c_id m in
      let n_id := calc_index self node in
      if Py.mem n_id closedset then
        expand self current c_id closedset ms' openset
      else
        ok <- verify_node self node ;;
        if negb ok then
          expand self current c_id closedset ms' openset
        else if negb (Py.mem n_id openset) then
          expand self current c_id closedset ms' (Py.set openset n_id node)
        else
          old <- lookup openset n_id ;;
          if Cost.gtb (Node.cost old) (Node.cost node) then
            expand self current c_id closedset ms' (Py.set openset n_id node)
          else
            expand self current c_id closedset ms' openset
  end.

(** What one pass through the body of [while 1] does: it either leaves
    the loop with the goal node filled in, or goes round again. *)
Inductive step_result : Type :=
| Break (ngoal : Node.t) (st : state)
| Continue (st : state).

Definition step (self : t) (ngoal : Node.t) (st : state) : res step_result :=
  c_id <- min_cost (openset st) ;;
  current <- lookup (openset st) c_id ;;
  let expansion' :=
    expansion st ++ [(calc_position self (Node.x current) (minx self),
                      calc_position self (Node.y current) (miny self))] in
  if (Node.x current =? Node.x ngoal) && (Node.y current =? Node.y ngoal) then
    Return (Break (Node.make (Node.x ngoal) (Node.y ngoal)
                             (Node.cost current) (Node.pind current))
                  (mkState (openset st) (closedset st) expansion'))
  else
    let openset1 := Py.del (openset st) c_id in
    let closedset1 := Py.set (closedset st) c_id current in
    openset2 <- expand self current c_id closedset1 (motion self) openset1 ;;
    Return (Continue (mkState openset2 closedset1 expansion')).

Fixpoint loop (fuel : nat) (self : t) (ngoal : Node.t) (st : state)
  : res (Node.t * state) :=
  match fuel with
  | O => OutOfFuel
  | S fuel' =>
      r <- step self ngoal st ;;
      match r with
      | Break ngoal' st' => Return (ngoal', st')
      | Continue st' => loop fuel' self ngoal st'
      end
  end.

(** The [while pind != -1] loop of [calc_final_path]. *)
Fixpoint final_path_loop (fuel : nat) (self : t) (closedset : Py.dict Node.t)
    (pind : Z) (rx ry : list Q) : res (list Q * list Q) :=
  if pind =? -1 then Return (rx, ry)
  else
    match fuel with
    | O => OutOfFuel
    | S fuel' =>
        n <- lookup closedset pind ;;
        final_path_loop fuel' self closedset (Node.pind n)
          (rx ++ [calc_position self (Node.x n) (minx self)])
          (ry ++ [calc_position self (Node.y n) (miny self)])
    end.

Definition calc_final_path (fuel : nat) (self : t) (ngoal : Node.t)
    (closedset : Py.dict Node.t) : res (list Q * list Q) :=
  final_path_loop fuel self closedset (Node.pind ngoal)
    [calc_position self (Node.x ngoal) (minx self)]
    [calc_position self (Node.y ngoal) (miny self)].

(** The start and goal nodes that [planning] builds from the query. *)
Definition query_node (self : t) (px py : Q) : res Node.t :=
  ix <- calc_xyindex self px (minx self) ;;
  iy <- calc_xyindex self py (miny self) ;;
  Return (Node.make ix iy Cost.zero (-1)).

Definition initial (self : t) (nstart : Node.t) : state :=
  mkState (Py.set [] (calc_index self nstart) nstart) [] [].

(** [planning(sx, sy, gx, gy)]; [fuel] bounds the iterations of each of
    the two [while] loops. *)
Definition planning (fuel : nat) (self : t) (sx sy gx gy : Q)
  : res (list Q * list Q * list (Q * Q)) :=
  nstart <- query_node self sx sy ;;
  ngoal <- query_node self gx gy ;;
  r <- loop fuel self ngoal (initial self nstart) ;;
  let '(ngoal', st) := r in
  p <- calc_final_path fuel self ngoal' (closedset st) ;;
  Return (fst p, snd p, expansion st).

End Search.


(* ===================================================================== *)
(** ** Vocabulary of the specification *)
(* ===================================================================== *)

Module Spec.
Import GraphSearch Search.

(** A node standing for the grid cell [(x, y)]. *)
Definition cell_node (x y : Z) : Node.t := Node.make x y Cost.zero (-1).

(** The cell lies inside the array [obmap]. *)
Definition in_array (self : t) (x y : Z) : Prop :=
  0 <= x < xwidth self /\ 0 <= y < ywidth self.

(** The four positional tests of [verify_node] all pass:
    [minx <= px < maxx] and [miny <= py < maxy]. *)
Definition position_ok (self : t) (x y : Z) : bool :=
  let px := calc_position self x (minx self) in
  let py := calc_position self y (miny self) in
  negb (Qltb px (inject_Z (minx self))) && negb (Qltb py (inject_Z (miny self)))
  && negb (Qleb (inject_Z (maxx self)) px) && negb (Qleb (inject_Z (maxy self)) py).

(** The cell is collision free: [verify_node] returns [True] on it. *)
Definition free (self : t) (x y : Z) : Prop :=
  verify_node self (cell_node x y) = Return true.

(** The continuous position of a cell, as the waypoints give it. *)
Definition waypoint (self : t) (x y : Z) : Q * Q :=
  (calc_position self x (minx self), calc_position self y (miny self)).

(** What the constructor establishes, for a positive resolution. *)
Definition well_formed (self : t) : Prop :=
  (0 < reso self)%Q /\
  motion self = get_motion_model /\
  length (obmap self) = Z.to_nat (xwidth self) /\
  Forall (fun row => length row = Z.to_nat (ywidth self)) (obmap self).

(** Cells that can be reached from the start cell [(sx, sy)] by moves of
    the motion model through collision-free cells. *)
Inductive reachable (self : t) (sx sy : Z) : Z -> Z -> Prop :=
| reach_start : reachable self sx sy sx sy
| reach_move (x y : Z) (m : motion_t) :
    reachable self sx sy x y ->
    In m (motion self) ->
    free self (x + fst (fst m)) (y + snd (fst m)) ->
    reachable self sx sy (x + fst (fst m)) (y + snd (fst m)).

(** A path on the grid: from the cell [(x, y)] the moves [ms], each one
    of the motion model and each onto a collision-free cell, lead to the
    cell [(x', y')]. *)
Inductive grid_path (self : t) : Z -> Z -> list motion_t -> Z -> Z -> Prop :=
| path_stay (x y : Z) : grid_path self x y [] x y
| path_move (x y : Z) (m : motion_t) (ms : list motion_t) (x' y' : Z) :
    In m (motion self) ->
    free self (x + fst (fst m)) (y + snd (fst m)) ->
    grid_path self (x + fst (fst m)) (y + snd (fst m)) ms x' y' ->
    grid_path self x y (m :: ms) x' y'.

(** The cells that the moves [ms] visit from [(x, y)], that cell first. *)
Fixpoint cells_from (x y : Z) (ms : list motion_t) : list (Z * Z) :=
  match ms with
  | [] => [(x, y)]
  | m :: ms' => (x, y) :: cells_from (x + fst (fst m)) (y + snd (fst m)) ms'
  end.

(** The cost of a sequence of moves: the sum of their costs. *)
Fixpoint moves_cost (ms : list motion_t) : Cost.t :=
  match ms with
  | [] => Cost.zero
  | m :: ms' => Cost.add (snd m) (moves_cost ms')
  end.

(** The cost of a sequence of waypoints: [1] for a step along one axis,
    [sqrt 2] for a step along both. *)
Definition leg_cost (a b : Q * Q) : Cost.t :=
  match Qeq_bool (fst a) (fst b), Qeq_bool (snd a) (snd b) with
  | true, true => Cost.zero
  | false, false => Cost.sqrt2
  | _, _ => Cost.one
  end.

Fixpoint waypoints_cost (ws : list (Q * Q)) : Cost.t :=
  match ws with
  | a :: (b :: _) as rest => Cost.add (leg_cost a b) (waypoints_cost rest)
  | _ => Cost.zero
  end.

(** [iterates self ngoal st st']: the loop, entered in state [st], is at
    the top of its body in state [st'] some iterations later. *)
Inductive iterates (self : t) (ngoal : Node.t) (st : state) : state -> Prop :=
| iter_here : iterates self ngoal st st
| iter_next (st1 st2 : state) :
    iterates self ngoal st st1 ->
    step self ngoal st1 = Return (Continue st2) ->
    iterates self ngoal st st2.

(** No cell of the grid, nor the start cell, has the linear index [-1]
    that [Node.pind] uses for "no parent". *)
Definition no_sentinel (self : t) (nstart : Node.t) : Prop :=
  calc_index self nstart <> -1 /\
  forall x y, in_array self x y -> calc_index self (cell_node x y) <> -1.

(** The node that [planning] makes of a query point: the nearest grid
    indices, cost [0.0], no parent. *)
Definition cell_of (self : t) (px py : Q) : Node.t :=
  Node.make (Py.round ((px - inject_Z (minx self)) / reso self)%Q)
            (Py.round ((py - inject_Z (miny self)) / reso self)%Q)
            Cost.zero (-1).

(** Every cell that passes the positional test of [verify_node] lies
    inside the array, so that the lookup in [obmap] cannot fault. *)
Definition index_safe (self : t) : Prop :=
  forall x y, position_ok self x y = true -> in_array self x y.

(** [z] is the integer nearest to [q], the even one when [q] lies half
    way between two integers: the value of [round(q)]. *)
Definition nearest_integer (z : Z) (q : Q) : Prop :=
  (Qabs (inject_Z z - q) <= 1 # 2)%Q /\
  ((Qabs (inject_Z z - q) == 1 # 2)%Q -> Z.even z = true).

(** The number of cells of the grid. *)
Definition cell_count (self : t) : nat :=
  (Z.to_nat (xwidth self) * Z.to_nat (ywidth self))%nat.

End Spec.

(* ===================================================================== *)
(** ** Example planners *)
(* ===================================================================== *)

Module Examples.
Import GraphSearch Search.

(** Three obstacle points with bounding box [1..4] x [0..3] at resolution
    [1]: cell [(0, 0)] is free and has linear index [-1]. *)
Definition shifted_ox : list Q := [1; 4; 2]%Q.
Definition shifted_oy : list Q := [3; 1; 0]%Q.
Definition shifted : t :=
  make 1 (1 # 2) 1 0 4 3 3 3
       [[false; false; false]; [true; false; false]; [false; false; false]]
       get_motion_model.

(** Two obstacle points [(0, 0)] and [(12, 12)] at resolution [5]:
    [12 / 5 = 2.4] rounds down to a width of [2]. *)
Definition coarse_ox : list Q := [0; 12]%Q.
Definition coarse_oy : list Q := [0; 12]%Q.
Definition coarse : t :=
  make 5 1 0 0 12 12 2 2 [[true; false]; [false; false]] get_motion_model.

(** A wall in column [1] cuts a [3 x 3] grid in two. *)
Definition walled_ox : list Q := [1; 1; 1; 3; 0]%Q.
Definition walled_oy : list Q := [0; 1; 2; 3; 3]%Q.
Definition walled : t :=
  make 1 (1 # 2) 0 0 3 3 3 3
       [[false; false; false]; [true; true; true]; [false; false; false]]
       get_motion_model.

(** The loop of the query from cell [(0, 0)] to cell [(0, 2)] on the
    walled grid, after its first iteration. *)
Definition walled_second : state :=
  Eval vm_compute in
    match step walled (Spec.cell_node 0 2)
               (initial walled (Spec.cell_node 0 0)) with
    | Py.Return (Continue st) => st
    | _ => initial walled (Spec.cell_node 0 0)
    end.

End Examples.

(* ===================================================================== *)
(** ** Invariants of the search loop *)
(* ===================================================================== *)

Module Invariant.
Import GraphSearch Search Spec.

(** The cost of an item of the open set, as a real number. *)
Definition item_cost (e : Z * Node.t) : R := Cost.val (Node.cost (snd e)).

(** The number of moves that a cost adds up. *)
Definition moves (c : Cost.t) : Z := Cost.ones c + Cost.diags c.

(** The open and the closed set are dictionaries (their keys are
    distinct) and have no key in common. *)
Definition separated (st : state) : Prop :=
  NoDup (Py.keys (openset st)) /\
  NoDup (Py.keys (closedset st)) /\
  forall k, In k (Py.keys (openset st)) -> ~ In k (Py.keys (closedset st)).

(** The node [n] stored under the key [k] is what the search makes of its
    cell: the key is its linear index, and it is either the start node or
    a verified neighbour of the closed node that its parent id names. *)
Definition sound (self : t) (nstart : Node.t) (closed : Py.dict Node.t)
    (k : Z) (n : Node.t) : Prop :=
  k = calc_index self n /\
  0 <= moves (Node.cost n) <= Z.of_nat (length closed) /\
  reachable self (Node.x nstart) (Node.y nstart) (Node.x n) (Node.y n) /\
  (n = nstart \/
   (verify_node self n = Return true /\
    exists p m,
      In m (motion self) /\
      Py.get closed (calc_index self p) = Some p /\
      n = neighbour p (calc_index self p) m)).

(** The nodes that [calc_final_path] visits after the goal node: the
    chain of parents, starting at the key [pind]. *)
Fixpoint ancestors (fuel : nat) (closed : Py.dict Node.t) (pind : Z)
  : Py.res (list Node.t) :=
  if pind =? -1 then Py.Return []
  else
    match fuel with
    | O => Py.OutOfFuel
    | S fuel' =>
        n <- lookup closed pind ;;
        rest <- ancestors fuel' closed (Node.pind n) ;;
        Py.Return (n :: rest)
    end.

(** The waypoint of the cell of a node. *)
Definition node_waypoint (self : t) (n : Node.t) : Q * Q :=
  waypoint self (Node.x n) (Node.y n).

Definition invariant (self : t) (nstart : Node.t) (st : state) : Prop :=
  separated st /\
  (forall k n, Py.get (openset st) k = Some n ->
               sound self nstart (closedset st) k n) /\
  (forall k n, Py.get (closedset st) k = Some n ->
               sound self nstart (closedset st) k n).

(** The invariant of Dijkstra's algorithm: the start node is the only
    item of the open set or is closed; no path from the start to the
    cell of a closed node is cheaper than the node; and every free
    neighbour of a closed node is closed too, or is in the open set at
    no more than the cost of the node plus that of the move. *)
Definition optimal (self : t) (nstart : Node.t) (st : state) : Prop :=
  ((closedset st = [] /\ openset st = [(calc_index self nstart, nstart)]) \/
   Py.get (closedset st) (calc_index self nstart) = Some nstart) /\
  (forall k n ms,
     Py.get (closedset st) k = Some n ->
     grid_path self (Node.x nstart) (Node.y nstart) ms (Node.x n) (Node.y n) ->
     (Cost.val (Node.cost n) <= Cost.val (moves_cost ms))%R) /\
  (forall k p m,
     Py.get (closedset st) k = Some p ->
     In m (motion self) ->
     verify_node self (neighbour p k m) = Return true ->
     In (calc_index self (neighbour p k m)) (Py.keys (closedset st)) \/
     exists n,
       Py.get (openset st) (calc_index self (neighbour p k m)) = Some n /\
       (Cost.val (Node.cost n)
        <= Cost.val (Node.cost p) + Cost.val (snd m))%R).

End Invariant.

(* ===================================================================== *)
(** ** Resampling of the particle filter *)
(* ===================================================================== *)

Module Resampling.
Import Py.

(** The loop [while beta > w[index]: beta = beta - w[index];
    index = (index + 1) % N]; it returns the last [beta] and [index]. *)
Fixpoint select (fuel : nat) (N : Z) (w : list Q) (beta : Q) (index : Z)
  : res (Q * Z) :=
  match fuel with
  | O => OutOfFuel
  | S fuel' =>
      wi <- Py.index w index ;;
      if Qltb wi beta
      then if N =? 0 then Raise ZeroDivisionError
           else select fuel' N w (beta - wi)%Q ((index + 1) mod N)
      else Return (beta, index)
  end.

Section Particles.
Context {P : Type}.

(** The loop [for i in range(N)] of the two samplers, which differ only
    in what iteration [i] adds to [beta] ([inc i]); [n] iterations are
    left.  [copy(particles[index])] is the particle itself. *)
Fixpoint wheel (fuel : nat) (inc : nat -> Q) (particles : list P)
    (w : list Q) (n i : nat) (beta : Q) (index : Z) (p_temp : list P)
  : res (list P) :=
  match n with
  | O => Return p_temp
  | S n' =>
      let N := Z.of_nat (length particles) in
      r <- select fuel N w (beta + inc i)%Q index ;;
      selectedParticle <- Py.index particles (snd r) ;;
      wheel fuel inc particles w n' (S i) (fst r) (snd r)
            (p_temp ++ [selectedParticle])
  end.

(** [resampling(particles, w)]; [rand i] is the value of the [i]-th call
    of [np.random.rand()]. *)
Definition resampling (fuel : nat) (rand : nat -> Q) (particles : list P)
    (w : list Q) : res (list P) :=
  w_max <- Py.max w ;;
  wheel fuel (fun i => 2 * w_max * rand i)%Q particles w
        (length particles) 0 0%Q 0 [].

(** [stochasticUniversalSampling(particles, weights)]: one random draw,
    then steps of [1.0/N]. *)
Definition stochasticUniversalSampling (fuel : nat) (rand : nat -> Q)
    (particles : list P) (weights : list Q) : res (list P) :=
  let N := Z.of_nat (length particles) in
  if N =? 0 then Raise ZeroDivisionError
  else wheel fuel (fun _ => 1 / inject_Z N)%Q particles weights
             (length particles) 0 (rand 0%nat / inject_Z N)%Q 0 [].

End Particles.

End Resampling.

(* ===================================================================== *)
(** ** Doubles *)
(* ===================================================================== *)

(** IEEE 754 binary64 with rounding to nearest, ties to even: a finite
    double is the rational number it stands for, and an operation returns
    the double nearest to the exact result. *)
Module Float.

(** [2^e] *)
Definition pow2 (e : Z) : Q :=
  match e with
  | Zneg p => 1 # (2 ^ p)
  | _ => inject_Z (2 ^ e)
  end.

(** [floor (log2 q)] for a positive [q]. *)
Definition ilog2 (q : Q) : Z :=
  let k := Z.log2 (Qnum q) - Z.log2 (Zpos (Qden q)) in
  if Qle_bool (pow2 k) q then k else k - 1.

(** The exponent of the last place of the doubles around [q]: 53 bits of
    precision, and not below the exponent [-1074] of the subnormals. *)
Definition exponent (q : Q) : Z := Z.max (ilog2 (Qabs q) - 52) (-1074).

(** [q] rounded to the nearest multiple of [2^exponent], ties to the
    even multiple. *)
Definition nearest (q : Q) : Q :=
  if Qeq_bool q 0 then 0%Q
  else
    let e := exponent q in
    Qred (inject_Z (Py.round (q / pow2 e)) * pow2 e).

(** The square root of a positive [q] rounded in the same way. *)
Definition sqrt_nearest (q : Q) : Q :=
  if Qle_bool q 0 then 0%Q
  else
    let e := ilog2 q / 2 - 52 in
    let r := (q / pow2 (2 * e))%Q in
    let k := Z.sqrt (Qfloor r) in
    let half := ((inject_Z k + (1 # 2)) * (inject_Z k + (1 # 2)))%Q in
    let m := match (r ?= half)%Q with
             | Lt => k
             | Gt => k + 1
             | Eq => if Z.even k then k else k + 1
             end in
    Qred (inject_Z m * pow2 e).

(** A double: a finite value, an infinity or a NaN.  The sign of zero is
    not kept; none of the code modelled here can tell. *)
Inductive t : Type :=
| Finite (q : Q)
| Infinity (negative : bool)
| NaN.

Definition negative (q : Q) : bool := Py.Qltb q 0.

(** Rounding to a double: what rounds to [2^1024] or beyond overflows. *)
Definition of_Q (q : Q) : t :=
  let r := nearest q in
  if Qle_bool (pow2 1024) (Qabs r) then Infinity (negative q) else Finite r.

Definition opp (x : t) : t :=
  match x with
  | Finite q => Finite (Qred (- q))
  | Infinity s => Infinity (negb s)
  | NaN => NaN
  end.

Definition add (x y : t) : t :=
  match x, y with
  | NaN, _ | _, NaN => NaN
  | Infinity a, Infinity b => if Bool.eqb a b then Infinity a else NaN
  | Infinity a, Finite _ | Finite _, Infinity a => Infinity a
  | Finite p, Finite q => of_Q (p + q)
  end.

Definition sub (x y : t) : t := add x (opp y).

Definition mul (x y : t) : t :=
  match x, y with
  | NaN, _ | _, NaN => NaN
  | Infinity a, Infinity b => Infinity (xorb a b)
  | Infinity a, Finite q | Finite q, Infinity a =>
      if Qeq_bool q 0 then NaN else Infinity (xorb a (negative q))
  | Finite p, Finite q => of_Q (p * q)
  end.

(** [x / y] for a divisor that is not zero. *)
Definition div (x y : t) : t :=
  match x, y with
  | NaN, _ | _, NaN => NaN
  | Infinity _, Infinity _ => NaN
  | Infinity a, Finite q => Infinity (xorb a (negative q))
  | Finite _, Infinity _ => Finite 0
  | Finite p, Finite q => of_Q (p / q)
  end.

(** The square root; that of a negative double is a NaN. *)
Definition sqrt (x : t) : t :=
  match x with
  | Finite q => if negative q then NaN else Finite (sqrt_nearest q)
  | Infinity true => NaN
  | _ => x
  end.

Definition is_zero (x : t) : bool :=
  match x with Finite q => Qeq_bool q 0 | _ => false end.

Definition is_negative (x : t) : bool :=
  match x with
  | Finite q => negative q
  | Infinity s => s
  | NaN => false
  end.

Definition is_nan (x : t) : bool :=
  match x with NaN => true | _ => false end.

(** [x] is neither negative nor a NaN. *)
Definition nonneg (x : t) : Prop :=
  x = Infinity false \/ exists q, x = Finite q /\ (0 <= q)%Q.

(** A finite [x] is a double: rounding leaves it as it is. *)
Definition rounded (x : t) : Prop :=
  match x with
  | Finite q => (nearest q == q)%Q
  | _ => True
  end.

(** [x < y] and [x <= y]; every comparison with a NaN is false. *)
Definition ltb (x y : t) : bool :=
  match x, y with
  | NaN, _ | _, NaN => false
  | Finite p, Finite q => Py.Qltb p q
  | Finite _, Infinity s => negb s
  | Infinity s, Finite _ => s
  | Infinity a, Infinity b => a && negb b
  end.

Definition leb (x y : t) : bool :=
  match x, y with
  | NaN, _ | _, NaN => false
  | Finite p, Finite q => Py.Qleb p q
  | Finite _, Infinity s => negb s
  | Infinity s, Finite _ => s
  | Infinity a, Infinity b => a || negb b
  end.

End Float.

(* ===================================================================== *)
(** ** Python numbers *)
(* ===================================================================== *)

Module Num.

(** The exceptions of the arithmetic and of the containers. *)
Inductive exn : Type :=
| ValueError
| IndexError
| KeyError
| ZeroDivisionError
| OverflowError.

(** Outcome of running a piece of code: a value, a raised exception, or
    a loop that was still running when the fuel of the model ran out. *)
Inductive res (A : Type) : Type :=
| Return (a : A)
| Raise (e : exn)
| OutOfFuel.
Arguments Return {A} a.
Arguments Raise {A} e.
Arguments OutOfFuel {A}.

Definition bind {A B : Type} (c : res A) (k : A -> res B) : res B :=
  match c with
  | Return a => k a
  | Raise e => Raise e
  | OutOfFuel => OutOfFuel
  end.

(** A number is an [int] or a [float]. *)
Inductive t : Type :=
| Int (z : Z)
| Flt (f : Float.t).

(** The exact value of a number, for comparisons: Python compares an
    [int] with a [float] without rounding the [int]. *)
Definition exact (n : t) : Float.t :=
  match n with
  | Int z => Float.Finite (inject_Z z)
  | Flt f => f
  end.

Definition lt (a b : t) : bool := Float.ltb (exact a) (exact b).
Definition le (a b : t) : bool := Float.leb (exact a) (exact b).
Definition gt (a b : t) : bool := lt b a.
Definition ge (a b : t) : bool := le b a.

Definition is_nan (a : t) : bool := Float.is_nan (exact a).

(** The conversion of an operand to [float]: an [int] is rounded, and
    one that is too large raises. *)
Definition to_float (n : t) : res Float.t :=
  match n with
  | Flt f => Return f
  | Int z =>
      match Float.of_Q (inject_Z z) with
      | Float.Infinity _ => Raise OverflowError
      | f => Return f
      end
  end.

End Num.

Notation "x <~ c ;; k" := (Num.bind c (fun x => k))
  (at level 61, c at next level, right associativity).

Module Arith.
Import Num.

(** [a + b], [a - b], [a * b]: exact on two [int]s, in doubles
    otherwise. *)
Definition add (a b : t) : res t :=
  match a, b with
  | Int x, Int y => Return (Int (x + y))
  | _, _ => x <~ to_float a ;; y <~ to_float b ;; Return (Flt (Float.add x y))
  end.

Definition sub (a b : t) : res t :=
  match a, b with
  | Int x, Int y => Return (Int (x - y))
  | _, _ => x <~ to_float a ;; y <~ to_float b ;; Return (Flt (Float.sub x y))
  end.

Definition mul (a b : t) : res t :=
  match a, b with
  | Int x, Int y => Return (Int (x * y))
  | _, _ => x <~ to_float a ;; y <~ to_float b ;; Return (Flt (Float.mul x y))
  end.

(** [a / b]: the quotient of two [int]s is rounded once. *)
Definition truediv (a b : t) : res t :=
  match a, b with
  | Int x, Int y =>
      if y =? 0 then Raise ZeroDivisionError
      else match Float.of_Q (inject_Z x / inject_Z y) with
           | Float.Infinity _ => Raise OverflowError
           | f => Return (Flt f)
           end
  | _, _ =>
      x <~ to_float a ;;
      y <~ to_float b ;;
      if Float.is_zero y then Raise ZeroDivisionError
      else Return (Flt (Float.div x y))
  end.

(** [round(a)] *)
Definition round (a : t) : res Z :=
  match a with
  | Int z => Return z
  | Flt (Float.Finite q) => Return (Py.round q)
  | Flt (Float.Infinity _) => Raise OverflowError
  | Flt Float.NaN => Raise ValueError
  end.

(** [math.sqrt(a)] *)
Definition sqrt (a : t) : res t :=
  x <~ to_float a ;;
  if Float.is_negative x then Raise ValueError
  else Return (Flt (Float.sqrt x)).

(** [min(l)], [max(l)] *)
Fixpoint min_from (m : t) (l : list t) : t :=
  match l with
  | [] => m
  | q :: l' => min_from (if lt q m then q else m) l'
  end.

Fixpoint max_from (m : t) (l : list t) : t :=
  match l with
  | [] => m
  | q :: l' => max_from (if gt q m then q else m) l'
  end.

Definition min (l : list t) : res t :=
  match l with
  | [] => Raise ValueError
  | q :: l' => Return (min_from q l')
  end.

Definition max (l : list t) : res t :=
  match l with
  | [] => Raise ValueError
  | q :: l' => Return (max_from q l')
  end.

(** [x ** 2] on a [float] is the power function of the C library, which
    is accurate to the last place but need not round to nearest; where
    it does, [x ** 2] is [square_nearest]. *)
Definition square_nearest (x : Float.t) : res Float.t :=
  match x with
  | Float.Finite q =>
      match Float.of_Q (q * q) with
      | Float.Infinity _ => Raise OverflowError
      | f => Return f
      end
  | Float.Infinity _ => Return (Float.Infinity false)
  | Float.NaN => Return Float.NaN
  end.

(** [a ** 2]: exact on an [int]; on a [float] what the platform
    returns, [square]. *)
Definition pow2 (square : Float.t -> res Float.t) (a : t) : res t :=
  match a with
  | Int z => Return (Int (z * z))
  | Flt f => f2 <~ square f ;; Return (Flt f2)
  end.

(** [for x in l], collecting what the body returns. *)
Fixpoint for_each {A B : Type} (body : A -> res B) (l : list A)
  : res (list B) :=
  match l with
  | [] => Return []
  | a :: l' => b <~ body a ;; bs <~ for_each body l' ;; Return (b :: bs)
  end.

(** [l[i]]: a negative index counts from the end. *)
Definition index {A : Type} (l : list A) (i : Z) : res A :=
  let n := Z.of_nat (length l) in
  let j := if i <? 0 then i + n else i in
  if (0 <=? j) && (j <? n)
  then match nth_error l (Z.to_nat j) with
       | Some a => Return a
       | None => Raise IndexError
       end
  else Raise IndexError.

End Arith.

(* ===================================================================== *)
(** ** The planner on Python numbers *)
(* ===================================================================== *)

(** The constructor, the selection of [planning] and the nearest
    neighbour of [RRT] once more, with the coordinates, the resolution,
    the radius, the costs and the distances as the [int]s and [float]s
    they are. *)
Module DoubleGraphSearch.
Import Num Arith.

(** One row [[dx, dy, cost]] of the motion model. *)
Definition motion_t : Type := (Z * Z * Num.t)%type.

Record t : Type := make {
  reso : Num.t;
  rr : Num.t;
  minx : Z;
  miny : Z;
  maxx : Z;
  maxy : Z;
  xwidth : Z;
  ywidth : Z;
  obmap : list (list bool);
  motion : list motion_t
}.

(** [math.sqrt(2)] *)
Definition sqrt2 : Num.t := Flt (Float.sqrt (Float.Finite 2)).

Definition get_motion_model : list motion_t :=
  [ (1, 0, Int 1);
    (0, 1, Int 1);
    (-1, 0, Int 1);
    (0, -1, Int 1);
    (-1, -1, sqrt2);
    (-1, 1, sqrt2);
    (1, -1, sqrt2);
    (1, 1, sqrt2) ].

(** [index*reso + minp] *)
Definition position (reso : Num.t) (index minp : Z) : res Num.t :=
  p <~ mul (Int index) reso ;; add p (Int minp).

Definition calc_position (self : t) (index minp : Z) : res Num.t :=
  position (reso self) index minp.

(** [round((position - minp)/reso)] *)
Definition calc_xyindex (self : t) (pos : Num.t) (minp : Z) : res Z :=
  d <~ sub pos (Int minp) ;;
  q <~ truediv d (reso self) ;;
  round q.

(** [(y - miny) * xwidth + (x - minx)] for the node at [(x, y)]. *)
Definition calc_index (self : t) (x y : Z) : Z :=
  (y - miny self) * xwidth self + (x - minx self).

(** [obmap[ix][iy]] *)
Definition obmap_at (self : t) (ix iy : Z) : res bool :=
  row <~ index (obmap self) ix ;; index row iy.

(** [verify_node] of the node at [(x, y)] *)
Definition verify_node (self : t) (x y : Z) : res bool :=
  px <~ calc_position self x (minx self) ;;
  py <~ calc_position self y (miny self) ;;
  if lt px (Int (minx self)) then Return false
  else if lt py (Int (miny self)) then Return false
  else if ge px (Int (maxx self)) then Return false
  else if ge py (Int (maxy self)) then Return false
  else
    occ <~ obmap_at self x y ;;
    if occ then Return false else Return true.

Section Platform.
Variable square : Float.t -> res Float.t.

(** [math.sqrt((iox - x)**2 + (ioy - y)**2) <= rr] *)
Definition within (rr : Num.t) (o : Num.t * Num.t) (x y : Num.t) : res bool :=
  dx <~ sub (fst o) x ;;
  sx <~ pow2 square dx ;;
  dy <~ sub (snd o) y ;;
  sy <~ pow2 square dy ;;
  s <~ add sx sy ;;
  d <~ sqrt s ;;
  Return (le d rr).

(** The loop over [zip(ox, oy)], which leaves at the first obstacle
    within [rr]; the result is what [obmap[ix][iy]] becomes. *)
Fixpoint near_obstacle (rr : Num.t) (obstacles : list (Num.t * Num.t))
    (x y : Num.t) : res bool :=
  match obstacles with
  | [] => Return false
  | o :: rest =>
      b <~ within rr o x y ;;
      if b then Return true else near_obstacle rr rest x y
  end.

Definition calc_obstacle_map (reso rr : Num.t) (ox oy : list Num.t)
  : res (Z * Z * Z * Z * Z * Z * list (list bool)) :=
  mnx <~ min ox ;; minx <~ round mnx ;;
  mny <~ min oy ;; miny <~ round mny ;;
  mxx <~ max ox ;; maxx <~ round mxx ;;
  mxy <~ max oy ;; maxy <~ round mxy ;;
  qx <~ truediv (Int (maxx - minx)) reso ;; xwidth <~ round qx ;;
  qy <~ truediv (Int (maxy - miny)) reso ;; ywidth <~ round qy ;;
  obmap <~ for_each
             (fun ix =>
                x <~ position reso ix minx ;;
                for_each
                  (fun iy =>
                     y <~ position reso iy miny ;;
                     near_obstacle rr (combine ox oy) x y)
                  (Py.range ywidth))
             (Py.range xwidth) ;;
  Return (minx, miny, maxx, maxy, xwidth, ywidth, obmap).

(** [GraphSearch(ox, oy, reso, rr)] *)
Definition init (ox oy : list Num.t) (reso rr : Num.t) : res t :=
  m <~ calc_obstacle_map reso rr ox oy ;;
  let '(minx, miny, maxx, maxy, xwidth, ywidth, obmap) := m in
  Return (make reso rr minx miny maxx maxy xwidth ywidth obmap
               get_motion_model).

End Platform.
End DoubleGraphSearch.

Module DoubleSearch.
Import Num Arith DoubleGraphSearch.

(** [Node(x, y, cost, pind)], the cost a number. *)
Record Node : Type := mkNode {
  x : Z;
  y : Z;
  cost : Num.t;
  pind : Z
}.

(** The local variables of [planning] that the loop updates. *)
Record state : Type := mkState {
  openset : Py.dict Node;
  closedset : Py.dict Node;
  expansion : list (Num.t * Num.t)
}.

(** [min(openset, key=lambda o: openset[o].cost)]: [min] keeps the first
    item and replaces it by a later one whose key is less. *)
Fixpoint min_cost_from (best : Z * Node) (d : Py.dict Node) : Z * Node :=
  match d with
  | [] => best
  | e :: d' =>
      min_cost_from (if lt (cost (snd e)) (cost (snd best)) then e else best) d'
  end.

Definition min_cost (d : Py.dict Node) : res Z :=
  match d with
  | [] => Raise ValueError
  | e :: d' => Return (fst (min_cost_from e d'))
  end.

(** [openset[k]] *)
Definition lookup (d : Py.dict Node) (k : Z) : res Node :=
  match Py.get d k with
  | Some n => Return n
  | None => Raise KeyError
  end.

(** [Node(current.x + motion[i][0], current.y + motion[i][1],
         current.cost + motion[i][2], c_id)] *)
Definition neighbour (current : Node) (c_id : Z) (m : motion_t) : res Node :=
  let '(dx, dy, c) := m in
  c' <~ add (cost current) c ;;
  Return (mkNode (x current + dx) (y current + dy) c' c_id).

(** The [for] loop over the motion model. *)
Fixpoint expand (self : t) (current : Node) (c_id : Z)
    (closedset : Py.dict Node) (ms : list motion_t)
    (openset : Py.dict Node) : res (Py.dict Node) :=
  match ms with
  | [] => Return openset
  | m :: ms' =>
      node <~ neighbour current c_id m ;;
      let n_id := calc_index self (x node) (y node) in
      if Py.mem n_id closedset then
        expand self current c_id closedset ms' openset
      else
        ok <~ verify_node self (x node) (y node) ;;
        if negb ok then
          expand self current c_id closedset ms' openset
        else if negb (Py.mem n_id openset) then
          expand self current c_id closedset ms' (Py.set openset n_id node)
        else
          old <~ lookup openset n_id ;;
          if gt (cost old) (cost node) then
            expand self current c_id closedset ms' (Py.set openset n_id node)
          else
            expand self current c_id closedset ms' openset
  end.

(** What one pass through the body of [while 1] does: it either leaves
    the loop with the goal node filled in, or goes round again. *)
Inductive step_result : Type :=
| Break (ngoal : Node) (st : state)
| Continue (st : state).

Definition step (self : t) (ngoal : Node) (st : state) : res step_result :=
  c_id <~ min_cost (openset st) ;;
  current <~ lookup (openset st) c_id ;;
  px <~ calc_position self (x current) (minx self) ;;
  py <~ calc_position self (y current) (miny self) ;;
  let expansion' := expansion st ++ [(px, py)] in
  if (x current =? x ngoal) && (y current =? y ngoal) then
    Return (Break (mkNode (x ngoal) (y ngoal) (cost current) (pind current))
                  (mkState (openset st) (closedset st) expansion'))
  else
    let openset1 := Py.del (openset st) c_id in
    let closedset1 := Py.set (closedset st) c_id current in
    openset2 <~ expand self current c_id closedset1 (motion self) openset1 ;;
    Return (Continue (mkState openset2 closedset1 expansion')).

Fixpoint loop (fuel : nat) (self : t) (ngoal : Node) (st : state)
  : res (Node * state) :=
  match fuel with
  | O => OutOfFuel
  | S fuel' =>
      r <~ step self ngoal st ;;
      match r with
      | Break ngoal' st' => Return (ngoal', st')
      | Continue st' => loop fuel' self ngoal st'
      end
  end.

(** The [while pind != -1] loop of [calc_final_path]. *)
Fixpoint final_path_loop (fuel : nat) (self : t) (closedset : Py.dict Node)
    (pind : Z) (rx ry : list Num.t) : res (list Num.t * list Num.t) :=
  if pind =? -1 then Return (rx, ry)
  else
    match fuel with
    | O => OutOfFuel
    | S fuel' =>
        n <~ lookup closedset pind ;;
        px <~ calc_position self (x n) (minx self) ;;
        py <~ calc_position self (y n) (miny self) ;;
        final_path_loop fuel' self closedset (DoubleSearch.pind n)
                        (rx ++ [px]) (ry ++ [py])
    end.

Definition calc_final_path (fuel : nat) (self : t) (ngoal : Node)
    (closedset : Py.dict Node) : res (list Num.t * list Num.t) :=
  px <~ calc_position self (x ngoal) (minx self) ;;
  py <~ calc_position self (y ngoal) (miny self) ;;
  final_path_loop fuel self closedset (pind ngoal) [px] [py].

(** The start and goal nodes that [planning] builds from the query, at
    the cost [0.0]. *)
Definition query_node (self : t) (px py : Num.t) : res Node :=
  ix <~ calc_xyindex self px (minx self) ;;
  iy <~ calc_xyindex self py (miny self) ;;
  Return (mkNode ix iy (Flt (Float.Finite 0)) (-1)).

Definition initial (self : t) (nstart : Node) : state :=
  mkState (Py.set [] (calc_index self (x nstart) (y nstart)) nstart) [] [].

(** [planning(sx, sy, gx, gy)]; [fuel] bounds the iterations of each of
    the two [while] loops. *)
Definition planning (fuel : nat) (self : t) (sx sy gx gy : Num.t)
  : res (list Num.t * list Num.t * list (Num.t * Num.t)) :=
  nstart <~ query_node self sx sy ;;
  ngoal <~ query_node self gx gy ;;
  r <~ loop fuel self ngoal (initial self nstart) ;;
  let '(ngoal', st) := r in
  p <~ calc_final_path fuel self ngoal' (closedset st) ;;
  Return (fst p, snd p, expansion st).

(** The two statements of [planning] that change the open set:
    [openset[k] = n] and [del openset[k]]. *)
Inductive statement : Type :=
| Store (k : Z) (n : Node)
| Delete (k : Z).

(** The open set after a run of such statements and, beside it, the time
    (the position of the statement in the run) at which each of its keys
    was inserted; [now] is the time of the next statement. *)
Fixpoint run (now : nat) (openset : Py.dict Node) (inserted : Py.dict nat)
    (ss : list statement) : res (Py.dict Node * Py.dict nat) :=
  match ss with
  | [] => Return (openset, inserted)
  | Store k n :: ss' =>
      run (S now) (Py.set openset k n)
          (if Py.mem k openset then inserted else Py.set inserted k now) ss'
  | Delete k :: ss' =>
      if Py.mem k openset
      then run (S now) (Py.del openset k) (Py.del inserted k) ss'
      else Raise KeyError
  end.

(** The statements on the open set that the [for] loop over the motion
    model executes, in their order. *)
Fixpoint expand_statements (self : t) (current : Node) (c_id : Z)
    (closedset : Py.dict Node) (ms : list motion_t)
    (openset : Py.dict Node) : res (list statement) :=
  match ms with
  | [] => Return []
  | m :: ms' =>
      node <~ neighbour current c_id m ;;
      let n_id := calc_index self (x node) (y node) in
      if Py.mem n_id closedset then
        expand_statements self current c_id closedset ms' openset
      else
        ok <~ verify_node self (x node) (y node) ;;
        if negb ok then
          expand_statements self current c_id closedset ms' openset
        else if negb (Py.mem n_id openset) then
          ss <~ expand_statements self current c_id closedset ms'
                  (Py.set openset n_id node) ;;
          Return (Store n_id node :: ss)
        else
          old <~ lookup openset n_id ;;
          if gt (cost old) (cost node) then
            ss <~ expand_statements self current c_id closedset ms'
                    (Py.set openset n_id node) ;;
            Return (Store n_id node :: ss)
          else
            expand_statements self current c_id closedset ms' openset
  end.

(** The states of the loop of [planning], each with the statements that
    have been executed on the open set since it was created. *)
Inductive reaches (self : t) (nstart ngoal : Node)
  : list statement -> state -> Prop :=
| reach_start :
    reaches self nstart ngoal
      [Store (calc_index self (x nstart) (y nstart)) nstart]
      (initial self nstart)
| reach_step ss st c_id current ss' st' :
    reaches self nstart ngoal ss st ->
    min_cost (openset st) = Return c_id ->
    lookup (openset st) c_id = Return current ->
    expand_statements self current c_id
      (Py.set (closedset st) c_id current) (motion self)
      (Py.del (openset st) c_id) = Return ss' ->
    step self ngoal st = Return (Continue st') ->
    reaches self nstart ngoal (ss ++ Delete c_id :: ss') st'.

(** [k] is a cheapest key of the open set and, of the cheapest keys, the
    one inserted first. *)
Definition first_cheapest (openset : Py.dict Node) (inserted : Py.dict nat)
    (k : Z) : Prop :=
  exists n t,
    Py.get openset k = Some n /\ Py.get inserted k = Some t /\
    (forall k' n', Py.get openset k' = Some n' ->
                   le (cost n) (cost n') = true) /\
    (forall k' n' t', Py.get openset k' = Some n' ->
                      Py.get inserted k' = Some t' -> k' <> k ->
                      le (cost n') (cost n) = true -> (t < t')%nat).

(** A cost of [planning]: a [float] that is neither negative nor a
    NaN. *)
Definition is_cost (c : Num.t) : Prop :=
  exists f, c = Flt f /\ Float.nonneg f.

Definition costs (openset : Py.dict Node) : Prop :=
  forall e, In e openset -> is_cost (cost (snd e)).

(** A cost as [planning] computes it: a double that is neither negative
    nor a NaN. *)
Definition computed (c : Num.t) : Prop :=
  exists f, c = Flt f /\ Float.nonneg f /\ Float.rounded f.

(** The node [a] costs no more than the node [b], as [<=] on their
    costs decides. *)
Definition cheaper (a b : Node) : Prop := le (cost a) (cost b) = true.

(** No cost of the open set is a NaN. *)
Definition no_nan (openset : Py.dict Node) : Prop :=
  forall e, In e openset -> is_nan (cost (snd e)) = false.

(** The open set and the insertion times go together: the same keys in
    the same order, none twice, and the times grow along the list. *)
Definition timed (now : nat) (openset : Py.dict Node)
    (inserted : Py.dict nat) : Prop :=
  Py.keys openset = Py.keys inserted /\
  NoDup (Py.keys openset) /\
  StronglySorted Nat.lt (map snd inserted) /\
  Forall (fun t => (t < now)%nat) (map snd inserted).

End DoubleSearch.

(** ** What the loop of [planning] keeps true, whatever the rounding *)

Module DoubleInvariant.
Import Num Arith DoubleGraphSearch DoubleSearch.

(** A piece of code ends, and not on a missing key: it returns or
    raises an exception other than [KeyError]. *)
Definition proper {A : Type} (c : res A) : Prop :=
  match c with
  | Return _ => True
  | Raise e => e <> KeyError
  | OutOfFuel => False
  end.

(** The indices [-n, ..., n - 1] that a list of length [n] accepts. *)
Definition indices (n : nat) : list Z :=
  map (fun i => Z.of_nat i - Z.of_nat n) (seq 0 (2 * n)).

(** The length of the longest row. *)
Definition widest (rows : list (list bool)) : nat :=
  fold_right Nat.max 0%nat (map (@length bool) rows).

(** The index pairs at which [obmap[x][y]] can be read at all. *)
Definition readable (self : t) : list (Z * Z) :=
  list_prod (indices (length (obmap self))) (indices (widest (obmap self))).

Definition readable_count (self : t) : nat := length (readable self).

(** The linear indices of the readable pairs. *)
Definition readable_keys (self : t) : list Z :=
  map (fun c => calc_index self (fst c) (snd c)) (readable self).

(** The closed set in the order of insertion: the parent id of each
    node is [-1] or the key of a node closed before it. *)
Definition chained (closed : Py.dict Node) : Prop :=
  forall l1 k n l2,
    closed = l1 ++ (k, n) :: l2 ->
    pind n = -1 \/ In (pind n) (Py.keys l1).

(** The parent id [p] is [-1] or a key of the closed set. *)
Definition parented (closed : Py.dict Node) (p : Z) : Prop :=
  p = -1 \/ In p (Py.keys closed).

(** The open and the closed set are dictionaries with no key in common;
    their keys are the index of the start cell or of a readable pair;
    and the parent ids lead back through the closed set. *)
Definition tidy (self : t) (nstart : Node) (st : state) : Prop :=
  NoDup (Py.keys (openset st)) /\
  NoDup (Py.keys (closedset st)) /\
  (forall k, In k (Py.keys (openset st)) ->
             ~ In k (Py.keys (closedset st))) /\
  (forall k, In k (Py.keys (openset st)) \/ In k (Py.keys (closedset st)) ->
             k = calc_index self (x nstart) (y nstart) \/
             In k (readable_keys self)) /\
  chained (closedset st) /\
  (forall e, In e (openset st) -> parented (closedset st) (pind (snd e))).

End DoubleInvariant.

Module DoubleRRT.

(** A point [(x, y)] of the working space, two [float]s. *)
Definition point : Type := (Float.t * Float.t)%type.

(** [RADIUS_OBSTACLE = 0.8]: the double nearest to [8/10]. *)
Definition RADIUS_OBSTACLE : Float.t := Float.of_Q (8 # 10).

Section Platform.
(** [np.power(x, 2)] *)
Variable power2 : Float.t -> Float.t.

(** [np.sqrt(np.power(q[0]-n[0], 2) + np.power(q[1]-n[1], 2))] *)
Definition distance (q n : point) : Float.t :=
  Float.sqrt (Float.add (power2 (Float.sub (fst q) (fst n)))
                        (power2 (Float.sub (snd q) (snd n)))).

(** [check_point_collision(q)] on the obstacle list [obstacles]: the
    loop leaves at the first obstacle whose computed distance compares
    [<= RADIUS_OBSTACLE]. *)
Fixpoint check_point_collision (obstacles : list point) (q : point) : bool :=
  match obstacles with
  | [] => false
  | o :: rest =>
      if Float.leb (distance q o) RADIUS_OBSTACLE then true
      else check_point_collision rest q
  end.

(** The loop of [find_nearest_neighbour] over [enumerate(self.nodes)],
    from position [i] on. *)
Fixpoint find_nearest_neighbour_loop (nodes : list (point * option Z))
    (q : point) (i index : Z) (dist_min : Float.t) : Z :=
  match nodes with
  | [] => index
  | n :: nodes' =>
      let dist := distance q (fst n) in
      if Float.ltb dist dist_min
      then find_nearest_neighbour_loop nodes' q (i + 1) i dist
      else find_nearest_neighbour_loop nodes' q (i + 1) index dist_min
  end.

(** [find_nearest_neighbour(q)] on the tree [nodes]. *)
Definition find_nearest_neighbour (nodes : list (point * option Z))
    (q : point) : Z :=
  find_nearest_neighbour_loop nodes q 0 0 (Float.Infinity false).

End Platform.

(** [np.power(x, 2)] where it rounds to nearest. *)
Definition power2_nearest (x : Float.t) : Float.t := Float.mul x x.

(** Node [i] of the tree is a node nearest to [q] by the distances that
    the code computes, and the first such. *)
Definition first_nearest (power2 : Float.t -> Float.t)
    (nodes : list (point * option Z)) (q : point) (i : Z) : Prop :=
  exists n,
    0 <= i /\ nth_error nodes (Z.to_nat i) = Some n /\
    forall j m, nth_error nodes j = Some m ->
      Float.leb (distance power2 q (fst n))
                (distance power2 q (fst m)) = true /\
      ((j < Z.to_nat i)%nat ->
       Float.ltb (distance power2 q (fst n))
                 (distance power2 q (fst m)) = true).

(** The tree of three nodes at [(4.0, -5.0)], [(3.0, -4.0)] and
    [(5.0, -4.0)]. *)
Definition sapling : list (point * option Z) :=
  [ ((Float.Finite 4, Float.Finite (-5)), None);
    ((Float.Finite 3, Float.Finite (-4)), Some 0);
    ((Float.Finite 5, Float.Finite (-4)), Some 0) ].

End DoubleRRT.

Module DoubleSpec.

(** The finite value of a number. *)
Definition finite (n : Num.t) (q : Q) : Prop := Num.exact n = Float.Finite q.

(** The Euclidean distance from the point [(x, y)] to the obstacle [o]
    is at most [rr], all as the exact numbers they are. *)
Definition euclidean_within (rr : Num.t) (o : Num.t * Num.t) (x y : Num.t)
  : Prop :=
  exists a b u v r,
    finite (fst o) a /\ finite (snd o) b /\ finite x u /\ finite y v /\
    finite rr r /\
    (sqrt (Q2R ((a - u) * (a - u) + (b - v) * (b - v))) <= Q2R r)%R.

End DoubleSpec.

Module DoubleExamples.
Import Num Arith DoubleGraphSearch.

(** The obstacle points [(1.0, 2**-30)] and [(0, 3)] at resolution [1]
    and radius [1]: a grid of one column and three rows. *)
Definition grazed_ox : list Num.t := [Flt (Float.Finite 1); Int 0].
Definition grazed_oy : list Num.t := [Flt (Float.Finite (1 # 2 ^ 30)); Int 3].
Definition grazed : t :=
  make (Int 1) (Int 1) 0 0 1 3 1 3 [[true; false; true]] get_motion_model.

(** The obstacle points [(0, 0)] and [(12, 12)] at resolution [5]. *)
Definition coarse_ox : list Num.t := [Int 0; Int 12].
Definition coarse_oy : list Num.t := [Int 0; Int 12].
Definition coarse : t :=
  make (Int 5) (Int 1) 0 0 12 12 2 2 [[true; false]; [false; false]]
       get_motion_model.

(** A query on the planner [coarse], from the cell [(0, 0)] to the cell
    [(1, 0)], and the state of its loop after the first pass. *)
Definition coarse_start : DoubleSearch.Node :=
  DoubleSearch.mkNode 0 0 (Flt (Float.Finite 0)) (-1).
Definition coarse_goal : DoubleSearch.Node :=
  DoubleSearch.mkNode 1 0 (Flt (Float.Finite 0)) (-1).
Definition coarse_second : DoubleSearch.state :=
  Eval vm_compute in
    match DoubleSearch.step coarse coarse_goal
            (DoubleSearch.initial coarse coarse_start) with
    | Return (DoubleSearch.Continue st) => st
    | _ => DoubleSearch.initial coarse coarse_start
    end.
Definition coarse_statements : list DoubleSearch.statement :=
  Eval vm_compute in
    match DoubleSearch.expand_statements coarse coarse_start 0
            [(0, coarse_start)] (motion coarse) [] with
    | Return ss =>
        DoubleSearch.Store 0 coarse_start :: DoubleSearch.Delete 0 :: ss
    | _ => []
    end.

End DoubleExamples.

(* ===================================================================== *)
(** * Properties *)
(* ===================================================================== *)

(** Linear arithmetic over the rationals and over the reals. *)
Ltac qlra := Lqa.lra.
Ltac rlra := Lra.lra.
Ltac rnra := Lra.nra.

(** ** Facts about the Python primitives *)

Module PyFacts.
Import Py.

Lemma Qleb_spec (a b : Q) : Qleb a b = true <-> (a <= b)%Q.
Proof. unfold Qleb. apply Qle_bool_iff. Qed.

Lemma Qltb_spec (a b : Q) : Qltb a b = true <-> (a < b)%Q.
Proof.
  unfold Qltb. rewrite negb_true_iff. split; intro H.
  - apply Qnot_le_lt. intro Hle. apply Qle_bool_iff in Hle. congruence.
  - destruct (Qle_bool b a) eqn:E; [|reflexivity].
    apply Qle_bool_iff in E. exfalso. exact (Qlt_not_le _ _ H E).
Qed.

Lemma Qltb_false (a b : Q) : Qltb a b = false <-> (b <= a)%Q.
Proof.
  unfold Qltb. rewrite negb_false_iff. apply Qle_bool_iff.
Qed.

Lemma Qleb_false (a b : Q) : Qleb a b = false <-> (b < a)%Q.
Proof.
  rewrite <- Qltb_spec. unfold Qltb, Qleb.
  destruct (Qle_bool a b); simpl; intuition congruence.
Qed.

(** The fractional part that [round] inspects lies in [[0, 1)]. *)
Lemma frac_bounds (q : Q) :
  (0 <= q - inject_Z (Qfloor q) /\ q - inject_Z (Qfloor q) < 1)%Q.
Proof.
  pose proof (Qfloor_le q) as Hl. pose proof (Qlt_floor q) as Hu.
  rewrite inject_Z_plus in Hu. change (inject_Z 1) with 1%Q in Hu.
  split; qlra.
Qed.

(** [round] returns an integer at distance at most one half. *)
Lemma round_nearest (q : Q) : (Qabs (inject_Z (round q) - q) <= 1 # 2)%Q.
Proof.
  destruct (frac_bounds q) as [H0 H1]. unfold round.
  destruct (q - inject_Z (Qfloor q) ?= 1 # 2)%Q eqn:E.
  - apply Qeq_alt in E. apply Qabs_Qle_condition.
    destruct (Z.even (Qfloor q)); rewrite ?inject_Z_plus;
      change (inject_Z 1) with 1%Q; split; qlra.
  - apply Qlt_alt in E. apply Qabs_Qle_condition. split; qlra.
  - apply Qgt_alt in E. apply Qabs_Qle_condition.
    rewrite inject_Z_plus. change (inject_Z 1) with 1%Q. split; qlra.
Qed.

(** On a tie [round] returns the even neighbour. *)
Lemma round_tie_even (q : Q) :
  (Qabs (inject_Z (round q) - q) == 1 # 2)%Q -> Z.even (round q) = true.
Proof.
  destruct (frac_bounds q) as [H0 H1]. unfold round.
  destruct (q - inject_Z (Qfloor q) ?= 1 # 2)%Q eqn:E; intro Ht.
  - destruct (Z.even (Qfloor q)) eqn:Ev; [exact Ev|].
    rewrite Z.even_add, Ev. reflexivity.
  - apply Qlt_alt in E. exfalso.
    rewrite Qabs_neg in Ht by qlra. qlra.
  - apply Qgt_alt in E. exfalso. rewrite inject_Z_plus in Ht.
    change (inject_Z 1) with 1%Q in Ht.
    rewrite Qabs_pos in Ht by qlra. qlra.
Qed.

(** [round] never exceeds the ceiling, and is below it by at most one. *)
Lemma round_le_ceiling (q : Q) : Qceiling q - 1 <= round q <= Qceiling q.
Proof.
  destruct (frac_bounds q) as [H0 H1].
  pose proof (Qle_ceiling q) as Hc. pose proof (Qceiling_lt q) as Hc'.
  assert (Hfc : Qfloor q <= Qceiling q).
  { rewrite Zle_Qle. qlra. }
  assert (Hcf : Qceiling q <= Qfloor q + 1).
  { assert (Qceiling q - 1 < Qfloor q + 1); [|lia].
    rewrite Zlt_Qlt, !inject_Z_plus.
    change (inject_Z 1) with 1%Q. qlra. }
  unfold round.
  destruct (q - inject_Z (Qfloor q) ?= 1 # 2)%Q eqn:E.
  - apply Qeq_alt in E.
    assert (Qfloor q < Qceiling q).
    { rewrite Zlt_Qlt. qlra. }
    destruct (Z.even (Qfloor q)); lia.
  - lia.
  - apply Qgt_alt in E.
    assert (Qfloor q < Qceiling q).
    { rewrite Zlt_Qlt. qlra. }
    lia.
Qed.

End PyFacts.

(** ** Facts about dictionaries *)

Module DictFacts.
Import Py.

Section Dict.
Context {V : Type}.
Implicit Types (d : dict V) (k : Z) (v : V).

Lemma get_In d k v : get d k = Some v -> In (k, v) d.
Proof.
  induction d as [|[k' v'] d IH]; simpl; [discriminate|].
  destruct (k' =? k) eqn:E.
  - apply Z.eqb_eq in E. intros [= ->]. left. congruence.
  - intro H. right. auto.
Qed.

Lemma In_get d k v : NoDup (keys d) -> In (k, v) d -> get d k = Some v.
Proof.
  induction d as [|[k' v'] d IH]; simpl; [contradiction|].
  intros Hnd [Heq|Hin].
  - injection Heq as -> ->. now rewrite Z.eqb_refl.
  - inversion Hnd as [|? ? Hnotin Hnd']; subst.
    destruct (k' =? k) eqn:E; [|auto].
    apply Z.eqb_eq in E. subst k'. exfalso. apply Hnotin.
    change k with (fst (k, v)). now apply in_map.
Qed.

Lemma get_keys d k v : get d k = Some v -> In k (keys d).
Proof.
  intro H. apply get_In in H. change k with (fst (k, v)). now apply in_map.
Qed.

Lemma keys_get d k : In k (keys d) -> exists v, get d k = Some v.
Proof.
  induction d as [|[k' v'] d IH]; simpl; [contradiction|].
  destruct (k' =? k) eqn:E; [eauto|].
  intros [H|H]; [apply Z.eqb_neq in E; contradiction|auto].
Qed.

Lemma mem_true d k : mem k d = true <-> In k (keys d).
Proof.
  unfold mem. split.
  - destruct (get d k) eqn:E; [|discriminate]. intros _. eapply get_keys; eauto.
  - intro H. apply keys_get in H as [v ->]. reflexivity.
Qed.

Lemma mem_false d k : mem k d = false <-> ~ In k (keys d).
Proof.
  rewrite <- mem_true. destruct (mem k d); intuition congruence.
Qed.

Lemma mem_get d k : mem k d = true -> exists v, get d k = Some v.
Proof. intro H. apply keys_get. now apply mem_true. Qed.

(** A new key goes to the end of the iteration order. *)
Lemma set_new d k v : ~ In k (keys d) -> set d k v = d ++ [(k, v)].
Proof.
  induction d as [|[k' v'] d IH]; simpl; [reflexivity|].
  intro H. destruct (k' =? k) eqn:E.
  - apply Z.eqb_eq in E. tauto.
  - f_equal. apply IH. tauto.
Qed.

(** Assigning to a key that is present leaves the iteration order alone. *)
Lemma keys_set_old d k v : In k (keys d) -> keys (set d k v) = keys d.
Proof.
  induction d as [|[k' v'] d IH]; simpl; [contradiction|].
  intro H. destruct (k' =? k) eqn:E; simpl.
  - apply Z.eqb_eq in E. now subst.
  - f_equal. apply IH. apply Z.eqb_neq in E. tauto.
Qed.

Lemma keys_set d k v :
  keys (set d k v) = if mem k d then keys d else keys d ++ [k].
Proof.
  destruct (mem k d) eqn:E.
  - apply keys_set_old. now apply mem_true.
  - apply mem_false in E. rewrite set_new by assumption.
    unfold keys. now rewrite map_app.
Qed.

Lemma get_set_same d k v : get (set d k v) k = Some v.
Proof.
  induction d as [|[k' v'] d IH]; simpl.
  - now rewrite Z.eqb_refl.
  - destruct (k' =? k) eqn:E; simpl; [now rewrite Z.eqb_refl|now rewrite E].
Qed.

Lemma get_set_other d k v k' : k' <> k -> get (set d k v) k' = get d k'.
Proof.
  intro Hne. induction d as [|[k0 v0] d IH]; simpl.
  - destruct (k =? k') eqn:E; [apply Z.eqb_eq in E; congruence|reflexivity].
  - destruct (k0 =? k) eqn:E; simpl.
    + apply Z.eqb_eq in E. subst k0.
      destruct (k =? k') eqn:E'; [apply Z.eqb_eq in E'; congruence|reflexivity].
    + now rewrite IH.
Qed.

Lemma NoDup_set d k v : NoDup (keys d) -> NoDup (keys (set d k v)).
Proof.
  intro H. rewrite keys_set. destruct (mem k d) eqn:E; [assumption|].
  apply mem_false in E. apply NoDup_app; [assumption|repeat constructor; auto|].
  intros a Ha [<-|[]]. auto.
Qed.

Lemma length_set_new d k v :
  ~ In k (keys d) -> length (set d k v) = S (length d).
Proof.
  intro H. rewrite set_new by assumption. rewrite length_app. simpl. lia.
Qed.

Lemma get_del_other d k k' : k' <> k -> get (del d k) k' = get d k'.
Proof.
  intro Hne. induction d as [|[k0 v0] d IH]; simpl; [reflexivity|].
  destruct (k0 =? k) eqn:E; simpl.
  - apply Z.eqb_eq in E. subst k0.
    destruct (k =? k') eqn:E'; [apply Z.eqb_eq in E'; congruence|reflexivity].
  - now rewrite IH.
Qed.

Lemma keys_del_incl d k k' : In k' (keys (del d k)) -> In k' (keys d).
Proof.
  induction d as [|[k0 v0] d IH]; simpl; [tauto|].
  destruct (k0 =? k); simpl; tauto.
Qed.

Lemma NoDup_del d k : NoDup (keys d) -> NoDup (keys (del d k)).
Proof.
  induction d as [|[k0 v0] d IH]; simpl; [auto|].
  intro H. inversion H as [|? ? Hn Hd]; subst.
  destruct (k0 =? k); simpl; [assumption|].
  constructor; [|auto]. intro Hin. apply Hn. eapply keys_del_incl; eauto.
Qed.

(** Deleting a key removes it, as the keys of a dictionary are distinct. *)
Lemma get_del_same d k : NoDup (keys d) -> get (del d k) k = None.
Proof.
  induction d as [|[k0 v0] d IH]; simpl; [reflexivity|].
  intro H. inversion H as [|? ? Hn Hd]; subst.
  destruct (k0 =? k) eqn:E; simpl.
  - apply Z.eqb_eq in E. subst k0.
    destruct (get d k) eqn:G; [|reflexivity].
    exfalso. apply Hn. eapply get_keys; eauto.
  - rewrite E. auto.
Qed.

End Dict.
End DictFacts.

(** ** Facts about lists, square roots and costs *)

Module NumFacts.
Import Py PyFacts.

Lemma length_range (n : Z) : length (range n) = Z.to_nat n.
Proof. unfold range. now rewrite length_map, length_seq. Qed.

Lemma nth_range (n i : Z) :
  0 <= i < n -> nth_error (range n) (Z.to_nat i) = Some i.
Proof.
  intro H. unfold range. rewrite nth_error_map, nth_error_seq.
  destruct (Nat.ltb_spec (Z.to_nat i) (Z.to_nat n)); [|lia].
  simpl. f_equal. lia.
Qed.

(** An index that is not negative reads the list at that place. *)
Lemma index_nonneg {A : Type} (l : list A) (i : Z) (a : A) :
  0 <= i -> index l i = Return a ->
  i < Z.of_nat (length l) /\ nth_error l (Z.to_nat i) = Some a.
Proof.
  intros Hi. unfold index.
  destruct (Z.ltb_spec i 0); [lia|].
  destruct (Z.leb_spec 0 i); [|lia]. simpl.
  destruct (Z.ltb_spec i (Z.of_nat (length l))); [|discriminate].
  destruct (nth_error l (Z.to_nat i)); [|discriminate].
  intros [= ->]. auto.
Qed.

Lemma index_in_range {A : Type} (l : list A) (i : Z) (a : A) :
  0 <= i -> nth_error l (Z.to_nat i) = Some a -> index l i = Return a.
Proof.
  intros Hi Hn. unfold index.
  assert (Z.to_nat i < length l)%nat by (apply nth_error_Some; congruence).
  destruct (Z.ltb_spec i 0); [lia|].
  destruct (Z.leb_spec 0 i); [|lia]. simpl.
  destruct (Z.ltb_spec i (Z.of_nat (length l))); [|lia].
  now rewrite Hn.
Qed.

(** The only exception of an indexing is [IndexError]. *)
Lemma index_raise {A : Type} (l : list A) (i : Z) :
  (exists a, index l i = Return a) \/ index l i = Raise IndexError.
Proof.
  unfold index.
  destruct ((0 <=? _) && _); [|auto].
  destruct (nth_error _ _); eauto.
Qed.

(** [sqrt_le] decides the comparison of the real square root. *)
Lemma sqrt_le_spec (a r : Q) :
  (0 <= a)%Q -> sqrt_le a r = true <-> (sqrt (Q2R a) <= Q2R r)%R.
Proof.
  intro Ha. apply Qle_Rle in Ha. rewrite RMicromega.Q2R_0 in Ha.
  unfold sqrt_le. rewrite andb_true_iff, !Qleb_spec. split.
  - intros [Hr Har]. apply Qle_Rle in Hr, Har.
    rewrite RMicromega.Q2R_0 in Hr. rewrite Q2R_mult in Har.
    rewrite <- (sqrt_square (Q2R r)) by assumption.
    now apply sqrt_le_1_alt.
  - intro H. pose proof (sqrt_pos (Q2R a)) as Hp.
    pose proof (sqrt_sqrt (Q2R a) Ha) as Hs.
    split; apply Rle_Qle.
    + rewrite RMicromega.Q2R_0. rlra.
    + rewrite Q2R_mult. rnra.
Qed.

Lemma sqrt2_sq : (sqrt 2 * sqrt 2 = 2)%R.
Proof. apply sqrt_sqrt. rlra. Qed.

Lemma sqrt2_pos : (0 < sqrt 2)%R.
Proof. apply sqrt_lt_R0. rlra. Qed.

(** [Cost.pos] decides the sign of [p + q * sqrt 2]. *)
Lemma pos_spec (p q : Z) :
  Cost.pos p q = true <-> (0 < IZR p + IZR q * sqrt 2)%R.
Proof.
  pose proof sqrt2_sq as Hs. pose proof sqrt2_pos as Hp.
  unfold Cost.pos.
  destruct (Z.leb_spec 0 q) as [Hq|Hq]; [destruct (Z.leb_spec 0 p) as [Hp0|Hp0]|
    destruct (Z.ltb_spec 0 p) as [Hp0|Hp0]].
  - pose proof (IZR_le _ _ Hq) as Hq'. pose proof (IZR_le _ _ Hp0) as Hp0'.
    rewrite orb_true_iff, !Z.ltb_lt.
    assert (Hqs : (0 <= IZR q * sqrt 2)%R) by (apply Rmult_le_pos; rlra).
    split.
    + intros [H2|H2]; apply IZR_lt in H2; [rlra|].
      assert (0 < IZR q * sqrt 2)%R by (apply Rmult_lt_0_compat; rlra). rlra.
    + intro Hpos. destruct (Z.eq_dec p 0) as [->|]; [|lia].
      destruct (Z.eq_dec q 0) as [->|]; [|lia]. simpl in Hpos. rlra.
  - rewrite Z.ltb_lt. apply IZR_le in Hq. apply IZR_lt in Hp0.
    assert (Hqs : (0 <= IZR q * sqrt 2)%R) by (apply Rmult_le_pos; rlra).
    split.
    + intro Hlt. apply IZR_lt in Hlt. rewrite !mult_IZR in Hlt.
      simpl in Hlt. rnra.
    + intro Hlt. apply lt_IZR. rewrite !mult_IZR. simpl. rnra.
  - rewrite Z.ltb_lt. apply IZR_lt in Hq, Hp0.
    assert (Hqs : (0 < - IZR q * sqrt 2)%R) by (apply Rmult_lt_0_compat; rlra).
    split.
    + intro Hlt. apply IZR_lt in Hlt. rewrite !mult_IZR in Hlt.
      simpl in Hlt. rnra.
    + intro Hlt. apply lt_IZR. rewrite !mult_IZR. simpl. rnra.
  - apply IZR_lt in Hq. apply IZR_le in Hp0. split; [discriminate|].
    intro Hlt. exfalso.
    assert (Hqs : (0 < - IZR q * sqrt 2)%R) by (apply Rmult_lt_0_compat; rlra).
    rlra.
Qed.

Lemma ltb_spec (a b : Cost.t) :
  Cost.ltb a b = true <-> (Cost.val a < Cost.val b)%R.
Proof.
  unfold Cost.ltb, Cost.val. rewrite pos_spec, !minus_IZR. split; intro; rlra.
Qed.

Lemma ltb_false (a b : Cost.t) :
  Cost.ltb a b = false <-> (Cost.val b <= Cost.val a)%R.
Proof.
  pose proof (ltb_spec a b). destruct (Cost.ltb a b).
  - split; [discriminate|]. intro Hle.
    assert (Cost.val a < Cost.val b)%R by tauto. rlra.
  - split; [|reflexivity]. intros _. apply Rnot_lt_le. intro Hlt.
    assert (false = true) by tauto. discriminate.
Qed.

Lemma val_add (a b : Cost.t) :
  Cost.val (Cost.add a b) = (Cost.val a + Cost.val b)%R.
Proof.
  unfold Cost.val, Cost.add. simpl. rewrite !plus_IZR. rlra.
Qed.

Lemma val_zero : Cost.val Cost.zero = 0%R.
Proof. unfold Cost.val. simpl. rlra. Qed.

Lemma val_one : Cost.val Cost.one = 1%R.
Proof. unfold Cost.val. simpl. rlra. Qed.

Lemma val_sqrt2 : Cost.val Cost.sqrt2 = sqrt 2.
Proof. unfold Cost.val. simpl. rlra. Qed.

End NumFacts.

(** ** The occupancy grid *)

Module GridFacts.
Import Py PyFacts NumFacts GraphSearch Search Spec.

Lemma min_from_spec (l : list Q) (m : Q) :
  (min_from m l <= m)%Q /\ Forall (fun q => min_from m l <= q)%Q l /\
  (min_from m l = m \/ In (min_from m l) l).
Proof.
  revert m. induction l as [|q l IH]; intro m; simpl.
  - split; [qlra|]. split; [constructor|auto].
  - destruct (Qltb q m) eqn:E.
    + apply Qltb_spec in E. destruct (IH q) as (H1 & H2 & H3).
      split; [qlra|]. split; [constructor; assumption|].
      right. destruct H3 as [->|H3]; auto.
    + apply Qltb_false in E. destruct (IH m) as (H1 & H2 & H3).
      split; [assumption|]. split; [constructor; [qlra|assumption]|].
      destruct H3; auto.
Qed.

Lemma max_from_spec (l : list Q) (m : Q) :
  (m <= max_from m l)%Q /\ Forall (fun q => q <= max_from m l)%Q l /\
  (max_from m l = m \/ In (max_from m l) l).
Proof.
  revert m. induction l as [|q l IH]; intro m; simpl.
  - split; [qlra|]. split; [constructor|auto].
  - destruct (Qltb m q) eqn:E.
    + apply Qltb_spec in E. destruct (IH q) as (H1 & H2 & H3).
      split; [qlra|]. split; [constructor; assumption|].
      right. destruct H3 as [->|H3]; auto.
    + apply Qltb_false in E. destruct (IH m) as (H1 & H2 & H3).
      split; [assumption|]. split; [constructor; [qlra|assumption]|].
      destruct H3; auto.
Qed.

(** [min(l)] is an element of [l] below all the others. *)
Lemma min_spec (l : list Q) (m : Q) :
  Py.min l = Return m -> In m l /\ Forall (fun q => m <= q)%Q l.
Proof.
  destruct l as [|q l]; simpl; [discriminate|]. intros [= <-].
  destruct (min_from_spec l q) as (H1 & H2 & H3).
  split; [destruct H3 as [->|]; auto|constructor; assumption].
Qed.

Lemma max_spec (l : list Q) (m : Q) :
  Py.max l = Return m -> In m l /\ Forall (fun q => q <= m)%Q l.
Proof.
  destruct l as [|q l]; simpl; [discriminate|]. intros [= <-].
  destruct (max_from_spec l q) as (H1 & H2 & H3).
  split; [destruct H3 as [->|]; auto|constructor; assumption].
Qed.

(** What the constructor computes, attribute by attribute. *)
Lemma init_inv (ox oy : list Q) (reso0 rr0 : Q) (self : t) :
  init ox oy reso0 rr0 = Return self ->
  exists mnx mny mxx mxy,
    Py.min ox = Return mnx /\ Py.min oy = Return mny /\
    Py.max ox = Return mxx /\ Py.max oy = Return mxy /\
    ~ (reso0 == 0)%Q /\
    reso self = reso0 /\ rr self = rr0 /\
    minx self = Py.round mnx /\ miny self = Py.round mny /\
    maxx self = Py.round mxx /\ maxy self = Py.round mxy /\
    xwidth self = Py.round (inject_Z (maxx self - minx self) / reso0)%Q /\
    ywidth self = Py.round (inject_Z (maxy self - miny self) / reso0)%Q /\
    obmap self =
      map (fun ix =>
             map (fun iy =>
                    near_obstacle rr0 (combine ox oy)
                      (position reso0 ix (minx self))
                      (position reso0 iy (miny self)))
                 (Py.range (ywidth self)))
          (Py.range (xwidth self)) /\
    motion self = get_motion_model.
Proof.
  unfold init, calc_obstacle_map.
  destruct (Py.min ox) as [mnx| |]; simpl; try discriminate.
  destruct (Py.min oy) as [mny| |]; simpl; try discriminate.
  destruct (Py.max ox) as [mxx| |]; simpl; try discriminate.
  destruct (Py.max oy) as [mxy| |]; simpl; try discriminate.
  destruct (Qeq_bool reso0 0) eqn:E; simpl; [discriminate|].
  intros [= <-]. simpl. exists mnx, mny, mxx, mxy.
  repeat split; try reflexivity.
  intro H. apply Qeq_bool_iff in H. congruence.
Qed.

(** The constructor succeeds on non-empty lists and a non-zero resolution. *)
Lemma init_returns (ox oy : list Q) (reso0 rr0 : Q) :
  ox <> [] -> oy <> [] -> ~ (reso0 == 0)%Q ->
  exists self, init ox oy reso0 rr0 = Return self.
Proof.
  intros Hx Hy Hr. unfold init, calc_obstacle_map.
  destruct ox as [|x ox]; [congruence|]. destruct oy as [|y oy]; [congruence|].
  simpl. destruct (Qeq_bool reso0 0) eqn:E.
  - apply Qeq_bool_iff in E. contradiction.
  - simpl. eauto.
Qed.

Lemma init_well_formed (ox oy : list Q) (reso0 rr0 : Q) (self : t) :
  init ox oy reso0 rr0 = Return self -> (0 < reso0)%Q -> well_formed self.
Proof.
  intros H Hr. apply init_inv in H.
  destruct H as (mnx & mny & mxx & mxy & _ & _ & _ & _ & _ & Hreso & _ &
                 _ & _ & _ & _ & _ & _ & Hob & Hm).
  unfold well_formed. rewrite Hreso, Hob. repeat split; try assumption.
  - now rewrite length_map, length_range.
  - apply Forall_forall. intros row Hin. apply in_map_iff in Hin.
    destruct Hin as (ix & <- & _). now rewrite length_map, length_range.
Qed.

End GridFacts.

(** ** [verify_node] *)

Module VerifyFacts.
Import Py PyFacts NumFacts GraphSearch Search Spec.

(** Only the grid indices of a node matter to [verify_node]. *)
Lemma verify_node_cell (self : t) (n : Node.t) :
  verify_node self n = verify_node self (cell_node (Node.x n) (Node.y n)).
Proof. reflexivity. Qed.

Lemma calc_index_cell (self : t) (n : Node.t) :
  calc_index self n = calc_index self (cell_node (Node.x n) (Node.y n)).
Proof. reflexivity. Qed.

(** [verify_node] is the positional test followed by the array lookup. *)
Lemma verify_node_unfold (self : t) (n : Node.t) :
  verify_node self n =
  if position_ok self (Node.x n) (Node.y n)
  then occ <- obmap_at self (Node.x n) (Node.y n) ;; Return (negb occ)
  else Return false.
Proof.
  unfold verify_node, position_ok.
  destruct (Qltb _ _); [reflexivity|].
  destruct (Qltb _ _); [reflexivity|].
  destruct (Qleb _ _); [reflexivity|].
  destruct (Qleb _ _); [reflexivity|]. simpl.
  destruct (obmap_at _ _ _) as [[|]| |]; reflexivity.
Qed.

(** The only exception of [verify_node] is [IndexError]. *)
Lemma verify_node_raise (self : t) (n : Node.t) :
  (exists b, verify_node self n = Return b) \/
  verify_node self n = Raise IndexError.
Proof.
  rewrite verify_node_unfold. destruct (position_ok _ _ _); [|eauto].
  unfold obmap_at.
  destruct (index_raise (obmap self) (Node.x n)) as [[row ->]| ->]; [|auto].
  simpl. destruct (index_raise row (Node.y n)) as [[b ->]| ->]; simpl; eauto.
Qed.

(** With a positive resolution, a position at or above the lower bound
    belongs to an index that is not negative. *)
Lemma position_lower (r : Q) (i minp : Z) :
  (0 < r)%Q -> Qltb (position r i minp) (inject_Z minp) = false -> 0 <= i.
Proof.
  intros Hr H. apply Qltb_false in H. unfold position in H.
  destruct (Z.leb_spec 0 i) as [|Hneg]; [assumption|exfalso].
  assert (Hi : (inject_Z i <= -1)%Q).
  { change (-1)%Q with (inject_Z (-1)). rewrite <- Zle_Qle. lia. }
  Lqa.nra.
Qed.

Lemma position_ok_nonneg (self : t) (x y : Z) :
  (0 < reso self)%Q -> position_ok self x y = true -> 0 <= x /\ 0 <= y.
Proof.
  intros Hr H. unfold position_ok in H.
  rewrite !andb_true_iff, !negb_true_iff in H.
  destruct H as [[[Hx Hy] _] _].
  split; eapply position_lower; eauto.
Qed.

(** A cell that [verify_node] accepts lies inside the array, passes the
    positional test and is not marked in [obmap]. *)
Lemma verify_node_true (self : t) (n : Node.t) :
  well_formed self -> verify_node self n = Return true ->
  in_array self (Node.x n) (Node.y n) /\
  position_ok self (Node.x n) (Node.y n) = true /\
  obmap_at self (Node.x n) (Node.y n) = Return false.
Proof.
  intros (Hr & _ & Hlen & Hrows) H. rewrite verify_node_unfold in H.
  destruct (position_ok self (Node.x n) (Node.y n)) eqn:Hp; [|discriminate].
  destruct (position_ok_nonneg _ _ _ Hr Hp) as [Hx Hy].
  unfold obmap_at in *.
  destruct (index (obmap self) (Node.x n)) as [row| |] eqn:Hrow;
    simpl in H; try discriminate.
  destruct (index row (Node.y n)) as [b| |] eqn:Hb; simpl in H; try discriminate.
  destruct b; [discriminate|].
  destruct (index_nonneg _ _ _ Hx Hrow) as [Hxl Hnth].
  destruct (index_nonneg _ _ _ Hy Hb) as [Hyl _].
  apply nth_error_In in Hnth. rewrite Forall_forall in Hrows.
  apply Hrows in Hnth. unfold in_array.
  repeat split; try assumption; try lia.
Qed.

End VerifyFacts.

(** ** Selecting the node to expand *)

Module SelectFacts.
Import Py PyFacts NumFacts DictFacts GraphSearch Search Spec Invariant.

(** The scan keeps the first of the cheapest items: everything before it
    costs strictly more, nothing after it costs less. *)
Lemma min_cost_from_split (d : dict Node.t) :
  forall (best : Z * Node.t) (l1 l2 : dict Node.t),
    (forall e, In e l1 -> (item_cost best < item_cost e)%R) ->
    (forall e, In e l2 -> (item_cost best <= item_cost e)%R) ->
    exists l1' l2',
      l1 ++ best :: l2 ++ d = l1' ++ min_cost_from best d :: l2' /\
      (forall e, In e l1' -> (item_cost (min_cost_from best d) < item_cost e)%R) /\
      (forall e, In e l2' -> (item_cost (min_cost_from best d) <= item_cost e)%R).
Proof.
  induction d as [|e d IH]; intros best l1 l2 H1 H2; simpl.
  - exists l1, l2. rewrite app_nil_r. auto.
  - destruct (Cost.ltb (Node.cost (snd e)) (Node.cost (snd best))) eqn:E.
    + apply ltb_spec in E. fold (item_cost e) in E. fold (item_cost best) in E.
      destruct (IH e (l1 ++ best :: l2) []) as (l1' & l2' & Heq & Ha & Hb).
      * intros e' Hin. apply in_app_or in Hin as [Hin|[<-|Hin]].
        -- specialize (H1 _ Hin). rlra.
        -- assumption.
        -- specialize (H2 _ Hin). rlra.
      * intros e' [].
      * exists l1', l2'. split; [|auto].
        rewrite <- Heq. rewrite <- app_assoc. reflexivity.
    + apply ltb_false in E. fold (item_cost e) in E.
      fold (item_cost best) in E.
      destruct (IH best l1 (l2 ++ [e])) as (l1' & l2' & Heq & Ha & Hb).
      * assumption.
      * intros e' Hin. apply in_app_or in Hin as [Hin|[<-|[]]]; auto.
      * exists l1', l2'. split; [|auto].
        rewrite <- Heq. rewrite <- app_assoc. reflexivity.
Qed.

Lemma min_cost_split (d : dict Node.t) (k : Z) :
  min_cost d = Return k ->
  exists l1 n l2,
    d = l1 ++ (k, n) :: l2 /\
    (forall e, In e l1 -> (item_cost (k, n) < item_cost e)%R) /\
    (forall e, In e l2 -> (item_cost (k, n) <= item_cost e)%R).
Proof.
  destruct d as [|e d]; simpl; [discriminate|]. intros [= <-].
  destruct (min_cost_from_split d e [] []) as (l1 & l2 & Heq & Ha & Hb);
    try (intros ? []).
  simpl in Heq. exists l1, (snd (min_cost_from e d)), l2.
  rewrite <- surjective_pairing. auto.
Qed.

(** [min] raises [ValueError] on the empty open set and nothing else. *)
Lemma min_cost_raise (d : dict Node.t) :
  (exists k, min_cost d = Return k) \/ (d = [] /\ min_cost d = Raise ValueError).
Proof. destruct d; simpl; eauto. Qed.

(** The selected key is in the open set, and its node is the cheapest. *)
Lemma min_cost_get (d : dict Node.t) (k : Z) :
  NoDup (keys d) -> min_cost d = Return k ->
  exists n, get d k = Some n /\
    forall k' n', get d k' = Some n' ->
                  (Cost.val (Node.cost n) <= Cost.val (Node.cost n'))%R.
Proof.
  intros Hnd H. apply min_cost_split in H as (l1 & n & l2 & -> & Ha & Hb).
  exists n. split.
  - apply In_get; [assumption|]. apply in_elt.
  - intros k' n' Hg. apply get_In in Hg.
    apply in_app_or in Hg as [Hin|[Heq|Hin]].
    + specialize (Ha _ Hin). unfold item_cost in Ha. simpl in Ha. rlra.
    + injection Heq as <- <-. rlra.
    + exact (Hb _ Hin).
Qed.

End SelectFacts.

(** ** One iteration of the search loop *)

Module StepFacts.
Import Py PyFacts NumFacts DictFacts VerifyFacts SelectFacts.
Import GraphSearch Search Spec Invariant.


Lemma expand_fuel (self : t) (current : Node.t) (c_id : Z)
    (closed : dict Node.t) (ms : list motion_t) :
  forall os, expand self current c_id closed ms os <> OutOfFuel.
Proof.
  induction ms as [|m ms IH]; intros os; simpl; [discriminate|].
  destruct (mem _ closed); [apply IH|].
  destruct (verify_node_raise self (neighbour current c_id m)) as [[b ->]| ->];
    simpl; [|discriminate].
  destruct b; simpl; [|apply IH].
  destruct (mem _ os) eqn:Hm; simpl; [|apply IH].
  unfold lookup. apply mem_get in Hm as [old ->]. simpl.
  destruct (Cost.gtb _ _); apply IH.
Qed.

(** The [for] loop only assigns keys that are not in the closed set. *)
Lemma expand_separated (self : t) (current : Node.t) (c_id : Z)
    (closed : dict Node.t) (ms : list motion_t) :
  forall os os',
    NoDup (keys os) ->
    (forall k, In k (keys os) -> ~ In k (keys closed)) ->
    expand self current c_id closed ms os = Return os' ->
    NoDup (keys os') /\
    (forall k, In k (keys os') -> ~ In k (keys closed)).
Proof.
  induction ms as [|m ms IH]; intros os os' Hnd Hdis; simpl.
  - intros [= <-]. auto.
  - destruct (mem _ closed) eqn:Hc; [now apply IH|].
    destruct (verify_node self _) as [[|]| |]; simpl; try discriminate;
      [|now apply IH].
    assert (Hset : forall v k, In k (keys (set os (calc_index self
                     (neighbour current c_id m)) v)) -> ~ In k (keys closed)).
    { intros v k. rewrite keys_set. destruct (mem _ os); [apply Hdis|].
      intro Hin. apply in_app_or in Hin as [Hin|[<-|[]]]; [now apply Hdis|].
      now apply mem_false. }
    destruct (mem _ os) eqn:Hm; simpl.
    + unfold lookup. apply mem_get in Hm as [old ->]. simpl.
      destruct (Cost.gtb _ _); [|now apply IH].
      apply IH; [now apply NoDup_set|apply Hset].
    + apply IH; [now apply NoDup_set|apply Hset].
Qed.

Section Sound.
Variables (self : t) (nstart : Node.t).
Hypothesis Hwf : well_formed self.

(** Every move of the motion model counts for one. *)
Lemma motion_moves (m : motion_t) :
  In m (motion self) -> moves (snd m) = 1.
Proof.
  destruct Hwf as (_ & -> & _). unfold get_motion_model. simpl.
  intros H. repeat (destruct H as [<-|H]; [reflexivity|]). contradiction.
Qed.

(** Soundness of a node survives a new entry of the closed set. *)
Lemma sound_grow (closed : dict Node.t) (k k' : Z) (n v : Node.t) :
  ~ In k' (keys closed) ->
  sound self nstart closed k n -> sound self nstart (set closed k' v) k n.
Proof.
  intros Hnew (Hk & Hmv & Hreach & Hn).
  split; [assumption|]. split; [rewrite length_set_new by assumption; lia|].
  split; [assumption|].
  destruct Hn as [Hn|(Hv & p & m & Hm & Hp & Heq)]; [now left|right].
  split; [assumption|]. exists p, m. repeat split; try assumption.
  rewrite get_set_other; [assumption|].
  intro Hk'. apply Hnew. rewrite <- Hk'. eapply get_keys; eauto.
Qed.

(** A verified neighbour of a closed node is sound. *)
Lemma sound_neighbour (closed : dict Node.t) (current : Node.t) (m : motion_t) :
  get closed (calc_index self current) = Some current ->
  sound self nstart closed (calc_index self current) current ->
  moves (Node.cost current) < Z.of_nat (length closed) ->
  In m (motion self) ->
  verify_node self (neighbour current (calc_index self current) m) = Return true ->
  sound self nstart closed
    (calc_index self (neighbour current (calc_index self current) m))
    (neighbour current (calc_index self current) m).
Proof.
  intros Hget (_ & Hmv & Hreach & _) Hlt Hm Hv.
  split; [reflexivity|].
  pose proof (motion_moves m Hm) as H1.
  destruct m as [[dx dy] c]. simpl in *.
  split; [unfold moves in *; simpl; lia|].
  split.
  - apply (reach_move self _ _ _ _ (dx, dy, c)); [assumption|assumption|].
    exact Hv.
  - right. split; [assumption|]. exists current, (dx, dy, c). auto.
Qed.

Lemma expand_sound (current : Node.t) (closed : dict Node.t)
    (ms : list motion_t) :
  get closed (calc_index self current) = Some current ->
  sound self nstart closed (calc_index self current) current ->
  moves (Node.cost current) < Z.of_nat (length closed) ->
  incl ms (motion self) ->
  forall os os',
    (forall k n, get os k = Some n -> sound self nstart closed k n) ->
    expand self current (calc_index self current) closed ms os = Return os' ->
    (forall k n, get os' k = Some n -> sound self nstart closed k n).
Proof.
  intros Hget Hcur Hlt. induction ms as [|m ms IH]; intros Hincl os os' Hos; simpl.
  - intros [= <-]. assumption.
  - assert (Hms : incl ms (motion self)) by (intros x Hx; apply Hincl; now right).
    assert (Hm : In m (motion self)) by (apply Hincl; now left).
    destruct (mem _ closed) eqn:Hc; [now apply IH|].
    destruct (verify_node self _) as [[|]| |] eqn:Hv; simpl; try discriminate;
      [|now apply IH].
    assert (Hset : forall k n,
               get (set os (calc_index self
                      (neighbour current (calc_index self current) m))
                      (neighbour current (calc_index self current) m)) k = Some n ->
               sound self nstart closed k n).
    { intros k n. 
      destruct (Z.eq_dec k (calc_index self
                      (neighbour current (calc_index self current) m))) as [->|Hne].
      - rewrite get_set_same. intros [= <-]. now apply sound_neighbour.
      - rewrite get_set_other by assumption. apply Hos. }
    destruct (mem _ os) eqn:Hmo; simpl.
    + unfold lookup. apply mem_get in Hmo as [old ->]. simpl.
      destruct (Cost.gtb _ _); [|now apply IH].
      now apply IH.
    + now apply IH.
Qed.

End Sound.
End StepFacts.

(** ** The loop *)

Module LoopFacts.
Import Py PyFacts NumFacts DictFacts VerifyFacts SelectFacts StepFacts.
Import GraphSearch Search Spec Invariant.

(** The body of the loop, case by case. *)
Lemma step_cases (self : t) (ngoal : Node.t) (st : state) :
  NoDup (keys (openset st)) ->
  (openset st = [] /\ step self ngoal st = Raise ValueError) \/
  exists c_id current,
    min_cost (openset st) = Return c_id /\
    get (openset st) c_id = Some current /\
    (forall k' n', get (openset st) k' = Some n' ->
       (Cost.val (Node.cost current) <= Cost.val (Node.cost n'))%R) /\
    ((Node.x current = Node.x ngoal /\ Node.y current = Node.y ngoal /\
      step self ngoal st =
        Return (Break (Node.make (Node.x ngoal) (Node.y ngoal)
                                 (Node.cost current) (Node.pind current))
                      (mkState (openset st) (closedset st)
                         (expansion st ++ [waypoint self (Node.x current)
                                                         (Node.y current)]))))
     \/
     (~ (Node.x current = Node.x ngoal /\ Node.y current = Node.y ngoal) /\
      step self ngoal st =
        (os <- expand self current c_id (set (closedset st) c_id current)
                 (motion self) (del (openset st) c_id) ;;
         Return (Continue (mkState os (set (closedset st) c_id current)
                   (expansion st ++ [waypoint self (Node.x current)
                                                   (Node.y current)])))))).
Proof.
  intro Hnd. unfold step.
  destruct (min_cost_raise (openset st)) as [[c_id Hmin]|[Hnil ->]]; [|now left].
  right. rewrite Hmin. simpl.
  destruct (min_cost_get _ _ Hnd Hmin) as (current & Hget & Hle).
  exists c_id, current. unfold lookup. rewrite Hget. simpl.
  repeat split; try assumption.
  destruct (Z.eqb_spec (Node.x current) (Node.x ngoal)) as [Hx|Hx];
    destruct (Z.eqb_spec (Node.y current) (Node.y ngoal)) as [Hy|Hy]; simpl;
    [left; auto|right; split; [tauto|reflexivity]..].
Qed.

Lemma step_fuel (self : t) (ngoal : Node.t) (st : state) :
  NoDup (keys (openset st)) -> step self ngoal st <> OutOfFuel.
Proof.
  intro Hnd.
  destruct (step_cases self ngoal st Hnd)
    as [[_ ->]|(c_id & current & _ & _ & _ & [(_ & _ & ->)|(_ & ->)])];
    try discriminate.
  destruct (expand _ _ _ _ _ _) eqn:E; simpl; try discriminate.
  now apply expand_fuel in E.
Qed.


(** Leaving the loop: the node selected from the open set is on the goal
    cell, and the closed set is as it was. *)
Lemma step_break (self : t) (ngoal ngoal' : Node.t) (st st' : state) :
  NoDup (keys (openset st)) ->
  step self ngoal st = Return (Break ngoal' st') ->
  closedset st' = closedset st /\
  exists c_id current,
    get (openset st) c_id = Some current /\
    (forall k' n', get (openset st) k' = Some n' ->
       (Cost.val (Node.cost current) <= Cost.val (Node.cost n'))%R) /\
    Node.x current = Node.x ngoal /\ Node.y current = Node.y ngoal /\
    ngoal' = Node.make (Node.x ngoal) (Node.y ngoal)
                       (Node.cost current) (Node.pind current).
Proof.
  intros Hnd H.
  destruct (step_cases self ngoal st Hnd)
    as [[Hnil Hs]|(c_id & current & _ & Hg & Hle & [(Hx & Hy & Hs)|(_ & Hs)])];
    rewrite Hs in H; try discriminate.
  - injection H as <- <-. simpl. split; [reflexivity|].
    exists c_id, current. auto.
  - destruct (expand _ _ _ _ _ _); discriminate.
Qed.

(** Going round: the selected key moves from the open to the closed set,
    which keeps all its keys, and the two sets stay apart. *)
Lemma step_separated (self : t) (ngoal : Node.t) (st st' : state) :
  separated st ->
  step self ngoal st = Return (Continue st') ->
  separated st' /\
  exists c_id current,
    min_cost (openset st) = Return c_id /\
    get (openset st) c_id = Some current /\
    ~ In c_id (keys (closedset st)) /\
    closedset st' = closedset st ++ [(c_id, current)].
Proof.
  intros (Hno & Hnc & Hdis) H.
  destruct (step_cases self ngoal st Hno)
    as [[Hnil Hs]|(c_id & current & Hmin & Hg & _ & [(_ & _ & Hs)|(_ & Hs)])];
    rewrite Hs in H; try discriminate.
  destruct (expand _ _ _ _ _ _) as [os| |] eqn:E; simpl in H; try discriminate.
  injection H as <-.
  assert (Hnew : ~ In c_id (keys (closedset st))).
  { apply Hdis. eapply get_keys; eauto. }
  apply expand_separated in E.
  - destruct E as [Hnd' Hdis']. split.
    + repeat split; simpl; [assumption|now apply NoDup_set|assumption].
    + exists c_id, current. repeat split; try assumption.
      simpl. now apply set_new.
  - now apply NoDup_del.
  - intros k Hin. rewrite keys_set.
    assert (Hk : k <> c_id).
    { intros ->. apply keys_get in Hin as [v Hv].
      rewrite get_del_same in Hv by assumption. discriminate. }
    apply keys_del_incl in Hin. apply Hdis in Hin.
    destruct (mem c_id (closedset st)); [assumption|].
    intro Hin'. apply in_app_or in Hin' as [Hin'|[Heq|[]]]; [tauto|congruence].
Qed.

Section Sound.
Variables (self : t) (nstart ngoal : Node.t).
Hypothesis Hwf : well_formed self.

Lemma step_invariant (st st' : state) :
  invariant self nstart st ->
  step self ngoal st = Return (Continue st') ->
  invariant self nstart st'.
Proof.
  intros (Hsep & Hopen & Hclosed) H.
  destruct (step_separated _ _ _ _ Hsep H)
    as (Hsep' & c_id & current & Hmin & Hg & Hnew & Hcl).
  split; [assumption|].
  destruct Hsep as (Hno & Hnc & Hdis).
  destruct (step_cases self ngoal st Hno)
    as [[Hnil Hs]|(c_id' & current' & Hmin' & Hg' & _ & [(_ & _ & Hs)|(_ & Hs)])];
    rewrite Hs in H; try discriminate.
  assert (c_id' = c_id) by congruence. subst c_id'.
  assert (current' = current) by congruence. subst current'.
  destruct (expand _ _ _ _ _ _) as [os| |] eqn:E; simpl in H; try discriminate.
  injection H as <-. simpl in *.
  pose proof (Hopen _ _ Hg) as Hcur.
  assert (Hcid : c_id = calc_index self current) by apply Hcur.
  assert (Hclosed' : forall k n, get (set (closedset st) c_id current) k = Some n ->
             sound self nstart (set (closedset st) c_id current) k n).
  { intros k n. destruct (Z.eq_dec k c_id) as [->|Hne].
    - rewrite get_set_same. intros [= <-]. now apply sound_grow.
    - rewrite get_set_other by assumption. intro Hk.
      apply sound_grow; auto. }
  split; [|assumption].
  subst c_id.
  refine (expand_sound self nstart Hwf current _ _ _ _ _ _ _ _ _ E).
  - apply get_set_same.
  - apply Hclosed'. apply get_set_same.
  - rewrite length_set_new by assumption.
    destruct Hcur as (_ & Hmv & _). lia.
  - apply incl_refl.
  - intros k n Hk. apply sound_grow; [assumption|]. apply Hopen.
    destruct (Z.eq_dec k (calc_index self current)) as [->|Hne].
    + rewrite get_del_same in Hk by assumption. discriminate.
    + rewrite get_del_other in Hk by assumption. assumption.
Qed.

(** The invariant holds when the loop is entered. *)
Lemma initial_invariant :
  Node.cost nstart = Cost.zero -> invariant self nstart (initial self nstart).
Proof.
  intro Hc. unfold initial, invariant, separated. simpl.
  split; [|split].
  - split; [|split].
    + constructor; [simpl; tauto|constructor].
    + constructor.
    + tauto.
  - intros k n. destruct (_ =? k) eqn:E; [|discriminate].
    intros [= <-]. apply Z.eqb_eq in E. subst k.
    split; [reflexivity|]. rewrite Hc.
    split; [unfold moves; simpl; lia|]. split; [constructor|now left].
  - discriminate.
Qed.

Lemma iterates_invariant (st st' : state) :
  invariant self nstart st -> iterates self ngoal st st' ->
  invariant self nstart st'.
Proof.
  intros Hinv Hit. induction Hit; [assumption|].
  eapply step_invariant; eauto.
Qed.

End Sound.
End LoopFacts.

(** ** Whole runs of the loop *)

Module RunFacts.
Import Py PyFacts NumFacts DictFacts VerifyFacts SelectFacts StepFacts LoopFacts.
Import GraphSearch Search Spec Invariant.

Lemma In_range (n i : Z) : In i (range n) <-> 0 <= i < n.
Proof.
  unfold range. rewrite in_map_iff. split.
  - intros (j & <- & Hj). apply in_seq in Hj. lia.
  - intro H. exists (Z.to_nat i). split; [lia|]. apply in_seq. lia.
Qed.

Lemma iterates_first (self : t) (ngoal : Node.t) (st st1 st2 : state) :
  step self ngoal st = Return (Continue st1) ->
  iterates self ngoal st1 st2 -> iterates self ngoal st st2.
Proof.
  intros Hs Hit. induction Hit.
  - eapply iter_next; [apply iter_here|assumption].
  - eapply iter_next; eauto.
Qed.

Lemma iterates_trans (self : t) (ngoal : Node.t) (st st1 st2 : state) :
  iterates self ngoal st st1 -> iterates self ngoal st1 st2 ->
  iterates self ngoal st st2.
Proof.
  intros H1 H2. induction H2; [assumption|]. eapply iter_next; eauto.
Qed.

(** What the loop returns is what its body does in some later state. *)
Lemma loop_spec (self : t) (ngoal : Node.t) (fuel : nat) :
  forall st,
    loop fuel self ngoal st = OutOfFuel \/
    exists st1,
      iterates self ngoal st st1 /\
      ((exists ngoal' st2,
          step self ngoal st1 = Return (Break ngoal' st2) /\
          loop fuel self ngoal st = Return (ngoal', st2)) \/
       (exists e,
          step self ngoal st1 = Raise e /\
          loop fuel self ngoal st = Raise e)).
Proof.
  induction fuel as [|fuel IH]; intro st; simpl; [now left|].
  destruct (step self ngoal st) as [[ng st2|st1]|e|] eqn:Hs; simpl.
  - right. exists st. split; [constructor|]. left. eauto.
  - destruct (IH st1) as [->|(st' & Hit & Hr)]; [now left|right].
    exists st'. split; [eapply iterates_first; eauto|]. assumption.
  - right. exists st. split; [constructor|]. right. eauto.
  - now left.
Qed.

Lemma separated_initial (self : t) (nstart : Node.t) :
  separated (initial self nstart).
Proof.
  unfold separated, initial. simpl. split; [|split].
  - constructor; [simpl; tauto|constructor].
  - constructor.
  - tauto.
Qed.

Lemma iterates_separated (self : t) (ngoal : Node.t) (st st' : state) :
  separated st -> iterates self ngoal st st' -> separated st'.
Proof.
  intros Hsep Hit. induction Hit; [assumption|].
  eapply step_separated; eauto.
Qed.

(** The closed set only grows. *)
Lemma iterates_closed (self : t) (ngoal : Node.t) (st st' : state) :
  separated st -> iterates self ngoal st st' ->
  exists l, closedset st' = closedset st ++ l.
Proof.
  intros Hsep Hit. induction Hit.
  - exists []. now rewrite app_nil_r.
  - destruct IHHit as [l Hl].
    pose proof (iterates_separated _ _ _ _ Hsep Hit) as Hsep1.
    destruct (step_separated _ _ _ _ Hsep1 H) as (_ & c & cur & _ & _ & _ & Hc).
    exists (l ++ [(c, cur)]). rewrite Hc, Hl. now rewrite app_assoc.
Qed.

Section Sound.
Variables (self : t) (nstart ngoal : Node.t).
Hypothesis Hwf : well_formed self.

(** A sound node is the start node or sits on a free cell of the array. *)
Lemma sound_cell (closed : dict Node.t) (k : Z) (n : Node.t) :
  sound self nstart closed k n ->
  (Node.x n = Node.x nstart /\ Node.y n = Node.y nstart) \/
  (free self (Node.x n) (Node.y n) /\ in_array self (Node.x n) (Node.y n)).
Proof.
  intros (_ & _ & _ & [->|(Hv & _)]); [now left|right].
  split; [exact Hv|]. now apply verify_node_true in Hv.
Qed.

(** The closed set holds at most the start cell and the cells of the grid. *)
Lemma closed_count (st : state) :
  invariant self nstart st ->
  (length (closedset st) <= S (cell_count self))%nat.
Proof.
  intros ((_ & Hnd & _) & _ & Hclosed).
  set (coords := fun e : Z * Node.t => (Node.x (snd e), Node.y (snd e))).
  set (cells := (Node.x nstart, Node.y nstart) ::
                list_prod (range (xwidth self)) (range (ywidth self))).
  assert (Hlen : length cells = S (cell_count self)).
  { unfold cells, cell_count. simpl. now rewrite length_prod, !length_range. }
  rewrite <- Hlen, <- (length_map coords).
  assert (Hin : forall e, In e (closedset st) ->
                 sound self nstart (closedset st) (fst e) (snd e)).
  { intros [k n] Hin. apply Hclosed. now apply In_get. }
  apply NoDup_incl_length.
  - apply (NoDup_map_inv (fun c => (snd c - miny self) * xwidth self
                                   + (fst c - minx self))).
    rewrite map_map. unfold keys in Hnd.
    erewrite map_ext_in; [exact Hnd|].
    intros e He. symmetry. apply (Hin e He).
  - intros c Hc. apply in_map_iff in Hc as (e & <- & He).
    destruct (sound_cell _ _ _ (Hin e He)) as [[Hx Hy]|[_ [Hx Hy]]].
    + left. unfold coords. now rewrite Hx, Hy.
    + right. apply in_prod; now apply In_range.
Qed.

(** With fuel for one iteration per cell and two more, the loop ends. *)
Lemma loop_terminates (fuel : nat) :
  forall st,
    invariant self nstart st ->
    (S (cell_count self) - length (closedset st) < fuel)%nat ->
    loop fuel self ngoal st <> OutOfFuel.
Proof.
  induction fuel as [|fuel IH]; intros st Hinv Hfuel; [lia|]. simpl.
  destruct (step self ngoal st) as [[ng st2|st1]|e|] eqn:Hs; simpl;
    try discriminate.
  - pose proof (step_invariant self nstart ngoal Hwf _ _ Hinv Hs) as Hinv1.
    destruct Hinv as (Hsep & _).
    destruct (step_separated _ _ _ _ Hsep Hs) as (_ & c & cur & _ & _ & _ & Hc).
    pose proof (closed_count _ Hinv1) as Hcount.
    rewrite Hc, length_app in Hcount. cbn [length] in Hcount.
    apply IH; [assumption|]. rewrite Hc, length_app. cbn [length]. lia.
  - exfalso. eapply step_fuel; [|exact Hs]. apply Hinv.
Qed.

End Sound.
End RunFacts.

(** ** Path reconstruction and [planning] as a whole *)

Module PathFacts.
Import Py PyFacts NumFacts DictFacts VerifyFacts SelectFacts StepFacts LoopFacts.
Import RunFacts GraphSearch Search Spec Invariant.


(** [calc_final_path] lists the positions of the goal node and of its
    ancestors. *)
Lemma final_path_ancestors (self : t) (closed : dict Node.t) (fuel : nat) :
  forall pind rx ry,
    final_path_loop fuel self closed pind rx ry =
    (ns <- ancestors fuel closed pind ;;
     Return (rx ++ map (fun n => calc_position self (Node.x n) (minx self)) ns,
             ry ++ map (fun n => calc_position self (Node.y n) (miny self)) ns)).
Proof.
  induction fuel as [|fuel IH]; intros pind rx ry; simpl.
  - destruct (pind =? -1); simpl; [now rewrite !app_nil_r|reflexivity].
  - destruct (pind =? -1); simpl; [now rewrite !app_nil_r|].
    destruct (lookup closed pind) as [n| |]; simpl; try reflexivity.
    rewrite IH. destruct (ancestors fuel closed (Node.pind n)); simpl;
      try reflexivity.
    now rewrite <- !app_assoc.
Qed.

Lemma combine_map_waypoint (self : t) (ns : list Node.t) :
  combine (map (fun n => calc_position self (Node.x n) (minx self)) ns)
          (map (fun n => calc_position self (Node.y n) (miny self)) ns)
  = map (node_waypoint self) ns.
Proof. induction ns as [|n ns IH]; simpl; [reflexivity|now rewrite IH]. Qed.

Lemma calc_final_path_spec (self : t) (closed : dict Node.t) (fuel : nat)
    (ng : Node.t) (rx ry : list Q) :
  calc_final_path fuel self ng closed = Return (rx, ry) ->
  exists ns,
    ancestors fuel closed (Node.pind ng) = Return ns /\
    length rx = length ry /\
    combine rx ry = map (node_waypoint self) (ng :: ns).
Proof.
  unfold calc_final_path. rewrite final_path_ancestors.
  destruct (ancestors fuel closed (Node.pind ng)) as [ns| |]; simpl;
    try discriminate.
  intros [= <- <-]. exists ns. split; [reflexivity|]. split.
  - simpl. now rewrite !length_map.
  - simpl. now rewrite combine_map_waypoint.
Qed.

(** With a resolution that is not zero, the query nodes are built. *)
Lemma query_node_cell_of (self : t) (px py : Q) :
  (0 < reso self)%Q -> query_node self px py = Return (cell_of self px py).
Proof.
  intro Hr. unfold query_node, calc_xyindex.
  destruct (Qeq_bool (reso self) 0) eqn:E; [|reflexivity].
  apply Qeq_bool_iff in E. qlra.
Qed.

Lemma planning_unfold (fuel : nat) (self : t) (sx sy gx gy : Q) :
  (0 < reso self)%Q ->
  planning fuel self sx sy gx gy =
  (r <- loop fuel self (cell_of self gx gy) (initial self (cell_of self sx sy)) ;;
   p <- calc_final_path fuel self (fst r) (closedset (snd r)) ;;
   Return (fst p, snd p, expansion (snd r))).
Proof.
  intro Hr. unfold planning. rewrite !query_node_cell_of by assumption. simpl.
  destruct (loop _ _ _ _) as [[ng st]| |]; reflexivity.
Qed.

Section Sound.
Variables (self : t) (nstart : Node.t) (closed : dict Node.t).
Hypothesis Hwf : well_formed self.
Hypothesis Hstart : Node.pind nstart = -1.
Hypothesis Hclosed :
  forall k n, get closed k = Some n -> sound self nstart closed k n.

(** The parent chain of a sound node ends within as many steps as the
    node is moves away from the start, and stays in the closed set. *)
Lemma ancestors_terminate (fuel : nat) :
  forall k n,
    sound self nstart closed k n ->
    moves (Node.cost n) < Z.of_nat fuel ->
    exists ns,
      ancestors fuel closed (Node.pind n) = Return ns /\
      Forall (fun a => exists ka, get closed ka = Some a) ns.
Proof.
  induction fuel as [|fuel IH]; intros k n Hn Hfuel.
  - destruct Hn as (_ & Hmv & _). lia.
  - simpl. destruct (Node.pind n =? -1) eqn:E; [exists []; auto|].
    destruct Hn as (_ & Hmv & _ & [->|(_ & p & m & Hm & Hp & ->)]).
    { rewrite Hstart in E. discriminate. }
    destruct m as [[dx dy] c]. simpl in *. unfold lookup. rewrite Hp. simpl.
    pose proof (motion_moves self Hwf _ Hm) as H1. simpl in H1.
    destruct (IH _ p (Hclosed _ _ Hp)) as (ns & -> & Hns).
    { unfold moves in *. simpl in *. lia. }
    simpl. exists (p :: ns). split; [reflexivity|]. constructor; eauto.
Qed.



End Sound.
End PathFacts.

(** ** What a call of [planning] amounts to *)

Module PlanningFacts.
Import Py PyFacts NumFacts DictFacts VerifyFacts SelectFacts StepFacts LoopFacts.
Import RunFacts PathFacts GraphSearch Search Spec Invariant.

(** Inside the array every lookup in [obmap] succeeds. *)
Lemma obmap_at_in_array (self : t) (x y : Z) :
  well_formed self -> in_array self x y ->
  exists b, obmap_at self x y = Return b.
Proof.
  intros (_ & _ & Hlen & Hrows) [Hx Hy]. unfold obmap_at.
  destruct (nth_error (obmap self) (Z.to_nat x)) as [row|] eqn:Hrow.
  2:{ apply nth_error_None in Hrow. lia. }
  rewrite (index_in_range _ _ _ (proj1 Hx) Hrow). simpl.
  rewrite Forall_forall in Hrows.
  pose proof (Hrows _ (nth_error_In _ _ Hrow)) as Hl.
  destruct (nth_error row (Z.to_nat y)) as [b|] eqn:Hb.
  2:{ apply nth_error_None in Hb. lia. }
  exists b. apply index_in_range; [lia|assumption].
Qed.

(** On an index-safe grid [verify_node] raises nothing. *)
Lemma verify_node_safe (self : t) (n : Node.t) :
  well_formed self -> index_safe self ->
  exists b, verify_node self n = Return b.
Proof.
  intros Hwf Hsafe. rewrite verify_node_unfold.
  destruct (position_ok self (Node.x n) (Node.y n)) eqn:Hp; [|eauto].
  destruct (obmap_at_in_array self _ _ Hwf (Hsafe _ _ Hp)) as [b ->].
  simpl. eauto.
Qed.

(** An exception of the [for] loop comes out of [verify_node]. *)
Lemma expand_raise_verify (self : t) (current : Node.t) (c_id : Z)
    (closed : dict Node.t) (ms : list motion_t) :
  forall os e,
    expand self current c_id closed ms os = Raise e ->
    exists n, verify_node self n = Raise e.
Proof.
  induction ms as [|m ms IH]; intros os e; simpl; [discriminate|].
  destruct (mem _ closed); [apply IH|].
  destruct (verify_node self (neighbour current c_id m)) as [b|e'|] eqn:Hv;
    simpl; [|intros [= <-]; eauto|discriminate].
  destruct b; simpl; [|apply IH].
  destruct (mem _ os) eqn:Hm; simpl; [|apply IH].
  unfold lookup. apply mem_get in Hm as [old ->]. simpl.
  destruct (Cost.gtb _ _); apply IH.
Qed.

Lemma step_raise_safe (self : t) (ngoal : Node.t) (st : state) (e : exn) :
  well_formed self -> index_safe self ->
  NoDup (keys (openset st)) -> step self ngoal st = Raise e ->
  e = ValueError /\ openset st = [].
Proof.
  intros Hwf Hsafe Hnd H.
  destruct (step_cases self ngoal st Hnd)
    as [[Hnil Hs]|(c_id & current & _ & _ & _ & [(_ & _ & Hs)|(_ & Hs)])];
    rewrite Hs in H; try discriminate.
  - split; congruence.
  - destruct (expand _ _ _ _ _ _) eqn:E; simpl in H; try discriminate.
    injection H as <-. apply expand_raise_verify in E as [n Hn].
    destruct (verify_node_safe self n Hwf Hsafe) as [b Hb]. congruence.
Qed.

Section Query.
Variables (self : t) (sx sy gx gy : Q).
Hypothesis Hwf : well_formed self.

Let nstart := cell_of self sx sy.
Let ngoal := cell_of self gx gy.

Lemma reso_positive : (0 < reso self)%Q.
Proof. apply Hwf. Qed.

(** The states that the loop of a query goes through satisfy the
    invariant. *)
Lemma query_invariant (st : state) :
  iterates self ngoal (initial self nstart) st -> invariant self nstart st.
Proof.
  apply iterates_invariant; [assumption|].
  now apply initial_invariant.
Qed.

(** A call that returns has found a node of the open set on the goal
    cell, and its waypoints are those of this node and of its ancestors. *)
Lemma planning_found (fuel : nat) (rx ry : list Q) (ex : list (Q * Q)) :
  planning fuel self sx sy gx gy = Return (rx, ry, ex) ->
  exists st c_id current ns,
    iterates self ngoal (initial self nstart) st /\
    get (openset st) c_id = Some current /\
    (forall k' n', get (openset st) k' = Some n' ->
       (Cost.val (Node.cost current) <= Cost.val (Node.cost n'))%R) /\
    Node.x current = Node.x ngoal /\ Node.y current = Node.y ngoal /\
    ancestors fuel (closedset st) (Node.pind current) = Return ns /\
    length rx = length ry /\
    combine rx ry = map (node_waypoint self) (current :: ns).
Proof.
  rewrite planning_unfold by apply reso_positive. fold nstart ngoal.
  destruct (loop_spec self ngoal fuel (initial self nstart))
    as [->|(st & Hit & [(ng & st2 & Hs & ->)|(e & _ & ->)])]; simpl;
    try discriminate.
  destruct (calc_final_path fuel self ng (closedset st2)) as [[rx' ry']| |]
    eqn:Hp; simpl; try discriminate.
  intros [= <- <- <-].
  pose proof (query_invariant st Hit) as ((Hnd & _) & _).
  destruct (step_break _ _ _ _ _ Hnd Hs)
    as (Hcl & c_id & current & Hg & Hmin & Hx & Hy & ->).
  apply calc_final_path_spec in Hp as (ns & Ha & Hlen & Hc). simpl in Ha.
  exists st, c_id, current, ns. rewrite <- Hcl.
  repeat split; try assumption.
  rewrite Hc. simpl. unfold node_waypoint at 1 3. simpl. now rewrite Hx, Hy.
Qed.

(** With fuel for every cell the call either returns or raises what the
    body of the loop raised in some state. *)
Lemma planning_total (fuel : nat) :
  (cell_count self + 2 <= fuel)%nat ->
  (exists r, planning fuel self sx sy gx gy = Return r) \/
  (exists e st,
     planning fuel self sx sy gx gy = Raise e /\
     iterates self ngoal (initial self nstart) st /\
     step self ngoal st = Raise e).
Proof.
  intro Hfuel. rewrite planning_unfold by apply reso_positive.
  fold nstart ngoal.
  pose proof (loop_terminates self nstart ngoal Hwf fuel (initial self nstart)
                (initial_invariant self nstart eq_refl)) as Hterm.
  destruct (loop_spec self ngoal fuel (initial self nstart))
    as [Hout|(st & Hit & [(ng & st2 & Hs & ->)|(e & Hs & ->)])]; simpl.
  - exfalso. apply Hterm; [simpl; lia|assumption].
  - left.
    pose proof (query_invariant st Hit) as (Hsep & Hopen & Hclosed).
    destruct (step_break _ _ _ _ _ (proj1 Hsep) Hs)
      as (Hcl & c_id & current & Hg & _ & _ & _ & ->).
    pose proof (closed_count self nstart Hwf st (conj Hsep (conj Hopen Hclosed)))
      as Hcount.
    destruct (ancestors_terminate self nstart (closedset st) Hwf eq_refl Hclosed
                fuel c_id current (Hopen _ _ Hg)) as (ns & Ha & _).
    { destruct (Hopen _ _ Hg) as (_ & Hmv & _). lia. }
    unfold calc_final_path. rewrite final_path_ancestors, Hcl. simpl.
    rewrite Ha. simpl. eauto.
  - right. eauto.
Qed.


End Query.
End PlanningFacts.

(* ===================================================================== *)
(** * The claims of the specification *)
(* ===================================================================== *)

Module GridClaims.
Import Py PyFacts NumFacts DictFacts GridFacts VerifyFacts SelectFacts.
Import StepFacts LoopFacts RunFacts PathFacts PlanningFacts.
Import GraphSearch Search Spec Invariant Examples.

(** *** The occupancy grid *)

(** C10, the defect.  On the planner built from the obstacle points
    [(0, 0)] and [(12, 12)] at resolution [5], whose array is [2 x 2],
    the cell [(2, 0)] passes the four positional tests of [verify_node]
    (its position [10] is below [maxx = 12]), lies outside the array, and
    [obmap[2][0]] raises [IndexError]; a query that starts on cell
    [(1, 0)] runs into it. *)
Theorem verify_node_faults_beyond_rounded_width :
  init coarse_ox coarse_oy 5 1 = Return coarse /\
  position_ok coarse 2 0 = true /\
  ~ in_array coarse 2 0 /\
  verify_node coarse (cell_node 2 0) = Raise IndexError /\
  planning 20 coarse 5 0 0 5 = Raise IndexError.
Proof.
  split; [reflexivity|]. split; [reflexivity|]. split.
  - unfold in_array. simpl. lia.
  - split; reflexivity.
Qed.

End GridClaims.

(** ** Facts shared by the claims on [planning] *)

Module QueryFacts.
Import Py PyFacts NumFacts DictFacts GridFacts VerifyFacts SelectFacts.
Import StepFacts LoopFacts RunFacts PathFacts PlanningFacts.
Import GraphSearch Search Spec Invariant Examples.

(** A reachable cell is the start cell or a free cell. *)
Lemma reachable_cases (self : t) (sx sy x y : Z) :
  reachable self sx sy x y -> (x = sx /\ y = sy) \/ free self x y.
Proof. intros [|x' y' m _ _ Hf]; auto. Qed.

(** A sound node sits on a free cell of the array, if the start does. *)
Lemma sound_free (self : t) (nstart : Node.t) (closed : dict Node.t)
    (k : Z) (n : Node.t) :
  well_formed self ->
  free self (Node.x nstart) (Node.y nstart) ->
  sound self nstart closed k n ->
  in_array self (Node.x n) (Node.y n) /\
  position_ok self (Node.x n) (Node.y n) = true /\
  obmap_at self (Node.x n) (Node.y n) = Return false.
Proof.
  intros Hwf Hs (_ & _ & _ & [->|(Hv & _)]).
  - apply (verify_node_true self _ Hwf Hs).
  - now apply verify_node_true.
Qed.





End QueryFacts.

(** ** The claims on [planning] *)

Module SearchClaims.
Import Py PyFacts NumFacts DictFacts GridFacts VerifyFacts SelectFacts.
Import StepFacts LoopFacts RunFacts PathFacts PlanningFacts QueryFacts.
Import GraphSearch Search Spec Invariant Examples.

(** C8.  In every state in which the loop of a query is at the top of
    its body, no key is in both the open and the closed set, and the
    same holds inside the body after any number of passes of the [for]
    loop over the motion model; a key of the closed set stays in it in
    every later state, where it is neither in the open set nor the key
    selected for expansion. *)
Theorem open_and_closed_sets_stay_apart
    (self : t) (nstart ngoal : Node.t) (st : state) :
  iterates self ngoal (initial self nstart) st ->
  (forall k, In k (keys (openset st)) -> ~ In k (keys (closedset st))) /\
  (forall c_id current i os,
     min_cost (openset st) = Return c_id ->
     get (openset st) c_id = Some current ->
     expand self current c_id (Py.set (closedset st) c_id current)
            (firstn i (motion self)) (del (openset st) c_id) = Return os ->
     forall k, In k (keys os) ->
               ~ In k (keys (Py.set (closedset st) c_id current))) /\
  (forall st', iterates self ngoal st st' ->
     forall k, In k (keys (closedset st)) ->
       In k (keys (closedset st')) /\
       ~ In k (keys (openset st')) /\
       min_cost (openset st') <> Return k).
Proof.
  intro Hit.
  pose proof (iterates_separated _ _ _ _ (separated_initial self nstart) Hit)
    as Hsep.
  split; [apply Hsep|]. split.
  - destruct Hsep as (Hno & Hnc & Hdis).
    intros c_id current i os Hmin Hg He.
    apply expand_separated in He; [apply He|now apply NoDup_del|].
    intros k Hin. rewrite keys_set.
    assert (Hk : k <> c_id).
    { intros ->. apply keys_get in Hin as [v Hv].
      rewrite get_del_same in Hv by assumption. discriminate. }
    apply keys_del_incl in Hin. apply Hdis in Hin.
    destruct (mem c_id (closedset st)); [assumption|].
    intro Hin'. apply in_app_or in Hin' as [Hin'|[Heq|[]]]; [tauto|congruence].
  - intros st' Hit' k Hk.
    pose proof (iterates_separated _ _ _ _ Hsep Hit') as (Hno & _ & Hdis).
    destruct (iterates_closed _ _ _ _ Hsep Hit') as [l Hl].
    assert (Hk' : In k (keys (closedset st'))).
    { rewrite Hl. unfold keys. rewrite map_app. apply in_or_app. now left. }
    split; [assumption|]. split.
    + intro Hin. exact (Hdis _ Hin Hk').
    + intro Hmin. destruct (min_cost_get _ _ Hno Hmin) as (n & Hg & _).
      apply get_keys in Hg. exact (Hdis _ Hg Hk').
Qed.

Lemma open_and_closed_sets_stay_apart_witness :
  iterates walled (cell_node 0 2) (initial walled (cell_node 0 0))
           walled_second /\
  (forall k, In k (keys (openset walled_second)) ->
             ~ In k (keys (closedset walled_second))).
Proof.
  assert (Hit : iterates walled (cell_node 0 2)
                  (initial walled (cell_node 0 0)) walled_second).
  { eapply iter_next; [apply iter_here|reflexivity]. }
  split; [exact Hit|].
  exact (proj1 (open_and_closed_sets_stay_apart _ _ _ _ Hit)).
Defined.












End SearchClaims.

(** ** Costs of paths *)

Module CostFacts.
Import Py PyFacts NumFacts DictFacts GridFacts VerifyFacts SelectFacts.
Import StepFacts LoopFacts RunFacts PathFacts PlanningFacts QueryFacts.
Import GraphSearch Search Spec Invariant Examples.

(** Every move of the motion model costs at least one. *)
Lemma motion_cost_ge_1 (m : motion_t) :
  In m get_motion_model -> (1 <= Cost.val (snd m))%R.
Proof.
  pose proof sqrt2_sq as Hs. pose proof sqrt2_pos as Hp.
  assert (H1 : (1 <= sqrt 2)%R) by rnra.
  unfold get_motion_model. simpl. intro H.
  repeat (destruct H as [<-|H];
          [simpl; rewrite ?val_one, ?val_sqrt2; rlra|]).
  contradiction.
Qed.

Lemma val_moves_cost_app (l1 l2 : list motion_t) :
  Cost.val (moves_cost (l1 ++ l2))
  = (Cost.val (moves_cost l1) + Cost.val (moves_cost l2))%R.
Proof.
  induction l1 as [|m l1 IH]; simpl.
  - rewrite val_zero. rlra.
  - rewrite !val_add, IH. rlra.
Qed.

(** A path of [n] moves costs at least [n]. *)
Lemma grid_path_cost (self : t) (x y x' y' : Z) (ms : list motion_t) :
  motion self = get_motion_model ->
  grid_path self x y ms x' y' ->
  (INR (length ms) <= Cost.val (moves_cost ms))%R.
Proof.
  intros Hm H. induction H as [x y|x y m ms x' y' Hin Hf Hp IH].
  - simpl. rewrite val_zero. rlra.
  - rewrite Hm in Hin. apply motion_cost_ge_1 in Hin.
    change (length (m :: ms)) with (S (length ms)). rewrite S_INR.
    simpl. rewrite val_add. rlra.
Qed.

Lemma grid_path_nonneg (self : t) (x y x' y' : Z) (ms : list motion_t) :
  motion self = get_motion_model ->
  grid_path self x y ms x' y' -> (0 <= Cost.val (moves_cost ms))%R.
Proof.
  intros Hm H. pose proof (grid_path_cost _ _ _ _ _ _ Hm H).
  pose proof (pos_INR (length ms)). rlra.
Qed.

(** A path between two different cells costs at least one. *)
Lemma grid_path_distinct (self : t) (x y x' y' : Z) (ms : list motion_t) :
  motion self = get_motion_model ->
  grid_path self x y ms x' y' -> (x, y) <> (x', y') ->
  (1 <= Cost.val (moves_cost ms))%R.
Proof.
  intros Hm H Hne. pose proof (grid_path_cost _ _ _ _ _ _ Hm H) as Hc.
  destruct H as [x y|x y m ms x' y' Hin Hf Hp]; [congruence|].
  change (length (m :: ms)) with (S (length ms)) in Hc. rewrite S_INR in Hc.
  pose proof (pos_INR (length ms)). rlra.
Qed.

End CostFacts.

(** ** The claim on the cost of the path *)

Module CostClaims.
Import Py PyFacts NumFacts DictFacts GridFacts VerifyFacts SelectFacts.
Import StepFacts LoopFacts RunFacts PathFacts PlanningFacts QueryFacts CostFacts.
Import GraphSearch Search Spec Invariant Examples.

(** C1, the defect.  On the planner built from the obstacle points
    [(1, 3)], [(4, 1)], [(2, 0)] at resolution [1], the start point
    [(1, 0)] maps to the free cell [(0, 0)], whose linear index is
    [-1], the value of [pind] that means "no parent"; the goal point
    [(2, 1)] maps to the free cell [(1, 1)], one diagonal move away.
    The call returns the goal waypoint alone: the start is missing from
    the path, whose cost as a sequence of waypoints is [0], while every
    grid path from the start cell to the goal cell costs at least [1]
    (and the diagonal move is one that costs [sqrt 2]). *)
Theorem shifted_path_drops_the_start :
  init shifted_ox shifted_oy 1 (1 # 2) = Return shifted /\
  cell_of shifted 1 0 = cell_node 0 0 /\
  cell_of shifted 2 1 = cell_node 1 1 /\
  free shifted 0 0 /\ free shifted 1 1 /\
  calc_index shifted (cell_node 0 0) = -1 /\
  planning 20 shifted 1 0 2 1
    = Return ([2]%Q, [1]%Q, [(1, 0); (1, 1); (2, 1)]%Q) /\
  Cost.val (waypoints_cost (combine [2]%Q [1]%Q)) = 0%R /\
  grid_path shifted 0 0 [(1, 1, Cost.sqrt2)] 1 1 /\
  Cost.val (moves_cost [(1, 1, Cost.sqrt2)]) = sqrt 2 /\
  (forall ms, grid_path shifted 0 0 ms 1 1 ->
              (1 <= Cost.val (moves_cost ms))%R).
Proof.
  split; [reflexivity|]. split; [reflexivity|]. split; [reflexivity|].
  split; [reflexivity|]. split; [reflexivity|]. split; [reflexivity|].
  split; [reflexivity|]. split; [simpl; apply val_zero|]. split.
  - apply path_move; [simpl; tauto|reflexivity|apply path_stay].
  - split.
    + simpl. rewrite val_add, val_sqrt2, val_zero. rlra.
    + intros ms H. apply (grid_path_distinct shifted 0 0 1 1 ms eq_refl H).
      discriminate.
Qed.

End CostClaims.

(** ** Dijkstra's invariant *)

Module OptimalFacts.
Import Py PyFacts NumFacts DictFacts GridFacts VerifyFacts SelectFacts.
Import StepFacts LoopFacts RunFacts PathFacts PlanningFacts QueryFacts CostFacts.
Import GraphSearch Search Spec Invariant.

Lemma neighbour_cost (current : Node.t) (c_id : Z) (m : motion_t) :
  Node.cost (neighbour current c_id m) = Cost.add (Node.cost current) (snd m).
Proof. destruct m as [[dx dy] c]. reflexivity. Qed.

Lemma neighbour_x (current : Node.t) (c_id : Z) (m : motion_t) :
  Node.x (neighbour current c_id m) = Node.x current + fst (fst m).
Proof. destruct m as [[dx dy] c]. reflexivity. Qed.

Lemma neighbour_y (current : Node.t) (c_id : Z) (m : motion_t) :
  Node.y (neighbour current c_id m) = Node.y current + snd (fst m).
Proof. destruct m as [[dx dy] c]. reflexivity. Qed.

(** The [for] loop removes no item of the open set and raises no cost. *)
Lemma expand_keeps (self : t) (current : Node.t) (c_id : Z)
    (closed : dict Node.t) (ms : list motion_t) :
  forall os os',
    expand self current c_id closed ms os = Return os' ->
    forall k n, get os k = Some n ->
      exists n', get os' k = Some n' /\
                 (Cost.val (Node.cost n') <= Cost.val (Node.cost n))%R.
Proof.
  induction ms as [|m ms IH]; intros os os'; simpl.
  - intros [= <-] k n Hk. exists n. split; [assumption|rlra].
  - destruct (mem _ closed); [apply IH|].
    destruct (verify_node self _) as [[|]| |]; simpl; try discriminate;
      [|apply IH].
    set (node := neighbour current c_id m).
    destruct (mem _ os) eqn:Hm; simpl.
    + unfold lookup. destruct (mem_get _ _ Hm) as [old Hold]. rewrite Hold.
      simpl. destruct (Cost.gtb _ _) eqn:Hgt; [|apply IH].
      apply ltb_spec in Hgt. intros He k n Hk.
      destruct (Z.eq_dec k (calc_index self node)) as [->|Hne].
      * assert (n = old) by congruence. subst n.
        destruct (IH _ _ He _ node (get_set_same _ _ _)) as (n' & Hn' & Hle).
        exists n'. split; [assumption|rlra].
      * apply (IH _ _ He). now rewrite get_set_other.
    + intros He k n Hk. apply (IH _ _ He).
      rewrite get_set_other; [assumption|].
      intros ->. apply mem_false in Hm. apply Hm. eapply get_keys; eauto.
Qed.

(** After the [for] loop every verified neighbour that is not closed is
    in the open set, at no more than the cost through [current]. *)
Lemma expand_reaches (self : t) (current : Node.t) (c_id : Z)
    (closed : dict Node.t) (ms : list motion_t) :
  forall os os',
    expand self current c_id closed ms os = Return os' ->
    forall m,
      In m ms ->
      verify_node self (neighbour current c_id m) = Return true ->
      mem (calc_index self (neighbour current c_id m)) closed = false ->
      exists n',
        get os' (calc_index self (neighbour current c_id m)) = Some n' /\
        (Cost.val (Node.cost n')
         <= Cost.val (Node.cost current) + Cost.val (snd m))%R.
Proof.
  induction ms as [|m0 ms IH]; intros os os' He m Hin Hv Hc; [contradiction|].
  destruct Hin as [->|Hin].
  - simpl in He. rewrite Hc, Hv in He. simpl in He.
    set (node := neighbour current c_id m) in *.
    assert (Hnode : Cost.val (Node.cost node)
                    = (Cost.val (Node.cost current) + Cost.val (snd m))%R).
    { unfold node. now rewrite neighbour_cost, val_add. }
    rewrite <- Hnode.
    destruct (mem _ os) eqn:Hm; simpl in He.
    + unfold lookup in He. destruct (mem_get _ _ Hm) as [old Hold].
      rewrite Hold in He. simpl in He.
      destruct (Cost.gtb _ _) eqn:Hgt.
      * exact (expand_keeps _ _ _ _ _ _ _ He _ _ (get_set_same _ _ _)).
      * apply ltb_false in Hgt.
        destruct (expand_keeps _ _ _ _ _ _ _ He _ _ Hold) as (n' & Hn' & Hle).
        exists n'. split; [assumption|rlra].
    + exact (expand_keeps _ _ _ _ _ _ _ He _ _ (get_set_same _ _ _)).
  - simpl in He.
    destruct (mem _ closed); [eapply IH; eauto|].
    destruct (verify_node self (neighbour current c_id m0)) as [[|]| |];
      simpl in He; try discriminate; [|eapply IH; eauto].
    destruct (mem _ os) eqn:Hm; simpl in He.
    + unfold lookup in He. destruct (mem_get _ _ Hm) as [old Hold].
      rewrite Hold in He. simpl in He.
      destruct (Cost.gtb _ _); eapply IH; eauto.
    + eapply IH; eauto.
Qed.

(** Extending a grid path by one move. *)
Lemma grid_path_snoc (self : t) (sx sy x y : Z) (ms : list motion_t)
    (m : motion_t) :
  grid_path self sx sy ms x y ->
  In m (motion self) ->
  free self (x + fst (fst m)) (y + snd (fst m)) ->
  grid_path self sx sy (ms ++ [m]) (x + fst (fst m)) (y + snd (fst m)) /\
  cells_from sx sy (ms ++ [m])
    = cells_from sx sy ms ++ [(x + fst (fst m), y + snd (fst m))].
Proof.
  intros H Hm Hf. induction H as [x y|x y m0 ms x' y' Hin0 Hf0 Hp IH].
  - split; [|reflexivity].
    apply path_move; [assumption|assumption|apply path_stay].
  - destruct (IH Hf) as [IH1 IH2]. split.
    + simpl. now apply path_move.
    + simpl. now rewrite IH2.
Qed.

(** The linear index tells the cells of the array apart. *)
Lemma calc_index_inj (self : t) (x1 y1 x2 y2 : Z) :
  in_array self x1 y1 -> in_array self x2 y2 ->
  calc_index self (cell_node x1 y1) = calc_index self (cell_node x2 y2) ->
  x1 = x2 /\ y1 = y2.
Proof.
  unfold in_array, calc_index. simpl. intros [Hx1 Hy1] [Hx2 Hy2] H.
  assert (y1 = y2) by nia. subst. split; [lia|reflexivity].
Qed.

Section Optimal.
Variables (self : t) (nstart : Node.t).
Hypothesis Hwf : well_formed self.
Hypothesis Hfree : free self (Node.x nstart) (Node.y nstart).
Hypothesis Hcost : Node.cost nstart = Cost.zero.

Lemma motion_is_model : motion self = get_motion_model.
Proof. apply Hwf. Qed.

(** Two sound nodes with the same key sit on the same cell. *)
Lemma sound_same_cell (closed : dict Node.t) (k : Z) (n : Node.t) (x y : Z) :
  sound self nstart closed k n ->
  in_array self x y ->
  k = calc_index self (cell_node x y) ->
  Node.x n = x /\ Node.y n = y.
Proof.
  intros Hn Hxy Hk.
  destruct (sound_free self nstart closed k n Hwf Hfree Hn) as (Hin & _).
  apply (calc_index_inj self); try assumption.
  rewrite <- calc_index_cell, <- Hk. symmetry. apply Hn.
Qed.

(** On any path from a closed cell to a cell that is not closed, some
    node of the open set costs no more than the path. *)
Lemma frontier (st : state) (xu yu : Z) :
  invariant self nstart st -> optimal self nstart st ->
  ~ In (calc_index self (cell_node xu yu)) (keys (closedset st)) ->
  forall x y ms,
    grid_path self x y ms xu yu ->
    forall pre p,
      grid_path self (Node.x nstart) (Node.y nstart) pre x y ->
      get (closedset st) (calc_index self (cell_node x y)) = Some p ->
      Node.x p = x -> Node.y p = y ->
      exists k n,
        get (openset st) k = Some n /\
        (Cost.val (Node.cost n) <= Cost.val (moves_cost (pre ++ ms)))%R.
Proof.
  intros (Hsep & Hopen & Hclosed) (_ & Hopt1 & Hopt2) Hu x y ms H.
  induction H as [x y|x y m ms x' y' Hin Hf Hp IH]; intros pre p Hpre Hg Hx Hy.
  - exfalso. apply Hu. eapply get_keys; eauto.
  - destruct (grid_path_snoc _ _ _ _ _ _ _ Hpre Hin Hf) as [Hpre' _].
    pose proof (Hopt1 _ p pre Hg) as Hp1. rewrite Hx, Hy in Hp1.
    specialize (Hp1 Hpre).
    assert (Hv : verify_node self
                   (neighbour p (calc_index self (cell_node x y)) m)
                 = Return true).
    { rewrite verify_node_cell, neighbour_x, neighbour_y, Hx, Hy. exact Hf. }
    assert (Hk : calc_index self
                   (neighbour p (calc_index self (cell_node x y)) m)
                 = calc_index self (cell_node (x + fst (fst m))
                                              (y + snd (fst m)))).
    { rewrite calc_index_cell, neighbour_x, neighbour_y, Hx, Hy. reflexivity. }
    destruct (Hopt2 _ p m Hg Hin Hv) as [Hcl|(n & Hn & Hle)].
    + rewrite Hk in Hcl. apply keys_get in Hcl as [p' Hp'].
      destruct (sound_same_cell (closedset st) _ p' (x + fst (fst m))
                  (y + snd (fst m)) (Hclosed _ _ Hp')) as [Hx' Hy'];
        [now apply (verify_node_true self _ Hwf Hf)|reflexivity|].
      destruct (IH Hu (pre ++ [m]) p' Hpre' Hp' Hx' Hy') as (k & n & Hn & Hle).
      exists k, n. split; [assumption|].
      now rewrite <- app_assoc in Hle.
    + eexists. exists n. split; [exact Hn|].
      pose proof (grid_path_nonneg _ _ _ _ _ _ motion_is_model Hp) as Hnn.
      rewrite val_moves_cost_app. simpl. rewrite val_add. rlra.
Qed.

(** The cheapest node of the open set is as cheap as any path to it. *)
Lemma selected_is_cheapest (st : state) (c_id : Z) (current : Node.t) :
  invariant self nstart st -> optimal self nstart st ->
  get (openset st) c_id = Some current ->
  (forall k' n', get (openset st) k' = Some n' ->
     (Cost.val (Node.cost current) <= Cost.val (Node.cost n'))%R) ->
  forall ms,
    grid_path self (Node.x nstart) (Node.y nstart) ms
              (Node.x current) (Node.y current) ->
    (Cost.val (Node.cost current) <= Cost.val (moves_cost ms))%R.
Proof.
  intros Hinv Hopt Hg Hmin ms Hpath.
  pose proof Hinv as (Hsep & Hopen & Hclosed).
  destruct Hopt as ([[Hc Ho]|Hst] & Hopt1 & Hopt2).
  - rewrite Ho in Hg. simpl in Hg.
    destruct (_ =? c_id); [|discriminate]. injection Hg as <-.
    rewrite Hcost, val_zero.
    exact (grid_path_nonneg _ _ _ _ _ _ motion_is_model Hpath).
  - destruct (frontier st (Node.x current) (Node.y current) Hinv
                (conj (or_intror Hst) (conj Hopt1 Hopt2))) with
      (x := Node.x nstart) (y := Node.y nstart) (ms := ms)
      (pre := @nil motion_t) (p := nstart) as (k & n & Hn & Hle);
      try reflexivity; try assumption.
    + rewrite <- calc_index_cell.
      destruct (Hopen _ _ Hg) as (<- & _).
      apply Hsep. eapply get_keys; eauto.
    + apply path_stay.
    + simpl in Hle. specialize (Hmin _ _ Hn). rlra.
Qed.

End Optimal.
End OptimalFacts.

(** ** Dijkstra's invariant along the loop *)

Module OptimalRun.
Import Py PyFacts NumFacts DictFacts GridFacts VerifyFacts SelectFacts.
Import StepFacts LoopFacts RunFacts PathFacts PlanningFacts QueryFacts CostFacts.
Import OptimalFacts GraphSearch Search Spec Invariant.

Section Optimal.
Variables (self : t) (nstart ngoal : Node.t).
Hypothesis Hwf : well_formed self.
Hypothesis Hfree : free self (Node.x nstart) (Node.y nstart).
Hypothesis Hcost : Node.cost nstart = Cost.zero.

Lemma initial_optimal : optimal self nstart (initial self nstart).
Proof.
  unfold optimal, initial. simpl. split; [now left|].
  split; intros; discriminate.
Qed.

Lemma step_optimal (st st' : state) :
  invariant self nstart st -> optimal self nstart st ->
  step self ngoal st = Return (Continue st') ->
  optimal self nstart st'.
Proof.
  intros Hinv Hopt Hs.
  pose proof Hinv as ((Hno & Hnc & Hdis) & Hopen & Hclosed).
  destruct (step_cases self ngoal st Hno)
    as [[Hnil Hs']|(c_id & current & Hmin & Hg & Hle & [(_ & _ & Hs')|(_ & Hs')])];
    rewrite Hs' in Hs; try discriminate.
  destruct (expand _ _ _ _ _ _) as [os| |] eqn:E; simpl in Hs; try discriminate.
  injection Hs as <-.
  assert (Hnew : ~ In c_id (keys (closedset st))).
  { apply Hdis. eapply get_keys; eauto. }
  pose proof (selected_is_cheapest self nstart Hwf Hfree Hcost st c_id current
                Hinv Hopt Hg Hle) as Hbest.
  destruct Hopt as (Hst & Hopt1 & Hopt2).
  unfold optimal. simpl. split; [|split].
  - right. destruct Hst as [[Hc Ho]|Hst].
    + rewrite Ho in Hg. simpl in Hg.
      destruct (Z.eqb_spec (calc_index self nstart) c_id) as [<-|];
        [|discriminate].
      injection Hg as <-. apply get_set_same.
    + rewrite get_set_other; [assumption|].
      intros <-. apply Hnew. eapply get_keys; eauto.
  - intros k n ms. destruct (Z.eq_dec k c_id) as [->|Hne].
    + rewrite get_set_same. intros [= <-]. apply Hbest.
    + rewrite get_set_other by assumption. apply Hopt1.
  - intros k p m. destruct (Z.eq_dec k c_id) as [->|Hne].
    + rewrite get_set_same. intros [= <-] Hm Hv.
      destruct (mem (calc_index self (neighbour current c_id m))
                    (set (closedset st) c_id current)) eqn:Hc.
      * left. now apply mem_true.
      * right. eapply expand_reaches; eauto.
    + rewrite get_set_other by assumption. intros Hp Hm Hv.
      assert (Hgrow : forall k', In k' (keys (closedset st)) ->
                 In k' (keys (set (closedset st) c_id current))).
      { intros k' Hk'. rewrite set_new by assumption.
        unfold keys. rewrite map_app. apply in_or_app. now left. }
      destruct (Hopt2 _ _ _ Hp Hm Hv) as [Hcl|(n & Hn & Hcn)];
        [left; now apply Hgrow|].
      destruct (Z.eq_dec (calc_index self (neighbour p k m)) c_id) as [Heq|Hk'].
      * left. rewrite Heq. eapply get_keys. apply get_set_same.
      * right. rewrite <- (get_del_other _ c_id) in Hn by assumption.
        destruct (expand_keeps _ _ _ _ _ _ _ E _ _ Hn) as (n' & Hn' & Hle').
        exists n'. split; [assumption|rlra].
Qed.

Lemma iterates_optimal (st : state) :
  iterates self ngoal (initial self nstart) st ->
  invariant self nstart st /\ optimal self nstart st.
Proof.
  intro Hit. induction Hit as [|st1 st2 Hit [Hinv Hopt] Hs].
  - split; [now apply initial_invariant|apply initial_optimal].
  - split; [eapply step_invariant; eauto|eapply step_optimal; eauto].
Qed.

End Optimal.
End OptimalRun.

(** ** The returned waypoints as a grid path *)

Module ChainFacts.
Import Py PyFacts NumFacts DictFacts GridFacts VerifyFacts SelectFacts.
Import StepFacts LoopFacts RunFacts PathFacts PlanningFacts QueryFacts CostFacts.
Import OptimalFacts OptimalRun GraphSearch Search Spec Invariant.

(** With a positive resolution, two indices have the same position only
    if they are equal. *)
Lemma position_eq (r : Q) (i j minp : Z) :
  (0 < r)%Q -> Qeq_bool (position r i minp) (position r j minp) = (i =? j).
Proof.
  intro Hr. destruct (Z.eqb_spec i j) as [->|Hne].
  - apply Qeq_bool_iff. reflexivity.
  - destruct (Qeq_bool _ _) eqn:E; [|reflexivity]. exfalso. apply Hne.
    apply Qeq_bool_iff in E. unfold position in E.
    apply inject_Z_injective. apply (Qmult_inj_r _ _ r); qlra.
Qed.

(** The waypoints of two cells one move apart are one leg apart, of the
    cost of the move. *)
Lemma leg_cost_move (self : t) (x y : Z) (m : motion_t) :
  (0 < reso self)%Q -> In m get_motion_model ->
  leg_cost (waypoint self (x + fst (fst m)) (y + snd (fst m)))
           (waypoint self x y) = snd m.
Proof.
  intros Hr Hm. unfold leg_cost, waypoint, calc_position. simpl fst. simpl snd.
  rewrite !position_eq by assumption.
  unfold get_motion_model in Hm. simpl in Hm.
  repeat (destruct Hm as [<-|Hm];
          [simpl;
           repeat match goal with
                  | |- context [?a =? ?b] =>
                      destruct (Z.eqb_spec a b); try lia
                  end; reflexivity|]).
  contradiction.
Qed.

Lemma waypoints_cost_cons (a b : Q * Q) (l : list (Q * Q)) :
  waypoints_cost (a :: b :: l)
  = Cost.add (leg_cost a b) (waypoints_cost (b :: l)).
Proof. reflexivity. Qed.

(** The two ways in which [ancestors] returns. *)
Lemma ancestors_cases (fuel : nat) (closed : dict Node.t) (pind : Z)
    (ns : list Node.t) :
  ancestors fuel closed pind = Return ns ->
  (pind = -1 /\ ns = []) \/
  (pind <> -1 /\
   exists fuel' p rest,
     fuel = S fuel' /\ get closed pind = Some p /\
     ancestors fuel' closed (Node.pind p) = Return rest /\ ns = p :: rest).
Proof.
  destruct fuel as [|fuel]; simpl;
    destruct (Z.eqb_spec pind (-1)) as [->|Hne].
  - intros [= <-]. now left.
  - discriminate.
  - intros [= <-]. now left.
  - unfold lookup. destruct (get closed pind) as [p|]; simpl; [|discriminate].
    destruct (ancestors fuel closed (Node.pind p)) as [rest| |] eqn:E; simpl;
      try discriminate.
    intros [= <-]. right. split; [assumption|]. exists fuel, p, rest. auto.
Qed.

Section Chain.
Variables (self : t) (nstart : Node.t) (closed : dict Node.t).
Hypothesis Hwf : well_formed self.
Hypothesis Hstart : Node.pind nstart = -1.
Hypothesis Hcost : Node.cost nstart = Cost.zero.
Hypothesis Hsentinel : no_sentinel self nstart.
Hypothesis Hclosed :
  forall k n, get closed k = Some n -> sound self nstart closed k n.

Lemma sound_index (k : Z) (p : Node.t) :
  sound self nstart closed k p -> calc_index self p <> -1.
Proof.
  destruct Hsentinel as [Hs Hcells].
  intros (_ & _ & _ & [->|(Hv & _)]); [assumption|].
  rewrite calc_index_cell. apply Hcells. now apply verify_node_true in Hv.
Qed.

(** The goal node and its ancestors, read backwards, are the cells of a
    grid path from the start; the path costs what the node records, and
    so do the waypoints. *)
Lemma chain_is_path (ns : list Node.t) :
  forall fuel k n,
    sound self nstart closed k n ->
    ancestors fuel closed (Node.pind n) = Return ns ->
    exists ms,
      grid_path self (Node.x nstart) (Node.y nstart) ms (Node.x n) (Node.y n) /\
      Cost.val (moves_cost ms) = Cost.val (Node.cost n) /\
      map (fun a => (Node.x a, Node.y a)) (n :: ns)
        = rev (cells_from (Node.x nstart) (Node.y nstart) ms) /\
      Cost.val (waypoints_cost (map (node_waypoint self) (n :: ns)))
        = Cost.val (Node.cost n).
Proof.
  induction ns as [|p rest IH]; intros fuel k n Hn Ha;
    apply ancestors_cases in Ha;
    destruct Ha as [[Hp Hnil]|(Hp & fuel' & p' & rest' & _ & Hg & Ha & Heq)];
    try discriminate.
  - destruct Hn as (_ & _ & _ & [->|(_ & p0 & m & _ & Hp0 & ->)]).
    + exists []. simpl. rewrite Hcost, val_zero.
      repeat split; try reflexivity. apply path_stay.
    + exfalso. destruct m as [[dx dy] c]. simpl in Hp.
      eapply sound_index; eauto.
  - injection Heq as <- <-.
    destruct Hn as (_ & _ & _ & [->|(Hv & p0 & m & Hm & Hp0 & ->)]);
      [congruence|].
    assert (p0 = p).
    { destruct m as [[dx dy] c]. simpl in Hg. congruence. }
    subst p0.
    destruct (IH _ _ p (Hclosed _ _ Hp0) Ha) as (ms & Hpath & Hc & Hcells & Hw).
    assert (Hf : free self (Node.x p + fst (fst m)) (Node.y p + snd (fst m))).
    { unfold free. rewrite <- Hv, (verify_node_cell self (neighbour _ _ _)).
      now rewrite neighbour_x, neighbour_y. }
    destruct (grid_path_snoc _ _ _ _ _ _ _ Hpath Hm Hf) as [Hpath' Hcells'].
    exists (ms ++ [m]). rewrite neighbour_x, neighbour_y, neighbour_cost.
    split; [assumption|]. split; [|split].
    + rewrite val_moves_cost_app, Hc, val_add. simpl.
      rewrite val_add, val_zero. rlra.
    + rewrite Hcells', rev_app_distr, <- Hcells. simpl.
      now rewrite neighbour_x, neighbour_y.
    + rewrite map_cons in Hw. rewrite !map_cons, waypoints_cost_cons.
      rewrite val_add, Hw, val_add.
      unfold node_waypoint. rewrite neighbour_x, neighbour_y.
      rewrite leg_cost_move; [rlra|apply Hwf|].
      destruct Hwf as (_ & <- & _). assumption.
Qed.

End Chain.
End ChainFacts.

(** ** A goal that can be reached is found *)

Module CompleteFacts.
Import Py PyFacts NumFacts DictFacts GridFacts VerifyFacts SelectFacts.
Import StepFacts LoopFacts RunFacts PathFacts PlanningFacts QueryFacts CostFacts.
Import OptimalFacts OptimalRun ChainFacts.
Import GraphSearch Search Spec Invariant.

(** A move onto a free cell, then what can be reached from there. *)
Lemma reachable_first (self : t) (x y a b : Z) (m : motion_t) :
  In m (motion self) ->
  free self (x + fst (fst m)) (y + snd (fst m)) ->
  reachable self (x + fst (fst m)) (y + snd (fst m)) a b ->
  reachable self x y a b.
Proof.
  intros Hm Hf Hab. induction Hab as [|a b m' Hab IHab Hm' Hf'].
  - apply (reach_move self x y x y m); [apply reach_start|assumption..].
  - now apply reach_move.
Qed.

(** Reachable cells are the ends of grid paths. *)
Lemma reachable_grid_path (self : t) (sx sy x y : Z) :
  reachable self sx sy x y <-> exists ms, grid_path self sx sy ms x y.
Proof.
  split.
  - induction 1 as [|x y m Hreach [ms IH] Hm Hf].
    + exists []. apply path_stay.
    + exists (ms ++ [m]). now apply grid_path_snoc.
  - intros [ms H]. induction H as [x y|x y m ms x' y' Hin Hf Hp IH].
    + apply reach_start.
    + eapply reachable_first; eauto.
Qed.

(** No node of the closed set is on the goal cell: the loop is left when
    such a node is selected. *)
Lemma closed_off_goal (self : t) (nstart ngoal : Node.t) (st : state) :
  iterates self ngoal (initial self nstart) st ->
  forall k n, get (closedset st) k = Some n ->
              ~ (Node.x n = Node.x ngoal /\ Node.y n = Node.y ngoal).
Proof.
  intro Hit.
  assert (Hsep : forall st', iterates self ngoal (initial self nstart) st' ->
                             separated st').
  { intros st'. apply iterates_separated, separated_initial. }
  induction Hit as [|st1 st2 Hit IH Hs]; [discriminate|].
  destruct (Hsep _ Hit) as (Hno & _).
  destruct (step_cases self ngoal st1 Hno)
    as [[Hnil Hs']|(c_id & current & _ & _ & _ & [(_ & _ & Hs')|(Hne & Hs')])];
    rewrite Hs' in Hs; try discriminate.
  destruct (expand _ _ _ _ _ _) as [os| |]; simpl in Hs; try discriminate.
  injection Hs as <-. simpl. intros k n.
  destruct (Z.eq_dec k c_id) as [->|Hk].
  - rewrite get_set_same. intros [= <-]. assumption.
  - rewrite get_set_other by assumption. apply IH.
Qed.

Section Complete.
Variables (self : t) (sx sy gx gy : Q).
Hypothesis Hwf : well_formed self.
Hypothesis Hfree :
  free self (Node.x (cell_of self sx sy)) (Node.y (cell_of self sx sy)).
Hypothesis Hreach :
  reachable self (Node.x (cell_of self sx sy)) (Node.y (cell_of self sx sy))
            (Node.x (cell_of self gx gy)) (Node.y (cell_of self gx gy)).

(** While the goal can be reached the open set is not empty. *)
Lemma open_set_not_empty (st : state) :
  iterates self (cell_of self gx gy) (initial self (cell_of self sx sy)) st ->
  openset st <> [].
Proof.
  intros Hit Hnil.
  destruct (iterates_optimal self (cell_of self sx sy) (cell_of self gx gy)
              Hwf Hfree eq_refl st Hit) as [Hinv Hopt].
  pose proof Hinv as (_ & _ & Hclosed).
  pose proof Hopt as ([[_ Ho]|Hst] & _); [congruence|].
  apply reachable_grid_path in Hreach as [ms Hpath].
  assert (Hgoal : in_array self (Node.x (cell_of self gx gy))
                                (Node.y (cell_of self gx gy))).
  { assert (Hr : reachable self (Node.x (cell_of self sx sy))
                   (Node.y (cell_of self sx sy))
                   (Node.x (cell_of self gx gy)) (Node.y (cell_of self gx gy))).
    { apply reachable_grid_path. eauto. }
    apply reachable_cases in Hr as [[-> ->]|Hf];
      now apply (verify_node_true self _ Hwf). }
  destruct (frontier self (cell_of self sx sy) Hwf Hfree st
              (Node.x (cell_of self gx gy)) (Node.y (cell_of self gx gy))
              Hinv Hopt) with
    (x := Node.x (cell_of self sx sy)) (y := Node.y (cell_of self sx sy))
    (ms := ms) (pre := @nil motion_t) (p := cell_of self sx sy)
    as (k & n & Hn & _); try reflexivity; try assumption.
  - intro Hin. apply keys_get in Hin as [p Hp].
    destruct (sound_same_cell self (cell_of self sx sy) Hwf Hfree
                (closedset st) _ p _ _ (Hclosed _ _ Hp) Hgoal eq_refl)
      as [Hx Hy].
    exact (closed_off_goal self _ _ st Hit _ _ Hp (conj Hx Hy)).
  - apply path_stay.
  - rewrite Hnil in Hn. discriminate.
Qed.

(** On a grid where [verify_node] cannot fault, a call with fuel for
    every cell returns. *)
Lemma planning_returns (fuel : nat) :
  index_safe self -> (cell_count self + 2 <= fuel)%nat ->
  exists r, planning fuel self sx sy gx gy = Return r.
Proof.
  intros Hsafe Hfuel.
  destruct (planning_total self sx sy gx gy Hwf fuel Hfuel)
    as [Hr|(e & st & _ & Hit & Hs)]; [assumption|exfalso].
  destruct (query_invariant self sx sy gx gy Hwf st Hit) as ((Hno & _) & _).
  destruct (step_raise_safe self _ st e Hwf Hsafe Hno Hs) as [_ Hnil].
  exact (open_set_not_empty st Hit Hnil).
Qed.

End Complete.
End CompleteFacts.

(** ** Optimality of the returned path, away from the index [-1] *)

Module OptimalPath.
Import Py PyFacts NumFacts DictFacts GridFacts VerifyFacts SelectFacts.
Import StepFacts LoopFacts RunFacts PathFacts PlanningFacts QueryFacts CostFacts.
Import OptimalFacts OptimalRun ChainFacts CompleteFacts.
Import GraphSearch Search Spec Invariant Examples.

(** Dijkstra's algorithm as the class runs it is correct wherever the
    parent id [-1] is not also the index of a cell: if the start cell is
    collision free, neither it nor any cell of the grid has the linear
    index [-1], and the call returns, then the waypoints are, from the
    goal back to the start, the cells of a grid path from the start cell
    to the goal cell, and the cost of the waypoint sequence, [1] for each
    step along an axis and [sqrt 2] for each diagonal step, is that of
    the path and is no more than the cost of any grid path from the
    start cell to the goal cell. *)
Theorem returned_path_is_cheapest
    (ox oy : list Q) (reso0 rr0 : Q) (self : t) (fuel : nat)
    (sx sy gx gy : Q) (rx ry : list Q) (ex : list (Q * Q)) :
  init ox oy reso0 rr0 = Return self ->
  (0 < reso0)%Q ->
  free self (Node.x (cell_of self sx sy)) (Node.y (cell_of self sx sy)) ->
  no_sentinel self (cell_of self sx sy) ->
  planning fuel self sx sy gx gy = Return (rx, ry, ex) ->
  exists ms,
    grid_path self (Node.x (cell_of self sx sy)) (Node.y (cell_of self sx sy))
              ms (Node.x (cell_of self gx gy)) (Node.y (cell_of self gx gy)) /\
    combine rx ry
      = map (fun c => waypoint self (fst c) (snd c))
            (rev (cells_from (Node.x (cell_of self sx sy))
                             (Node.y (cell_of self sx sy)) ms)) /\
    Cost.val (waypoints_cost (combine rx ry)) = Cost.val (moves_cost ms) /\
    forall ms',
      grid_path self (Node.x (cell_of self sx sy)) (Node.y (cell_of self sx sy))
                ms' (Node.x (cell_of self gx gy)) (Node.y (cell_of self gx gy)) ->
      (Cost.val (waypoints_cost (combine rx ry)) <= Cost.val (moves_cost ms'))%R.
Proof.
  intros Hinit Hr Hfree Hsent Hp.
  pose proof (init_well_formed _ _ _ _ _ Hinit Hr) as Hwf.
  destruct (planning_found self sx sy gx gy Hwf _ _ _ _ Hp)
    as (st & c_id & current & ns & Hit & Hg & Hmin & Hx & Hy & Ha & Hlen & Hc).
  destruct (iterates_optimal self (cell_of self sx sy) (cell_of self gx gy)
              Hwf Hfree eq_refl st Hit) as [Hinv Hopt].
  pose proof Hinv as (_ & Hopen & Hclosed).
  destruct (chain_is_path self (cell_of self sx sy) (closedset st) Hwf
              eq_refl eq_refl Hsent Hclosed ns fuel c_id current (Hopen _ _ Hg) Ha)
    as (ms & Hpath & Hcost & Hcells & Hw).
  exists ms. rewrite <- Hx, <- Hy. split; [assumption|].
  rewrite Hc. split; [|split].
  - rewrite <- Hcells, map_map. reflexivity.
  - now rewrite Hw, Hcost.
  - intros ms' Hpath'. rewrite Hw.
    exact (selected_is_cheapest self (cell_of self sx sy) Hwf Hfree eq_refl
             st c_id current Hinv Hopt Hg Hmin ms' Hpath').
Qed.

(** Moreover the call does return such a path whenever the goal cell
    can be reached, the grid is one on which [verify_node] cannot fault,
    and the fuel allows for one iteration per cell and two more. *)
Theorem planning_finds_cheapest_path
    (ox oy : list Q) (reso0 rr0 : Q) (self : t) (fuel : nat) (sx sy gx gy : Q) :
  init ox oy reso0 rr0 = Return self ->
  (0 < reso0)%Q ->
  free self (Node.x (cell_of self sx sy)) (Node.y (cell_of self sx sy)) ->
  reachable self (Node.x (cell_of self sx sy)) (Node.y (cell_of self sx sy))
            (Node.x (cell_of self gx gy)) (Node.y (cell_of self gx gy)) ->
  no_sentinel self (cell_of self sx sy) ->
  index_safe self ->
  (cell_count self + 2 <= fuel)%nat ->
  exists rx ry ex ms,
    planning fuel self sx sy gx gy = Return (rx, ry, ex) /\
    grid_path self (Node.x (cell_of self sx sy)) (Node.y (cell_of self sx sy))
              ms (Node.x (cell_of self gx gy)) (Node.y (cell_of self gx gy)) /\
    combine rx ry
      = map (fun c => waypoint self (fst c) (snd c))
            (rev (cells_from (Node.x (cell_of self sx sy))
                             (Node.y (cell_of self sx sy)) ms)) /\
    Cost.val (waypoints_cost (combine rx ry)) = Cost.val (moves_cost ms) /\
    forall ms',
      grid_path self (Node.x (cell_of self sx sy)) (Node.y (cell_of self sx sy))
                ms' (Node.x (cell_of self gx gy)) (Node.y (cell_of self gx gy)) ->
      (Cost.val (waypoints_cost (combine rx ry)) <= Cost.val (moves_cost ms'))%R.
Proof.
  intros Hinit Hr Hfree Hreach Hsent Hsafe Hfuel.
  pose proof (init_well_formed _ _ _ _ _ Hinit Hr) as Hwf.
  destruct (planning_returns self sx sy gx gy Hwf Hfree Hreach fuel Hsafe Hfuel)
    as [[[rx ry] ex] Hp].
  destruct (returned_path_is_cheapest _ _ _ _ _ _ _ _ _ _ _ _ _
              Hinit Hr Hfree Hsent Hp) as (ms & H).
  exists rx, ry, ex, ms. split; assumption.
Qed.

(** A grid is index safe when its array covers the bounding box, that
    is when the widths were not rounded down. *)
Lemma covering_grid_is_index_safe (self : t) :
  (0 < reso self)%Q ->
  (inject_Z (maxx self - minx self) <= inject_Z (xwidth self) * reso self)%Q ->
  (inject_Z (maxy self - miny self) <= inject_Z (ywidth self) * reso self)%Q ->
  index_safe self.
Proof.
  intros Hr Hx Hy x y Hp.
  destruct (position_ok_nonneg self x y Hr Hp) as [Hx0 Hy0].
  unfold position_ok, calc_position, position in Hp.
  rewrite !andb_true_iff, !negb_true_iff in Hp.
  destruct Hp as [[[_ _] Hxm] Hym].
  apply Qleb_false in Hxm, Hym.
  unfold Z.sub in Hx, Hy. rewrite inject_Z_plus, inject_Z_opp in Hx, Hy.
  unfold in_array. split; (split; [assumption|]).
  - rewrite Zlt_Qlt. apply (Qmult_lt_r _ _ (reso self)); [assumption|qlra].
  - rewrite Zlt_Qlt. apply (Qmult_lt_r _ _ (reso self)); [assumption|qlra].
Qed.

Lemma walled_index_safe : index_safe walled.
Proof. apply covering_grid_is_index_safe; vm_compute; congruence. Qed.

(** The walled grid has no cell of index [-1]. *)
Lemma walled_no_sentinel : no_sentinel walled (cell_of walled 0 0).
Proof.
  split; [vm_compute; discriminate|].
  intros x y [Hx Hy]. unfold calc_index. simpl in *. lia.
Qed.

Lemma returned_path_is_cheapest_witness :
  planning 20 walled 0 0 0 2
    = Return ([0; 0; 0]%Q, [2; 1; 0]%Q, [(0, 0); (0, 1); (0, 2)]%Q) /\
  forall ms',
    grid_path walled (Node.x (cell_of walled 0 0)) (Node.y (cell_of walled 0 0))
              ms' (Node.x (cell_of walled 0 2)) (Node.y (cell_of walled 0 2)) ->
    (Cost.val (waypoints_cost (combine [0; 0; 0]%Q [2; 1; 0]%Q))
     <= Cost.val (moves_cost ms'))%R.
Proof.
  assert (Hp : planning 20 walled 0 0 0 2
               = Return ([0; 0; 0]%Q, [2; 1; 0]%Q, [(0, 0); (0, 1); (0, 2)]%Q))
    by reflexivity.
  split; [exact Hp|].
  destruct (returned_path_is_cheapest walled_ox walled_oy 1 (1 # 2) walled 20
              0 0 0 2 _ _ _ eq_refl eq_refl eq_refl walled_no_sentinel Hp)
    as (ms & _ & _ & _ & Hmin).
  exact Hmin.
Defined.

Lemma planning_finds_cheapest_path_witness :
  exists rx ry ex ms,
    planning 20 walled 0 0 0 2 = Return (rx, ry, ex) /\
    grid_path walled (Node.x (cell_of walled 0 0)) (Node.y (cell_of walled 0 0))
              ms (Node.x (cell_of walled 0 2)) (Node.y (cell_of walled 0 2)) /\
    Cost.val (waypoints_cost (combine rx ry)) = Cost.val (moves_cost ms).
Proof.
  assert (Hreach : reachable walled (Node.x (cell_of walled 0 0))
                     (Node.y (cell_of walled 0 0))
                     (Node.x (cell_of walled 0 2)) (Node.y (cell_of walled 0 2))).
  { apply (reach_move walled 0 0 0 1 (0, 1, Cost.one));
      [|simpl; tauto|reflexivity].
    apply (reach_move walled 0 0 0 0 (0, 1, Cost.one));
      [apply reach_start|simpl; tauto|reflexivity]. }
  assert (Hfuel : (cell_count walled + 2 <= 20)%nat) by (vm_compute; lia).
  destruct (planning_finds_cheapest_path walled_ox walled_oy 1 (1 # 2) walled 20
              0 0 0 2 eq_refl eq_refl eq_refl Hreach walled_no_sentinel
              walled_index_safe Hfuel)
    as (rx & ry & ex & ms & Hp & Hpath & _ & Hcost & _).
  exists rx, ry, ex, ms. auto.
Defined.

End OptimalPath.

(* ===================================================================== *)
(** * Further properties of the grid *)
(* ===================================================================== *)

Module RoundFacts.
Import Py PyFacts.

(** [round] does not tell equal rationals apart. *)
Lemma round_comp (p q : Q) : (p == q)%Q -> round p = round q.
Proof.
  intro H. unfold round. rewrite (Qfloor_comp _ _ H).
  assert (Hc : (p - inject_Z (Qfloor q) ?= 1 # 2)%Q
               = (q - inject_Z (Qfloor q) ?= 1 # 2)%Q).
  { apply Qcompare_comp; [now rewrite H|reflexivity]. }
  now rewrite Hc.
Qed.

(** [round] leaves an integer alone. *)
Lemma round_inject_Z (z : Z) : round (inject_Z z) = z.
Proof.
  unfold round. rewrite Qfloor_Z.
  assert (Hc : (inject_Z z - inject_Z z ?= 1 # 2)%Q = Lt)
    by (apply (proj1 (Qlt_alt _ _)); qlra).
  now rewrite Hc.
Qed.

(** [round] is monotone. *)
Lemma round_monotone (p q : Q) : (p <= q)%Q -> round p <= round q.
Proof.
  intro Hle.
  pose proof (round_nearest p) as Hp. pose proof (round_nearest q) as Hq.
  apply Qabs_Qle_condition in Hp, Hq.
  destruct (Z.le_gt_cases (round p) (round q)) as [|Hgt]; [assumption|exfalso].
  assert (Hz : (inject_Z (round q) + 1 <= inject_Z (round p))%Q).
  { change 1%Q with (inject_Z 1). rewrite <- inject_Z_plus, <- Zle_Qle. lia. }
  assert (Htp : (Qabs (inject_Z (round p) - p) == 1 # 2)%Q).
  { rewrite Qabs_pos by qlra. qlra. }
  assert (Htq : (Qabs (inject_Z (round q) - q) == 1 # 2)%Q).
  { rewrite Qabs_neg by qlra. qlra. }
  apply round_tie_even in Htp, Htq.
  assert (Heq : round p = round q + 1).
  { apply Z.le_antisymm; [|lia].
    rewrite Zle_Qle, inject_Z_plus. change (inject_Z 1) with 1%Q. qlra. }
  rewrite Heq, Z.even_add, Htq in Htp. discriminate.
Qed.

End RoundFacts.

Module GridExtraFacts.
Import Py PyFacts NumFacts DictFacts GridFacts VerifyFacts RoundFacts.
Import PlanningFacts GraphSearch Search Spec Invariant.

(** The bounding box of a built planner is ordered and its widths are
    not negative. *)
Lemma built_grid_shape_core (ox oy : list Q) (reso0 rr0 : Q) (self : t) :
  init ox oy reso0 rr0 = Return self ->
  (0 < reso0)%Q ->
  minx self <= maxx self /\ miny self <= maxy self /\
  0 <= xwidth self /\ 0 <= ywidth self.
Proof.
  intros Hinit Hr. apply init_inv in Hinit.
  destruct Hinit as (mnx & mny & mxx & mxy & Hmnx & Hmny & Hmxx & Hmxy & _ & _ &
                     _ & Hminx & Hminy & Hmaxx & Hmaxy & Hxw & Hyw & _).
  assert (Hbox : forall l mn mx, Py.min l = Return mn -> Py.max l = Return mx ->
                                 round mn <= round mx).
  { intros l mn mx Hmn Hmx. apply round_monotone.
    apply min_spec in Hmn as [_ Hmn]. apply max_spec in Hmx as [Hmx _].
    rewrite Forall_forall in Hmn. now apply Hmn. }
  assert (Hw : forall a b, a <= b ->
                 0 <= round (inject_Z (b - a) / reso0)%Q).
  { intros a b Hab. rewrite <- (round_inject_Z 0). apply round_monotone.
    apply Qle_shift_div_l; [assumption|].
    change (inject_Z 0) with 0%Q. rewrite Qmult_0_l.
    change 0%Q with (inject_Z 0). rewrite <- Zle_Qle. lia. }
  assert (Hx : minx self <= maxx self) by (rewrite Hminx, Hmaxx; eauto).
  assert (Hy : miny self <= maxy self) by (rewrite Hminy, Hmaxy; eauto).
  repeat split; try assumption; [rewrite Hxw|rewrite Hyw]; auto.
Qed.

End GridExtraFacts.

Module GridExtras.
Import Py PyFacts NumFacts DictFacts GridFacts VerifyFacts RoundFacts.
Import PlanningFacts OptimalFacts OptimalPath GridExtraFacts.
Import GraphSearch Search Spec Invariant Examples.

(** A planner built with a positive resolution has an ordered bounding
    box, widths that are not negative, and an array [obmap] of [xwidth]
    rows of [ywidth] entries each, so that every cell of the array can be
    looked up. *)
Theorem built_grid_shape (ox oy : list Q) (reso0 rr0 : Q) (self : t) :
  init ox oy reso0 rr0 = Return self ->
  (0 < reso0)%Q ->
  minx self <= maxx self /\ miny self <= maxy self /\
  0 <= xwidth self /\ 0 <= ywidth self /\
  Z.of_nat (length (obmap self)) = xwidth self /\
  Forall (fun row => Z.of_nat (length row) = ywidth self) (obmap self) /\
  (forall x y, in_array self x y -> exists b, obmap_at self x y = Return b).
Proof.
  intros Hinit Hr.
  pose proof (init_well_formed _ _ _ _ _ Hinit Hr) as Hwf.
  pose proof Hwf as (_ & _ & Hlen & Hrows).
  destruct (built_grid_shape_core _ _ _ _ _ Hinit Hr) as (Hx & Hy & Hxw0 & Hyw0).
  repeat split; try assumption.
  - rewrite Hlen. lia.
  - eapply Forall_impl; [|exact Hrows]. simpl. intros row ->. lia.
  - intros x y. now apply obmap_at_in_array.
Qed.

Lemma built_grid_shape_witness :
  init walled_ox walled_oy 1 (1 # 2) = Return walled /\
  (0 < 1)%Q /\
  minx walled <= maxx walled /\ miny walled <= maxy walled /\
  0 <= xwidth walled /\ 0 <= ywidth walled /\
  Z.of_nat (length (obmap walled)) = xwidth walled.
Proof.
  assert (Hinit : init walled_ox walled_oy 1 (1 # 2) = Return walled)
    by reflexivity.
  assert (Hr : (0 < 1)%Q) by reflexivity.
  split; [exact Hinit|]. split; [exact Hr|].
  destruct (built_grid_shape _ _ _ _ _ Hinit Hr) as (H1 & H2 & H3 & H4 & H5 & _).
  auto.
Defined.



(** The linear index tells the cells of the array apart, and when
    [minx <= 0] and [miny <= 0] it is not negative on them, so that it is
    never the parent id [-1] of the start node; outside the array it
    repeats: a cell one row further has the index of the cell [xwidth]
    columns to the right. *)
Theorem linear_index_of_array_cells (self : t) (x1 y1 x2 y2 : Z) :
  in_array self x1 y1 -> in_array self x2 y2 ->
  (calc_index self (cell_node x1 y1) = calc_index self (cell_node x2 y2) ->
   x1 = x2 /\ y1 = y2) /\
  (minx self <= 0 -> miny self <= 0 ->
   0 <= calc_index self (cell_node x1 y1)) /\
  calc_index self (cell_node (x1 + xwidth self) y1)
    = calc_index self (cell_node x1 (y1 + 1)).
Proof.
  intros H1 H2. split; [now apply calc_index_inj|]. split.
  - destruct H1 as [Hx Hy]. unfold calc_index. simpl. intros Hmx Hmy. nia.
  - unfold calc_index. simpl. lia.
Qed.

Lemma linear_index_of_array_cells_witness :
  in_array walled 0 1 /\ in_array walled 2 0 /\
  (calc_index walled (cell_node 0 1) = calc_index walled (cell_node 2 0) ->
   0 = 2 /\ 1 = 0).
Proof.
  assert (H1 : in_array walled 0 1) by (unfold in_array; simpl; lia).
  assert (H2 : in_array walled 2 0) by (unfold in_array; simpl; lia).
  split; [exact H1|]. split; [exact H2|].
  exact (proj1 (linear_index_of_array_cells walled 0 1 2 0 H1 H2)).
Defined.

End GridExtras.

(* ===================================================================== *)
(** * Further properties of the search *)
(* ===================================================================== *)

Module SearchExtraFacts.
Import Py PyFacts NumFacts DictFacts GridFacts VerifyFacts SelectFacts.
Import StepFacts LoopFacts RunFacts PathFacts PlanningFacts QueryFacts CostFacts.
Import OptimalFacts OptimalRun ChainFacts CompleteFacts.
Import GraphSearch Search Spec Invariant.



Section Chain.
Variables (self : t) (nstart : Node.t) (closed : dict Node.t).
Hypothesis Hwf : well_formed self.
Hypothesis Hstart : Node.pind nstart = -1.
Hypothesis Hclosed :
  forall k n, get closed k = Some n -> sound self nstart closed k n.


End Chain.
End SearchExtraFacts.

Module SearchExtras.
Import Py PyFacts NumFacts DictFacts GridFacts VerifyFacts SelectFacts.
Import StepFacts LoopFacts RunFacts PathFacts PlanningFacts QueryFacts CostFacts.
Import OptimalFacts OptimalRun ChainFacts CompleteFacts OptimalPath.
Import SearchExtraFacts.
Import GraphSearch Search Spec Invariant Examples.









End SearchExtras.
(* ===================================================================== *)
(** * Resampling *)
(* ===================================================================== *)

Module ResamplingFacts.
Import Py PyFacts NumFacts GridFacts.
Import Resampling.

Lemma index_nth_error {A : Type} (l : list A) (i : Z) (a : A) :
  0 <= i -> (index l i = Return a <-> nth_error l (Z.to_nat i) = Some a).
Proof.
  intro Hi. unfold index.
  destruct (i <? 0) eqn:E; [apply Z.ltb_lt in E; lia|].
  destruct ((0 <=? i) && (i <? Z.of_nat (length l))) eqn:Eb.
  - destruct (nth_error l (Z.to_nat i)); split; congruence.
  - split; [discriminate|]. intro H.
    assert (Hlt : (Z.to_nat i < length l)%nat)
      by (apply nth_error_Some; congruence).
    apply andb_false_iff in Eb. destruct Eb as [Eb|Eb].
    + apply Z.leb_gt in Eb. lia.
    + apply Z.ltb_ge in Eb. lia.
Qed.

(** The largest weight of a list that has one. *)
Lemma largest_weight (w : list Q) :
  w <> [] ->
  exists M jmax,
    Py.max w = Return M /\ nth_error w jmax = Some M /\
    Forall (fun x => x <= M)%Q w.
Proof.
  destruct w as [|q l]; [congruence|]. intros _.
  destruct (max_from_spec l q) as (H1 & H2 & H3).
  assert (Hin : In (max_from q l) (q :: l)).
  { destruct H3 as [->|H3]; [now left|now right]. }
  apply In_nth_error in Hin. destruct Hin as [j Hj].
  exists (max_from q l), j. split; [reflexivity|]. split; [assumption|].
  constructor; assumption.
Qed.

(** With no positive weight and a positive [beta] the [while] loop never
    ends. *)
Lemma select_spins (N : Z) (w : list Q) :
  Z.of_nat (length w) = N ->
  Forall (fun x => x <= 0)%Q w ->
  forall fuel beta index,
    0 <= index < N -> (0 < beta)%Q ->
    select fuel N w beta index = OutOfFuel.
Proof.
  intros HN Hw. induction fuel as [|fuel IH]; intros beta index Hidx Hb;
    [reflexivity|].
  simpl. assert (Hlt : (Z.to_nat index < length w)%nat) by lia.
  apply nth_error_Some in Hlt.
  destruct (nth_error w (Z.to_nat index)) as [x|] eqn:Ex; [|congruence].
  rewrite (proj2 (index_nth_error w index x (proj1 Hidx)) Ex). simpl.
  assert (Hx : (x <= 0)%Q).
  { rewrite Forall_forall in Hw. apply Hw. eapply nth_error_In; eauto. }
  assert (Eb : Qltb x beta = true) by (apply Qltb_spec; qlra).
  rewrite Eb. destruct (N =? 0) eqn:EN; [apply Z.eqb_eq in EN; lia|].
  apply IH; [apply Z.mod_pos_bound; lia|qlra].
Qed.

(** With weights that are all zero and [beta] at zero the [for] loop
    stays at position 0. *)
Lemma wheel_stays {P : Type} (p : P) (ps : list P) (w : list Q)
    (inc : nat -> Q) (fuel : nat) :
  length w = length (p :: ps) ->
  Forall (fun x => x == 0)%Q w ->
  (forall i, inc i == 0)%Q ->
  forall (n i : nat) (beta : Q) (p_temp : list P),
    (beta == 0)%Q ->
    wheel (S fuel) inc (p :: ps) w n i beta 0 p_temp
    = Return (p_temp ++ repeat p n).
Proof.
  intros Hlen Hw Hinc. induction n as [|n IH]; intros i beta p_temp Hb.
  - simpl. now rewrite app_nil_r.
  - destruct w as [|x w']; [discriminate|].
    assert (Hx : (x == 0)%Q) by (inversion Hw; assumption).
    cbn [wheel select]. unfold Py.index at 1. simpl.
    assert (Eb : Qltb x (beta + inc i) = false).
    { destruct (Qltb x (beta + inc i)) eqn:E; [|reflexivity].
      apply Qltb_spec in E. specialize (Hinc i). qlra. }
    rewrite Eb. cbn [bind fst snd]. unfold Py.index at 1. simpl.
    rewrite IH.
    + rewrite <- app_assoc. reflexivity.
    + specialize (Hinc i). qlra.
Qed.

End ResamplingFacts.

Module ResamplingExtras.
Import Py PyFacts NumFacts GridFacts ResamplingFacts.
Import Resampling.

(** When every weight is zero, [resampling] returns [N] copies of the
    first particle, whatever the draws are. *)
Theorem resampling_collapses_on_zero_weights {P : Type} (fuel : nat)
    (rand : nat -> Q) (p : P) (ps : list P) (w : list Q) :
  length w = length (p :: ps) ->
  Forall (fun x => x == 0)%Q w ->
  resampling (S fuel) rand (p :: ps) w
  = Return (repeat p (length (p :: ps))).
Proof.
  intros Hlen Hw.
  assert (Hne : w <> []) by (destruct w; simpl in *; congruence).
  destruct (largest_weight w Hne) as (M & jmax & Emax & HM & Hmax).
  assert (HM0 : (M == 0)%Q).
  { rewrite Forall_forall in Hw. apply Hw. eapply nth_error_In; eauto. }
  unfold resampling. rewrite Emax. cbn [bind].
  rewrite (wheel_stays p ps w _ fuel Hlen Hw); [reflexivity| |reflexivity].
  intro i. rewrite HM0. ring.
Qed.

Lemma resampling_collapses_on_zero_weights_witness :
  resampling 1 (fun _ => 1 # 2) [true; false] [0; 0]%Q
  = Return (repeat true (length [true; false])).
Proof.
  apply (resampling_collapses_on_zero_weights 0 (fun _ => 1 # 2) true [false]
           [0; 0]%Q).
  - reflexivity.
  - repeat constructor; reflexivity.
Defined.

(** When no weight is positive, [stochasticUniversalSampling] never
    returns: its first [while] loop runs for ever. *)
Theorem universal_sampling_hangs_on_zero_weights {P : Type} (fuel : nat)
    (rand : nat -> Q) (particles : list P) (weights : list Q) :
  particles <> [] ->
  length weights = length particles ->
  Forall (fun x => x <= 0)%Q weights ->
  (0 <= rand 0%nat)%Q ->
  stochasticUniversalSampling fuel rand particles weights = OutOfFuel.
Proof.
  intros Hne Hlen Hw Hrand.
  set (N := Z.of_nat (length particles)).
  assert (HNpos : 0 < N) by (destruct particles; [congruence|]; subst N;
                              simpl length; lia).
  assert (HNq : (0 < inject_Z N)%Q).
  { change 0%Q with (inject_Z 0). now rewrite <- Zlt_Qlt. }
  assert (Hstep : (0 < 1 / inject_Z N)%Q).
  { apply Qlt_shift_div_l; [assumption|]. qlra. }
  assert (Hstart : (0 <= rand 0%nat / inject_Z N)%Q).
  { apply Qle_shift_div_l; [assumption|]. qlra. }
  unfold stochasticUniversalSampling. fold N.
  destruct (N =? 0) eqn:EN; [apply Z.eqb_eq in EN; lia|].
  destruct (length particles) as [|n] eqn:El; [subst N; lia|].
  cbn [wheel]. rewrite El. fold N.
  rewrite (select_spins N weights); [reflexivity| | | |].
  - subst N. now rewrite Hlen.
  - assumption.
  - lia.
  - qlra.
Qed.

Lemma universal_sampling_hangs_on_zero_weights_witness :
  stochasticUniversalSampling 100 (fun _ => 1 # 2) [true; false] [0; 0]%Q
  = OutOfFuel.
Proof.
  apply (universal_sampling_hangs_on_zero_weights 100 (fun _ => 1 # 2)
           [true; false] [0; 0]%Q).
  - discriminate.
  - reflexivity.
  - repeat constructor; discriminate.
  - discriminate.
Defined.

End ResamplingExtras.

(* ===================================================================== *)
(** * The constructor on Python numbers *)
(* ===================================================================== *)

Module ArithFacts.
Import Py PyFacts NumFacts.
Import Num Arith.

Lemma bind_return {A B : Type} (c : Num.res A) (k : A -> Num.res B) (b : B) :
  Num.bind c k = Num.Return b ->
  exists a, c = Num.Return a /\ k a = Num.Return b.
Proof. destruct c as [a|e|]; simpl; [eauto|discriminate|discriminate]. Qed.

(** A [for] loop that returns has run its body on every item. *)
Lemma for_each_return {A B : Type} (body : A -> Num.res B) (l : list A) :
  forall bs, for_each body l = Num.Return bs ->
    Forall2 (fun a b => body a = Num.Return b) l bs.
Proof.
  induction l as [|a l IH]; simpl; intros bs H.
  - injection H as <-. constructor.
  - apply bind_return in H as (b & Hb & H).
    apply bind_return in H as (bs' & Hbs & H). injection H as <-.
    constructor; auto.
Qed.

Lemma Forall2_nth {A B : Type} (R : A -> B -> Prop) (l : list A) (bs : list B) :
  Forall2 R l bs ->
  forall i a, nth_error l i = Some a ->
    exists b, nth_error bs i = Some b /\ R a b.
Proof.
  induction 1 as [|a0 b0 l bs H0 H IH]; intros [|i] a Hn; simpl in *;
    try discriminate.
  - injection Hn as <-. eauto.
  - eauto.
Qed.

(** [for i in range(n)]: what the loop collects at place [i] is what the
    body returned for [i]. *)
Lemma for_each_range {B : Type} (body : Z -> Num.res B) (n : Z) (bs : list B) :
  for_each body (Py.range n) = Num.Return bs ->
  forall i, 0 <= i < n ->
    exists b, body i = Num.Return b /\ Arith.index bs i = Num.Return b.
Proof.
  intros H i Hi. apply for_each_return in H.
  pose proof (Forall2_length H) as Hlen. rewrite length_range in Hlen.
  destruct (Forall2_nth _ _ _ H _ _ (nth_range n i Hi)) as (b & Hb & Hbody).
  exists b. split; [assumption|]. unfold Arith.index.
  destruct (Z.ltb_spec i 0); [lia|].
  destruct (Z.leb_spec 0 i); [|lia]. simpl.
  destruct (Z.ltb_spec i (Z.of_nat (length bs))); [|lia].
  now rewrite Hb.
Qed.

(** [round] returns the integer nearest to a finite number. *)
Lemma round_return (a : Num.t) (z : Z) :
  Arith.round a = Num.Return z ->
  exists q, Num.exact a = Float.Finite q /\ z = Py.round q.
Proof.
  destruct a as [x|[q|s|]]; simpl; intro H; try discriminate.
  - injection H as <-. exists (inject_Z x). split; [reflexivity|].
    unfold Py.round. rewrite Qfloor_Z.
    assert (E : (inject_Z x - inject_Z x ?= 1 # 2)%Q = Lt).
    { apply (proj1 (Qlt_alt _ _)). qlra. }
    now rewrite E.
  - injection H as <-. eauto.
Qed.

End ArithFacts.

Module DoubleGridFacts.
Import Py PyFacts NumFacts ArithFacts.
Import Num Arith DoubleGraphSearch DoubleSpec.

Section Built.
Variable square : Float.t -> Num.res Float.t.
Variables (ox oy : list Num.t) (reso0 rr0 : Num.t) (self : t).
Hypothesis Hinit : init square ox oy reso0 rr0 = Num.Return self.

(** What a constructor that returned has computed. *)
Lemma init_return :
  exists mnx mny mxx mxy qx qy,
    Arith.min ox = Num.Return mnx /\ Arith.round mnx = Num.Return (minx self) /\
    Arith.min oy = Num.Return mny /\ Arith.round mny = Num.Return (miny self) /\
    Arith.max ox = Num.Return mxx /\ Arith.round mxx = Num.Return (maxx self) /\
    Arith.max oy = Num.Return mxy /\ Arith.round mxy = Num.Return (maxy self) /\
    truediv (Int (maxx self - minx self)) reso0 = Num.Return qx /\
    Arith.round qx = Num.Return (xwidth self) /\
    truediv (Int (maxy self - miny self)) reso0 = Num.Return qy /\
    Arith.round qy = Num.Return (ywidth self) /\
    reso self = reso0 /\ rr self = rr0 /\
    for_each
      (fun ix =>
         x <~ position reso0 ix (minx self) ;;
         for_each
           (fun iy =>
              y <~ position reso0 iy (miny self) ;;
              near_obstacle square rr0 (combine ox oy) x y)
           (Py.range (ywidth self)))
      (Py.range (xwidth self)) = Num.Return (obmap self).
Proof.
  unfold init, calc_obstacle_map in Hinit.
  apply bind_return in Hinit as (m & Hm & Hself).
  apply bind_return in Hm as (mnx & Hmnx & Hm).
  apply bind_return in Hm as (minx0 & Hminx & Hm).
  apply bind_return in Hm as (mny & Hmny & Hm).
  apply bind_return in Hm as (miny0 & Hminy & Hm).
  apply bind_return in Hm as (mxx & Hmxx & Hm).
  apply bind_return in Hm as (maxx0 & Hmaxx & Hm).
  apply bind_return in Hm as (mxy & Hmxy & Hm).
  apply bind_return in Hm as (maxy0 & Hmaxy & Hm).
  apply bind_return in Hm as (qx & Hqx & Hm).
  apply bind_return in Hm as (xw & Hxw & Hm).
  apply bind_return in Hm as (qy & Hqy & Hm).
  apply bind_return in Hm as (yw & Hyw & Hm).
  apply bind_return in Hm as (ob & Hob & Hm).
  injection Hm as <-. injection Hself as <-. simpl.
  exists mnx, mny, mxx, mxy, qx, qy. repeat split; assumption.
Qed.

(** The cell [(ix, iy)] of the array holds what the loop over the
    obstacles returned for the position of the cell. *)
Lemma obmap_at_computed (ix iy : Z) :
  0 <= ix < xwidth self -> 0 <= iy < ywidth self ->
  exists x y b,
    calc_position self ix (minx self) = Num.Return x /\
    calc_position self iy (miny self) = Num.Return y /\
    near_obstacle square rr0 (combine ox oy) x y = Num.Return b /\
    obmap_at self ix iy = Num.Return b.
Proof.
  intros Hx Hy.
  destruct init_return as (mnx & mny & mxx & mxy & qx & qy & _ & _ & _ & _ &
                           _ & _ & _ & _ & _ & _ & _ & _ & Hreso & _ & Hob).
  destruct (for_each_range _ _ _ Hob ix Hx) as (row & Hrow & Hirow).
  apply bind_return in Hrow as (x & Hpx & Hrow).
  destruct (for_each_range _ _ _ Hrow iy Hy) as (b & Hb & Hib).
  apply bind_return in Hb as (y & Hpy & Hb).
  exists x, y, b. unfold calc_position, obmap_at. rewrite Hreso, Hirow.
  simpl. auto.
Qed.

End Built.

(** The loop over the obstacles answers [True] exactly when the test of
    some obstacle does. *)
Lemma near_obstacle_true (square : Float.t -> Num.res Float.t) (rr0 : Num.t)
    (obstacles : list (Num.t * Num.t)) (x y : Num.t) (b : bool) :
  near_obstacle square rr0 obstacles x y = Num.Return b ->
  (b = true <->
   exists o, In o obstacles /\ within square rr0 o x y = Num.Return true).
Proof.
  revert b. induction obstacles as [|o rest IH]; simpl; intros b H.
  - injection H as <-. split; [discriminate|]. now intros [o [[] _]].
  - apply bind_return in H as (c & Hc & H). destruct c.
    + injection H as <-. split; [|reflexivity]. intros _. exists o. auto.
    + rewrite (IH b H). split.
      * intros [o' [Hin Hw]]. exists o'. auto.
      * intros [o' [[->|Hin] Hw]]; [congruence|]. exists o'. auto.
Qed.

End DoubleGridFacts.

(* ===================================================================== *)
(** * The order of the doubles *)
(* ===================================================================== *)

Module FloatFacts.
Import Py PyFacts.
Import Float.

(** Comparisons of doubles as statements about rationals. *)
Ltac order :=
  repeat match goal with
         | x : Float.t |- _ => destruct x as [?q|[|]|]
         end;
  cbn [ltb leb is_nan negb andb orb] in *;
  try discriminate; try reflexivity;
  repeat match goal with
         | H : Qltb _ _ = true |- _ => apply Qltb_spec in H
         | H : Qltb _ _ = false |- _ => apply Qltb_false in H
         | H : Qleb _ _ = true |- _ => apply Qleb_spec in H
         | H : Qleb _ _ = false |- _ => apply Qleb_false in H
         end;
  try match goal with
      | |- Qltb _ _ = true => apply Qltb_spec
      | |- Qltb _ _ = false => apply Qltb_false
      | |- Qleb _ _ = true => apply Qleb_spec
      | |- Qleb _ _ = false => apply Qleb_false
      end;
  try qlra.

Lemma ltb_irrefl (x : t) : ltb x x = false.
Proof. order. Qed.

Lemma ltb_trans (x y z : t) :
  ltb x y = true -> ltb y z = true -> ltb x z = true.
Proof. intros H1 H2. order. Qed.

(** What is not below [m] is not below anything below [m]. *)
Lemma ltb_above (a q m : t) :
  ltb q m = true -> ltb a m = false -> ltb a q = false.
Proof. intros H1 H2. order. Qed.

Lemma ltb_leb (x y : t) : ltb x y = true -> leb x y = true.
Proof. intro H. order. Qed.

(** On doubles that are no NaN the order is total. *)
Lemma leb_total (x y : t) :
  is_nan x = false -> is_nan y = false -> ltb y x = false -> leb x y = true.
Proof. intros Hx Hy H. order. Qed.

Lemma leb_ltb (x y : t) : leb x y = true -> ltb y x = false.
Proof. intro H. order. Qed.

Lemma leb_refl (x : t) : is_nan x = false -> leb x x = true.
Proof. intro H. order. Qed.

Lemma leb_trans (x y z : t) :
  leb x y = true -> leb y z = true -> leb x z = true.
Proof. intros H1 H2. order. Qed.

Lemma ltb_leb_trans (x y z : t) :
  ltb x y = true -> leb y z = true -> ltb x z = true.
Proof. intros H1 H2. order. Qed.

End FloatFacts.

Module MinFacts.
Import Py PyFacts FloatFacts ArithFacts.
Import Num Arith.

(** The scan of [min] ends on a member that no scanned number is below,
    whatever the order of the list and whether or not it holds a NaN. *)
Lemma min_from_least (l : list Num.t) :
  forall (m : Num.t) (seen : list Num.t),
    Forall (fun a => lt a m = false) seen ->
    In m seen ->
    In (min_from m l) (seen ++ l) /\
    Forall (fun a => lt a (min_from m l) = false) (seen ++ l).
Proof.
  induction l as [|q l IH]; intros m seen Hseen Hin; simpl.
  - rewrite app_nil_r. auto.
  - replace (seen ++ q :: l) with ((seen ++ [q]) ++ l)
      by (rewrite <- app_assoc; reflexivity).
    destruct (lt q m) eqn:E.
    + apply IH.
      * apply Forall_app. split.
        -- eapply Forall_impl; [|exact Hseen]. intros a Ha.
           unfold lt in *. eapply ltb_above; eauto.
        -- constructor; [apply ltb_irrefl|constructor].
      * apply in_or_app. right. now left.
    + apply IH.
      * apply Forall_app. split; [assumption|].
        constructor; [assumption|constructor].
      * apply in_or_app. now left.
Qed.

Lemma max_from_greatest (l : list Num.t) :
  forall (m : Num.t) (seen : list Num.t),
    Forall (fun a => gt a m = false) seen ->
    In m seen ->
    In (max_from m l) (seen ++ l) /\
    Forall (fun a => gt a (max_from m l) = false) (seen ++ l).
Proof.
  induction l as [|q l IH]; intros m seen Hseen Hin; simpl.
  - rewrite app_nil_r. auto.
  - replace (seen ++ q :: l) with ((seen ++ [q]) ++ l)
      by (rewrite <- app_assoc; reflexivity).
    destruct (gt q m) eqn:E.
    + apply IH.
      * apply Forall_app. split.
        -- eapply Forall_impl; [|exact Hseen]. intros a Ha.
           unfold gt, lt in *.
           destruct (Float.ltb (exact q) (exact a)) eqn:F; [|reflexivity].
           rewrite (ltb_trans _ _ _ E F) in Ha. discriminate.
        -- constructor; [apply ltb_irrefl|constructor].
      * apply in_or_app. right. now left.
    + apply IH.
      * apply Forall_app. split; [assumption|].
        constructor; [assumption|constructor].
      * apply in_or_app. now left.
Qed.

Lemma min_return (l : list Num.t) (m : Num.t) :
  Arith.min l = Num.Return m ->
  In m l /\ Forall (fun a => lt a m = false) l.
Proof.
  destruct l as [|q l]; simpl; [discriminate|]. intros [= <-].
  apply (min_from_least l q [q]).
  - constructor; [apply ltb_irrefl|constructor].
  - now left.
Qed.

Lemma max_return (l : list Num.t) (m : Num.t) :
  Arith.max l = Num.Return m ->
  In m l /\ Forall (fun a => gt a m = false) l.
Proof.
  destruct l as [|q l]; simpl; [discriminate|]. intros [= <-].
  apply (max_from_greatest l q [q]).
  - constructor; [apply ltb_irrefl|constructor].
  - now left.
Qed.

(** The bound that [round] makes of a least or greatest coordinate. *)
Lemma round_nearest_integer (a : Num.t) (z : Z) :
  Arith.round a = Num.Return z ->
  exists q, DoubleSpec.finite a q /\ z = Py.round q /\
            Spec.nearest_integer z q.
Proof.
  intro H. destruct (round_return a z H) as (q & Hq & ->).
  exists q. split; [exact Hq|]. split; [reflexivity|].
  split; [apply round_nearest|apply round_tie_even].
Qed.

(** A quotient is a [float]. *)
Lemma truediv_float (a b c : Num.t) :
  truediv a b = Num.Return c -> exists f, c = Flt f.
Proof.
  unfold truediv. destruct a as [x|x], b as [y|y]; intro H.
  - destruct (y =? 0); [discriminate|].
    destruct (Float.of_Q _); try discriminate; injection H as <-; eauto.
  - apply bind_return in H as (u & _ & H).
    apply bind_return in H as (v & _ & H).
    destruct (Float.is_zero v); [discriminate|injection H as <-; eauto].
  - apply bind_return in H as (u & _ & H).
    apply bind_return in H as (v & _ & H).
    destruct (Float.is_zero v); [discriminate|injection H as <-; eauto].
  - apply bind_return in H as (u & _ & H).
    apply bind_return in H as (v & _ & H).
    destruct (Float.is_zero v); [discriminate|injection H as <-; eauto].
Qed.

End MinFacts.

(** ** The claims on the occupancy grid *)

Module DoubleGridClaims.
Import Py PyFacts NumFacts FloatFacts ArithFacts MinFacts DoubleGridFacts.
Import Num Arith DoubleGraphSearch DoubleSpec DoubleExamples.

(** C5, counterexample.  On the grid of the obstacle points
    [(1.0, 2**-30)] and [(0, 3)] at resolution [1] and radius [1], the
    cell [(0, 0)], whose position is [(0, 0)], is marked, although no
    obstacle point is within the radius of it: the first one is at the
    distance [sqrt (1 + 2**-60)], which the code computes as [1.0]. *)
Lemma rounded_distance_marks_a_farther_cell :
  init square_nearest grazed_ox grazed_oy (Int 1) (Int 1) = Num.Return grazed /\
  calc_position grazed 0 (minx grazed) = Num.Return (Int 0) /\
  calc_position grazed 0 (miny grazed) = Num.Return (Int 0) /\
  obmap_at grazed 0 0 = Num.Return true /\
  ~ exists o, In o (combine grazed_ox grazed_oy) /\
              euclidean_within (Int 1) o (Int 0) (Int 0).
Proof.
  split; [vm_compute; reflexivity|]. split; [reflexivity|].
  split; [reflexivity|]. split; [reflexivity|].
  intros [o [Hin (a & b & u & v & r & Ha & Hb & Hu & Hv & Hr & Hle)]].
  unfold finite in *. simpl in Hu, Hv, Hr.
  injection Hu as <-. injection Hv as <-. injection Hr as <-.
  apply sqrt_le_spec in Hle.
  - destruct Hin as [<-|[<-|[]]]; simpl in Ha, Hb;
      injection Ha as <-; injection Hb as <-; vm_compute in Hle;
      discriminate.
  - generalize (a - inject_Z 0)%Q (b - inject_Z 0)%Q. intros p q. Lqa.nra.
Qed.

(** C5, amended.  For every cell [(ix, iy)] with [0 <= ix < xwidth] and
    [0 <= iy < ywidth] of a constructed planner the position of the cell
    is computed, the lookup [obmap[ix][iy]] succeeds, and the cell is
    marked exactly when, for at least one obstacle point of
    [zip(ox, oy)], the distance that the code computes in doubles,
    [math.sqrt((iox - x)**2 + (ioy - y)**2)], compares [<= rr]. *)
Theorem obmap_marks_cells_within_computed_radius
    (square : Float.t -> Num.res Float.t) (ox oy : list Num.t)
    (reso0 rr0 : Num.t) (self : t) (ix iy : Z) :
  init square ox oy reso0 rr0 = Num.Return self ->
  0 <= ix < xwidth self -> 0 <= iy < ywidth self ->
  exists x y occupied,
    calc_position self ix (minx self) = Num.Return x /\
    calc_position self iy (miny self) = Num.Return y /\
    obmap_at self ix iy = Num.Return occupied /\
    (occupied = true <->
     exists o, In o (combine ox oy) /\
               within square rr0 o x y = Num.Return true).
Proof.
  intros Hinit Hx Hy.
  destruct (obmap_at_computed square ox oy reso0 rr0 self Hinit ix iy Hx Hy)
    as (x & y & b & Hpx & Hpy & Hnear & Hat).
  exists x, y, b. repeat split; try assumption.
  - apply (near_obstacle_true _ _ _ _ _ _ Hnear).
  - apply (near_obstacle_true _ _ _ _ _ _ Hnear).
Qed.

Lemma obmap_marks_cells_within_computed_radius_witness :
  init square_nearest grazed_ox grazed_oy (Int 1) (Int 1) = Num.Return grazed /\
  0 <= 0 < xwidth grazed /\ 0 <= 2 < ywidth grazed /\
  exists x y occupied,
    calc_position grazed 0 (minx grazed) = Num.Return x /\
    calc_position grazed 2 (miny grazed) = Num.Return y /\
    obmap_at grazed 0 2 = Num.Return occupied /\
    (occupied = true <->
     exists o, In o (combine grazed_ox grazed_oy) /\
               within square_nearest (Int 1) o x y = Num.Return true).
Proof.
  assert (Hinit : init square_nearest grazed_ox grazed_oy (Int 1) (Int 1)
                  = Num.Return grazed) by (vm_compute; reflexivity).
  assert (Hx : 0 <= 0 < xwidth grazed) by (simpl; lia).
  assert (Hy : 0 <= 2 < ywidth grazed) by (simpl; lia).
  split; [exact Hinit|]. split; [exact Hx|]. split; [exact Hy|].
  exact (obmap_marks_cells_within_computed_radius _ _ _ _ _ _ 0 2 Hinit Hx Hy).
Defined.

(** C6, counterexample.  Two obstacle points [(0, 0)] and [(12, 12)] at
    resolution [5]: the width is [round(12 / 5) = 2], not the ceiling
    [3] of the quotient, be it the exact quotient or the double [2.4]
    that the code computes. *)
Lemma coarse_width_is_rounded_down :
  init square_nearest coarse_ox coarse_oy (Int 5) (Int 1) = Num.Return coarse /\
  xwidth coarse = 2 /\
  Qceiling (inject_Z (maxx coarse - minx coarse) / 5) = 3 /\
  (exists q,
     truediv (Int (maxx coarse - minx coarse)) (Int 5)
       = Num.Return (Flt (Float.Finite q)) /\ Qceiling q = 3) /\
  xwidth coarse <> Qceiling (inject_Z (maxx coarse - minx coarse) / 5).
Proof.
  split; [vm_compute; reflexivity|]. split; [reflexivity|].
  split; [reflexivity|]. split.
  - eexists. split; [vm_compute; reflexivity|]. reflexivity.
  - vm_compute. discriminate.
Qed.

(** C6, amended.  For every obstacle set on which the constructor
    succeeds, the bounds [minx], [maxx], [miny], [maxy] are a least and a
    greatest obstacle coordinate rounded to the nearest integer, and the
    grid dimensions are the quotient [(max - min) / resolution], as the
    double that the division returns, rounded to the nearest integer
    (ties to even): [xwidth] and [ywidth] are the ceiling of that double
    or one less. *)
Theorem grid_dimensions_round_the_quotient
    (square : Float.t -> Num.res Float.t) (ox oy : list Num.t)
    (reso0 rr0 : Num.t) (self : t) :
  init square ox oy reso0 rr0 = Num.Return self ->
  (exists mnx mny mxx mxy vnx vny vxx vxy,
     (In mnx ox /\ Forall (fun a => lt a mnx = false) ox) /\
     (In mny oy /\ Forall (fun a => lt a mny = false) oy) /\
     (In mxx ox /\ Forall (fun a => gt a mxx = false) ox) /\
     (In mxy oy /\ Forall (fun a => gt a mxy = false) oy) /\
     finite mnx vnx /\ finite mny vny /\ finite mxx vxx /\ finite mxy vxy /\
     minx self = Py.round vnx /\ Spec.nearest_integer (minx self) vnx /\
     miny self = Py.round vny /\ Spec.nearest_integer (miny self) vny /\
     maxx self = Py.round vxx /\ Spec.nearest_integer (maxx self) vxx /\
     maxy self = Py.round vxy /\ Spec.nearest_integer (maxy self) vxy) /\
  exists qx qy,
    truediv (Int (maxx self - minx self)) reso0
      = Num.Return (Flt (Float.Finite qx)) /\
    xwidth self = Py.round qx /\
    Spec.nearest_integer (xwidth self) qx /\
    Qceiling qx - 1 <= xwidth self <= Qceiling qx /\
    truediv (Int (maxy self - miny self)) reso0
      = Num.Return (Flt (Float.Finite qy)) /\
    ywidth self = Py.round qy /\
    Spec.nearest_integer (ywidth self) qy /\
    Qceiling qy - 1 <= ywidth self <= Qceiling qy.
Proof.
  intro Hinit.
  destruct (init_return square ox oy reso0 rr0 self Hinit)
    as (mnx & mny & mxx & mxy & qx & qy & Hmnx & Hminx & Hmny & Hminy &
        Hmxx & Hmaxx & Hmxy & Hmaxy & Hqx & Hxw & Hqy & Hyw & _).
  destruct (round_nearest_integer _ _ Hminx) as (vnx & Fnx & Enx & Nnx).
  destruct (round_nearest_integer _ _ Hminy) as (vny & Fny & Eny & Nny).
  destruct (round_nearest_integer _ _ Hmaxx) as (vxx & Fxx & Exx & Nxx).
  destruct (round_nearest_integer _ _ Hmaxy) as (vxy & Fxy & Exy & Nxy).
  split.
  - exists mnx, mny, mxx, mxy, vnx, vny, vxx, vxy.
    split; [now apply min_return|]. split; [now apply min_return|].
    split; [now apply max_return|]. split; [now apply max_return|].
    repeat split; first [assumption | apply Nnx | apply Nny | apply Nxx
                        | apply Nxy].
  - destruct (truediv_float _ _ _ Hqx) as [fx ->].
    destruct (truediv_float _ _ _ Hqy) as [fy ->].
    destruct (round_nearest_integer _ _ Hxw) as (vx & Fx & Ex & Nx).
    destruct (round_nearest_integer _ _ Hyw) as (vy & Fy & Ey & Ny).
    unfold finite in Fx, Fy. simpl in Fx, Fy. subst fx fy.
    exists vx, vy. rewrite Ex, Ey.
    repeat split; first [ assumption | apply round_nearest
                        | apply round_tie_even | apply round_le_ceiling ].
Qed.

Lemma grid_dimensions_round_the_quotient_witness :
  init square_nearest coarse_ox coarse_oy (Int 5) (Int 1) = Num.Return coarse /\
  exists qx qy,
    truediv (Int (maxx coarse - minx coarse)) (Int 5)
      = Num.Return (Flt (Float.Finite qx)) /\
    xwidth coarse = Py.round qx /\
    Spec.nearest_integer (xwidth coarse) qx /\
    Qceiling qx - 1 <= xwidth coarse <= Qceiling qx /\
    truediv (Int (maxy coarse - miny coarse)) (Int 5)
      = Num.Return (Flt (Float.Finite qy)) /\
    ywidth coarse = Py.round qy /\
    Spec.nearest_integer (ywidth coarse) qy /\
    Qceiling qy - 1 <= ywidth coarse <= Qceiling qy.
Proof.
  assert (Hinit : init square_nearest coarse_ox coarse_oy (Int 5) (Int 1)
                  = Num.Return coarse) by (vm_compute; reflexivity).
  split; [exact Hinit|].
  exact (proj2 (grid_dimensions_round_the_quotient _ _ _ _ _ _ Hinit)).
Defined.

End DoubleGridClaims.

(* ===================================================================== *)
(** * The selection of [planning] on double costs *)
(* ===================================================================== *)

Module DoubleSelectFacts.
Import Py PyFacts DictFacts FloatFacts.
Import Num DoubleSearch.

(** The scan keeps the first of the cheapest items: everything before it
    costs more, nothing after it costs less. *)
Lemma min_cost_from_first (d : dict Node) :
  forall (best : Z * Node) (l1 l2 : dict Node),
    no_nan (l1 ++ best :: l2 ++ d) ->
    (forall e, In e l1 -> lt (cost (snd best)) (cost (snd e)) = true) ->
    (forall e, In e l2 -> lt (cost (snd e)) (cost (snd best)) = false) ->
    exists l1' l2',
      l1 ++ best :: l2 ++ d = l1' ++ min_cost_from best d :: l2' /\
      (forall e, In e l1' ->
         lt (cost (snd (min_cost_from best d))) (cost (snd e)) = true) /\
      (forall e, In e l2' ->
         lt (cost (snd e)) (cost (snd (min_cost_from best d))) = false).
Proof.
  induction d as [|e d IH]; intros best l1 l2 Hnan H1 H2; simpl.
  - exists l1, l2. rewrite app_nil_r. auto.
  - assert (Hbest : is_nan (cost (snd best)) = false).
    { apply Hnan. apply in_elt. }
    destruct (lt (cost (snd e)) (cost (snd best))) eqn:E.
    + destruct (IH e (l1 ++ best :: l2) []) as (l1' & l2' & Heq & Ha & Hb).
      * simpl. rewrite <- app_assoc. exact Hnan.
      * intros e' Hin. unfold lt in *.
        apply in_app_or in Hin as [Hin|[<-|Hin]].
        -- eapply ltb_trans; eauto.
        -- assumption.
        -- assert (He' : is_nan (cost (snd e')) = false).
           { apply Hnan. apply in_or_app. right. right.
             apply in_or_app. now left. }
           eapply ltb_leb_trans; [exact E|].
           apply leb_total; auto.
      * intros e' [].
      * exists l1', l2'. split; [|auto].
        rewrite <- Heq. rewrite <- app_assoc. reflexivity.
    + destruct (IH best l1 (l2 ++ [e])) as (l1' & l2' & Heq & Ha & Hb).
      * rewrite <- app_assoc. exact Hnan.
      * assumption.
      * intros e' Hin. apply in_app_or in Hin as [Hin|[<-|[]]]; auto.
      * exists l1', l2'. split; [|auto].
        rewrite <- Heq. rewrite <- app_assoc. reflexivity.
Qed.

Lemma min_cost_first (d : dict Node) :
  d <> [] -> no_nan d ->
  exists l1 k n l2,
    min_cost d = Return k /\
    d = l1 ++ (k, n) :: l2 /\
    (forall e, In e l1 -> lt (cost n) (cost (snd e)) = true) /\
    (forall e, In e l2 -> lt (cost (snd e)) (cost n) = false).
Proof.
  destruct d as [|e d]; [congruence|]. intros _ Hnan.
  destruct (min_cost_from_first d e [] [] Hnan) as (l1 & l2 & Heq & Ha & Hb);
    try (intros ? []).
  simpl in Heq.
  exists l1, (fst (min_cost_from e d)), (snd (min_cost_from e d)), l2.
  rewrite <- surjective_pairing. auto.
Qed.

Lemma del_keys {V W : Type} (d : dict V) (d' : dict W) (k : Z) :
  keys d = keys d' -> keys (del d k) = keys (del d' k).
Proof.
  revert d'. induction d as [|[k0 v0] d IH]; intros [|[k1 w1] d'] H;
    simpl in *; try discriminate; [reflexivity|].
  injection H as -> H. destruct (k1 =? k); simpl; [assumption|].
  f_equal. auto.
Qed.

Lemma del_sorted (d : dict nat) (k : Z) :
  StronglySorted Nat.lt (map snd d) ->
  StronglySorted Nat.lt (map snd (del d k)).
Proof.
  induction d as [|[k0 t0] d IH]; simpl; intro H; [constructor|].
  inversion H as [|? ? Hs Hf]; subst.
  destruct (k0 =? k); simpl; [assumption|].
  constructor; [auto|].
  clear - Hf. induction d as [|[k1 t1] d IH]; simpl in *; [constructor|].
  inversion Hf; subst. destruct (k1 =? k); simpl; auto.
Qed.

Lemma del_times (d : dict nat) (k : Z) (now : nat) :
  Forall (fun t => (t < now)%nat) (map snd d) ->
  Forall (fun t => (t < now)%nat) (map snd (del d k)).
Proof.
  induction d as [|[k0 t0] d IH]; simpl; intro H; [constructor|].
  inversion H; subst. destruct (k0 =? k); simpl; auto.
Qed.

(** A run of statements keeps them together. *)
Lemma run_timed (ss : list statement) :
  forall now openset inserted openset' inserted',
    timed now openset inserted ->
    run now openset inserted ss = Return (openset', inserted') ->
    exists now', timed now' openset' inserted'.
Proof.
  induction ss as [|[k n|k] ss IH];
    intros now openset inserted openset' inserted' Ht H; simpl in H.
  - injection H as <- <-. eauto.
  - apply (IH _ _ _ _ _) in H; [assumption|].
    destruct Ht as (Hk & Hnd & Hs & Hf).
    destruct (mem k openset) eqn:E.
    + apply mem_true in E. split; [|split; [|split]].
      * now rewrite keys_set_old.
      * now rewrite keys_set_old.
      * assumption.
      * eapply Forall_impl; [|exact Hf]. intros; simpl in *; lia.
    + apply mem_false in E.
      assert (E' : ~ In k (keys inserted)) by now rewrite <- Hk.
      rewrite (set_new openset k n E), (set_new inserted k now E').
      unfold timed, keys in *. rewrite !map_app. simpl.
      split; [now rewrite Hk|]. split; [|split].
      * apply NoDup_app; [assumption|repeat constructor; tauto|].
        intros a Ha [<-|[]]. contradiction.
      * clear - Hs Hf. induction (map snd inserted) as [|t l IH]; simpl.
        -- repeat constructor.
        -- inversion Hs; subst. inversion Hf; subst.
           constructor; [auto|]. apply Forall_app. split; [assumption|].
           repeat constructor. assumption.
      * apply Forall_app. split.
        -- eapply Forall_impl; [|exact Hf]. intros; simpl in *; lia.
        -- repeat constructor.
  - destruct (mem k openset) eqn:E; [|discriminate].
    apply (IH _ _ _ _ _) in H; [assumption|].
    destruct Ht as (Hk & Hnd & Hs & Hf).
    split; [now apply del_keys|]. split; [now apply NoDup_del|].
    split; [now apply del_sorted|].
    apply del_times. eapply Forall_impl; [|exact Hf].
    intros; simpl in *; lia.
Qed.

(** In a timed pair, an item further along the list was inserted
    later. *)
Lemma timed_order (l1 l2 : dict Node) (k k' : Z) (n n' : Node)
    (inserted : dict nat) (now t t' : nat) :
  timed now (l1 ++ (k, n) :: l2) inserted ->
  In (k', n') l2 ->
  get inserted k = Some t -> get inserted k' = Some t' ->
  (t < t')%nat.
Proof.
  intros (Hk & Hnd & Hs & _) Hin Hg Hg'.
  revert inserted Hk Hs Hg Hg'.
  induction l1 as [|[k0 n0] l1 IH]; intros [|[k1 t1] ins] Hk Hs Hg Hg';
    simpl in *; try discriminate.
  - injection Hk as <- Hk.
    rewrite Z.eqb_refl in Hg. injection Hg as <-.
    inversion Hnd as [|? ? Hnot Hnd']; subst.
    assert (Hne : k <> k').
    { intros <-. apply Hnot. change k with (fst (k, n')). now apply in_map. }
    apply Z.eqb_neq in Hne. rewrite Hne in Hg'.
    inversion Hs as [|? ? _ Hf]; subst.
    rewrite Forall_forall in Hf. apply Hf.
    apply get_In in Hg'. change t' with (snd (k', t')). now apply in_map.
  - injection Hk as <- Hk.
    inversion Hnd as [|? ? Hnot Hnd']; subst.
    inversion Hs as [|? ? Hs' _]; subst.
    assert (Hne : k0 <> k).
    { intros ->. apply Hnot. unfold keys. rewrite map_app. apply in_or_app.
      right. now left. }
    assert (Hne' : k0 <> k').
    { intros ->. apply Hnot. unfold keys. rewrite map_app. apply in_or_app.
      right. right. change k' with (fst (k', n')). now apply in_map. }
    apply Z.eqb_neq in Hne, Hne'. rewrite Hne in Hg. rewrite Hne' in Hg'.
    eapply IH; eauto.
Qed.

(** Whatever statements [openset[k] = node] and [del openset[k]] have
    built the open set, [min] returns a key whose cost no other key
    undercuts, and among the keys of that least cost the one that was
    inserted first; no other key answers this description. *)
Lemma min_cost_first_cheapest
    (ss : list statement) (openset : dict Node) (inserted : dict nat) :
  run 0 [] [] ss = Return (openset, inserted) ->
  openset <> [] ->
  no_nan openset ->
  exists c_id,
    min_cost openset = Return c_id /\
    first_cheapest openset inserted c_id /\
    forall k, first_cheapest openset inserted k -> k = c_id.
Proof.
  intros Hrun Hne Hnan.
  assert (H0 : timed 0 [] []).
  { repeat split; simpl; constructor. }
  destruct (run_timed ss _ _ _ _ _ H0 Hrun) as [now Ht].
  destruct (min_cost_first openset Hne Hnan)
    as (l1 & k & n & l2 & Hmin & Heq & Ha & Hb).
  pose proof Ht as (Hk & Hnd & _).
  assert (Hg : get openset k = Some n).
  { apply In_get; [assumption|]. rewrite Heq. apply in_elt. }
  assert (Hgt : exists t, get inserted k = Some t).
  { apply keys_get. rewrite <- Hk. eapply get_keys; eauto. }
  destruct Hgt as [t Hgt].
  assert (Hn : is_nan (cost n) = false).
  { apply (Hnan (k, n)). rewrite Heq. apply in_elt. }
  assert (Hleast : forall k' n', get openset k' = Some n' ->
                     le (cost n) (cost n') = true).
  { intros k' n' Hg'. apply get_In in Hg'.
    assert (Hn' : is_nan (cost n') = false) by (apply (Hnan (k', n')); auto).
    rewrite Heq in Hg'. unfold le, lt in *.
    apply in_app_or in Hg' as [Hin|[E|Hin]].
    - apply ltb_leb. exact (Ha _ Hin).
    - injection E as <- <-. now apply leb_refl.
    - apply leb_total; auto. exact (Hb _ Hin). }
  assert (Hfirst : forall k' n' t', get openset k' = Some n' ->
                     get inserted k' = Some t' -> k' <> k ->
                     le (cost n') (cost n) = true -> (t < t')%nat).
  { intros k' n' t' Hg' Hgt' Hneq Hle. apply get_In in Hg'.
    rewrite Heq in Hg'. rewrite Heq in Ht.
    apply in_app_or in Hg' as [Hin|[E|Hin]].
    - specialize (Ha _ Hin). simpl in Ha. unfold le, lt in *.
      apply leb_ltb in Hle. congruence.
    - injection E as <- <-. congruence.
    - eapply timed_order; eauto. }
  exists k. split; [assumption|]. split.
  - exists n, t. auto.
  - intros k' (n' & t' & Hg' & Hgt' & Hleast' & Hfirst').
    destruct (Z.eq_dec k' k) as [|Hneq]; [assumption|]. exfalso.
    pose proof (Hfirst k' n' t' Hg' Hgt' Hneq (Hleast' _ _ Hg)) as H1.
    assert (Hneq' : k <> k') by congruence.
    pose proof (Hfirst' k n t Hg Hgt Hneq' (Hleast _ _ Hg')) as H2.
    lia.
Qed.


(** A run of statements can be cut in two. *)
Lemma run_app (ss1 ss2 : list statement) :
  forall now openset inserted,
    run now openset inserted (ss1 ++ ss2)
    = (r <~ run now openset inserted ss1 ;;
       run (now + length ss1) (fst r) (snd r) ss2).
Proof.
  induction ss1 as [|[k n|k] ss1 IH]; intros now openset inserted; simpl.
  - now rewrite Nat.add_0_r.
  - rewrite IH. now replace (S now + length ss1)%nat
                      with (now + S (length ss1))%nat by lia.
  - destruct (mem k openset); [|reflexivity].
    rewrite IH. now replace (S now + length ss1)%nat
                      with (now + S (length ss1))%nat by lia.
Qed.

(** The statements of the [for] loop make its open set. *)
Lemma expand_run (self : DoubleGraphSearch.t) (current : Node) (c_id : Z)
    (closed : dict Node) (ms : list DoubleGraphSearch.motion_t) :
  forall openset openset',
    expand self current c_id closed ms openset = Return openset' ->
    exists ss,
      expand_statements self current c_id closed ms openset = Return ss /\
      forall now inserted, exists inserted',
        run now openset inserted ss = Return (openset', inserted').
Proof.
  induction ms as [|m ms IH]; intros openset openset' H; simpl in *.
  - injection H as <-. exists []. split; [reflexivity|]. simpl. eauto.
  - destruct (neighbour current c_id m) as [node| |]; simpl in *;
      try discriminate.
    destruct (mem _ closed); [now apply IH|].
    destruct (DoubleGraphSearch.verify_node self (x node) (y node))
      as [ok| |]; simpl in *; try discriminate.
    destruct ok; simpl in *; [|now apply IH].
    destruct (mem _ openset) eqn:E; simpl in *.
    + destruct (lookup openset _) as [old| |]; simpl in *; try discriminate.
      destruct (gt (cost old) (cost node)); [|now apply IH].
      destruct (IH _ _ H) as (ss & -> & Hrun). simpl.
      eexists. split; [reflexivity|]. intros now inserted. simpl.
      apply Hrun.
    + destruct (IH _ _ H) as (ss & -> & Hrun). simpl.
      eexists. split; [reflexivity|]. intros now inserted. simpl.
      apply Hrun.
Qed.

(** What a pass through the loop body that goes round again has done. *)
Lemma step_continue (self : DoubleGraphSearch.t) (ngoal : Node)
    (st st' : state) :
  step self ngoal st = Return (Continue st') ->
  exists c_id current,
    min_cost (openset st) = Return c_id /\
    lookup (openset st) c_id = Return current /\
    closedset st' = Py.set (closedset st) c_id current /\
    expand self current c_id (closedset st') (DoubleGraphSearch.motion self)
           (del (openset st) c_id) = Return (openset st').
Proof.
  unfold step. intro H.
  destruct (min_cost (openset st)) as [c_id| |] eqn:Hmin; simpl in H;
    try discriminate.
  destruct (lookup (openset st) c_id) as [current| |] eqn:Hlook; simpl in H;
    try discriminate.
  destruct (DoubleGraphSearch.calc_position self (x current) _) as [px| |];
    simpl in H; try discriminate.
  destruct (DoubleGraphSearch.calc_position self (y current) _) as [py| |];
    simpl in H; try discriminate.
  destruct ((x current =? x ngoal) && (y current =? y ngoal));
    [discriminate|].
  destruct (expand _ _ _ _ _ _) as [os| |] eqn:E; simpl in H;
    try discriminate.
  injection H as <-. simpl. exists c_id, current.
  repeat split; try reflexivity; assumption.
Qed.

Lemma step_breaks (self : DoubleGraphSearch.t) (ngoal ngoal' : Node)
    (st st' : state) :
  step self ngoal st = Return (Break ngoal' st') ->
  exists c_id current,
    min_cost (openset st) = Return c_id /\
    lookup (openset st) c_id = Return current /\
    x current = x ngoal /\ y current = y ngoal /\
    x ngoal' = x ngoal /\ y ngoal' = y ngoal /\
    cost ngoal' = cost current /\ pind ngoal' = pind current.
Proof.
  unfold step. intro H.
  destruct (min_cost (openset st)) as [c_id| |] eqn:Hmin; simpl in H;
    try discriminate.
  destruct (lookup (openset st) c_id) as [current| |] eqn:Hlook; simpl in H;
    try discriminate.
  destruct (DoubleGraphSearch.calc_position self (x current) _) as [px| |];
    simpl in H; try discriminate.
  destruct (DoubleGraphSearch.calc_position self (y current) _) as [py| |];
    simpl in H; try discriminate.
  destruct ((x current =? x ngoal) && (y current =? y ngoal)) eqn:E.
  - injection H as <- <-. simpl. apply andb_true_iff in E as [Ex Ey].
    apply Z.eqb_eq in Ex, Ey. exists c_id, current. auto 10.
  - destruct (expand _ _ _ _ _ _); simpl in H; discriminate.
Qed.

Lemma lookup_get (d : dict Node) (k : Z) (n : Node) :
  lookup d k = Return n <-> get d k = Some n.
Proof.
  unfold lookup. destruct (get d k); split; congruence.
Qed.

(** The open set of a state of the loop is what its statements make. *)
Lemma reaches_run (self : DoubleGraphSearch.t) (nstart ngoal : Node)
    (ss : list statement) (st : state) :
  reaches self nstart ngoal ss st ->
  exists inserted, run 0 [] [] ss = Return (openset st, inserted).
Proof.
  induction 1 as [|ss st c_id current ss' st' Hr [ins IH] Hmin Hlook Hss Hstep].
  - simpl. eauto.
  - destruct (step_continue _ _ _ _ Hstep)
      as (c & cur & Hmin' & Hlook' & Hcl & Hex).
    assert (c = c_id) by congruence. subst c.
    assert (cur = current) by congruence. subst cur.
    destruct (expand_run _ _ _ _ _ _ _ Hex) as (ss0 & Hss0 & Hrun).
    rewrite Hcl in Hss0.
    assert (ss0 = ss') by congruence. subst ss0.
    rewrite run_app, IH. cbn [bind fst snd run].
    assert (Hmem : mem c_id (openset st) = true).
    { unfold mem. apply lookup_get in Hlook. now rewrite Hlook. }
    rewrite Hmem. apply Hrun.
Qed.

End DoubleSelectFacts.

(* ===================================================================== *)
(** * The costs of [planning] *)
(* ===================================================================== *)

Module DoubleCostFacts.
Import Py PyFacts DictFacts FloatFacts ArithFacts DoubleSelectFacts.
Import Num Arith DoubleGraphSearch DoubleSearch.

Lemma pow2_pos (e : Z) : (0 < Float.pow2 e)%Q.
Proof.
  unfold Float.pow2. destruct e as [|p|p]; try reflexivity.
  change 0%Q with (inject_Z 0). rewrite <- Zlt_Qlt.
  apply Z.pow_pos_nonneg; lia.
Qed.

Lemma round_nonneg (q : Q) : (0 <= q)%Q -> 0 <= Py.round q.
Proof.
  intro Hq. pose proof (round_nearest q) as H.
  apply Qabs_Qle_condition in H as [H _].
  assert (Hz : (inject_Z (-1) < inject_Z (Py.round q))%Q).
  { change (inject_Z (-1)) with (-1 # 1)%Q. qlra. }
  rewrite <- Zlt_Qlt in Hz. lia.
Qed.

(** Rounding keeps what is not negative so. *)
Lemma nearest_nonneg (q : Q) : (0 <= q)%Q -> (0 <= Float.nearest q)%Q.
Proof.
  intro Hq. unfold Float.nearest.
  destruct (Qeq_bool q 0); [qlra|].
  rewrite Qred_correct.
  apply Qmult_le_0_compat; [|apply Qlt_le_weak, pow2_pos].
  change 0%Q with (inject_Z 0). rewrite <- Zle_Qle. apply round_nonneg.
  apply Qle_shift_div_l; [apply pow2_pos|]. qlra.
Qed.

Lemma of_Q_nonneg (q : Q) : (0 <= q)%Q -> Float.nonneg (Float.of_Q q).
Proof.
  intro Hq. unfold Float.of_Q.
  destruct (Qle_bool _ _).
  - left. unfold Float.negative.
    assert (E : Qltb q 0 = false) by (apply Qltb_false; assumption).
    now rewrite E.
  - right. eexists. split; [reflexivity|]. now apply nearest_nonneg.
Qed.

Lemma add_nonneg (f g : Float.t) :
  Float.nonneg f -> Float.nonneg g -> Float.nonneg (Float.add f g).
Proof.
  intros [->|(p & -> & Hp)] [->|(q & -> & Hq)]; simpl.
  - now left.
  - now left.
  - now left.
  - apply of_Q_nonneg. qlra.
Qed.

(** The cost of a neighbour is a cost again. *)
Lemma neighbour_cost_nonneg (current node : Node) (c_id : Z) (m : motion_t) :
  In m get_motion_model ->
  is_cost (cost current) ->
  neighbour current c_id m = Return node ->
  is_cost (cost node).
Proof.
  intros Hm (f & Hf & Hnn) H.
  assert (Hc : exists g, to_float (snd m) = Return g /\ Float.nonneg g).
  { unfold get_motion_model in Hm. simpl in Hm.
    repeat (destruct Hm as [<-|Hm];
            [eexists; split; [vm_compute; reflexivity|];
             right; eexists; split; [reflexivity|discriminate]|]).
    destruct Hm. }
  destruct Hc as (g & Hg & Hgn).
  destruct m as [[dx dy] c]. unfold neighbour in H. simpl in Hg.
  rewrite Hf in H. unfold add in H.
  assert (E : (x <~ to_float (Flt f) ;; y <~ to_float c ;;
               Return (Flt (Float.add x y)))
              = Return (Flt (Float.add f g))).
  { simpl. rewrite Hg. reflexivity. }
  destruct c as [z|h]; rewrite E in H; simpl in H; injection H as <-;
    simpl; exists (Float.add f g); split; try reflexivity;
    now apply add_nonneg.
Qed.

Lemma In_set {V : Type} (d : dict V) (k : Z) (v : V) (e : Z * V) :
  In e (Py.set d k v) -> e = (k, v) \/ In e d.
Proof.
  induction d as [|[k0 v0] d IH]; simpl.
  - intros [<-|[]]. now left.
  - destruct (k0 =? k); simpl; intros [<-|H]; auto.
    destruct (IH H); auto.
Qed.

Lemma In_del {V : Type} (d : dict V) (k : Z) (e : Z * V) :
  In e (del d k) -> In e d.
Proof.
  induction d as [|[k0 v0] d IH]; simpl; [tauto|].
  destruct (k0 =? k); simpl; [auto|]. intros [<-|H]; auto.
Qed.

Lemma expand_costs (self : DoubleGraphSearch.t) (current : Node) (c_id : Z)
    (closed : dict Node) (ms : list motion_t) :
  (forall m, In m ms -> In m get_motion_model) ->
  is_cost (cost current) ->
  forall openset openset',
    costs openset ->
    expand self current c_id closed ms openset = Return openset' ->
    costs openset'.
Proof.
  intros Hms Hcur. induction ms as [|m ms IH]; intros openset openset' Hos H;
    simpl in H.
  - now injection H as <-.
  - assert (IH' := IH (fun m' Hin => Hms m' (or_intror Hin))).
    destruct (neighbour current c_id m) as [node| |] eqn:En; simpl in H;
      try discriminate.
    assert (Hnode : is_cost (cost node)).
    { eapply neighbour_cost_nonneg; eauto. apply Hms. now left. }
    assert (Hset : costs (Py.set openset
                            (calc_index self (x node) (y node)) node)).
    { intros e He. apply In_set in He as [->|He]; [assumption|auto]. }
    destruct (mem _ closed); [eauto|].
    destruct (verify_node self (x node) (y node)) as [ok| |]; simpl in H;
      try discriminate.
    destruct ok; simpl in H; [|eauto].
    destruct (mem _ openset); simpl in H; [|eauto].
    destruct (lookup openset _) as [old| |]; simpl in H; try discriminate.
    destruct (gt (cost old) (cost node)); eauto.
Qed.

(** Every cost of the open set of a state of the loop is a cost. *)
Lemma reaches_costs (self : DoubleGraphSearch.t) (nstart ngoal : Node)
    (ss : list statement) (st : state) :
  motion self = get_motion_model ->
  is_cost (cost nstart) ->
  reaches self nstart ngoal ss st ->
  costs (openset st).
Proof.
  intros Hmotion Hstart.
  induction 1 as [|ss st c_id current ss' st' Hr IH Hmin Hlook Hss Hstep].
  - intros e [<-|[]]. assumption.
  - destruct (step_continue _ _ _ _ Hstep)
      as (c & cur & Hmin' & Hlook' & Hcl & Hex).
    eapply expand_costs;
      [| |intros e He; apply IH; eapply In_del; exact He|exact Hex].
    + intros m Hm. now rewrite <- Hmotion.
    + apply lookup_get, get_In in Hlook'. exact (IH _ Hlook').
Qed.

Lemma is_cost_no_nan (d : dict Node) : costs d -> no_nan d.
Proof.
  intros H e He. destruct (H e He) as (f & -> & [->|(q & -> & _)]);
    reflexivity.
Qed.

End DoubleCostFacts.

(** ** The claim on the selection *)

Module SelectionClaims.
Import Py PyFacts DictFacts FloatFacts DoubleSelectFacts DoubleCostFacts.
Import Num Arith DoubleGraphSearch DoubleSearch DoubleExamples.

(** C7.  In every state of the loop of [planning], with the costs the
    doubles they are, [min(openset, key=lambda o: openset[o].cost)]
    returns a key whose cost no key of the open set undercuts and, among
    the keys of that least cost, the one that was inserted first, counted
    by the statements [openset[k] = node] and [del openset[k]] executed
    so far; no other key answers this description, so the choice leaves
    no freedom, and it is the node of this key that is closed and
    expanded or returned as the goal. *)
Theorem selection_takes_earliest_cheapest
    (self : DoubleGraphSearch.t) (nstart ngoal : Node)
    (ss : list statement) (st : state) (r : step_result) :
  motion self = get_motion_model ->
  cost nstart = Flt (Float.Finite 0) ->
  reaches self nstart ngoal ss st ->
  step self ngoal st = Return r ->
  exists inserted c_id current,
    run 0 [] [] ss = Return (openset st, inserted) /\
    min_cost (openset st) = Return c_id /\
    get (openset st) c_id = Some current /\
    first_cheapest (openset st) inserted c_id /\
    (forall k, first_cheapest (openset st) inserted k -> k = c_id) /\
    match r with
    | Continue st' => closedset st' = Py.set (closedset st) c_id current
    | Break ngoal' _ =>
        x ngoal' = x current /\ y ngoal' = y current /\
        cost ngoal' = cost current /\ pind ngoal' = pind current
    end.
Proof.
  intros Hmotion Hstart Hreach Hstep.
  destruct (reaches_run _ _ _ _ _ Hreach) as [inserted Hrun].
  assert (Hcost : is_cost (cost nstart)).
  { rewrite Hstart. eexists. split; [reflexivity|].
    right. eexists. split; [reflexivity|]. discriminate. }
  pose proof (is_cost_no_nan _ (reaches_costs _ _ _ _ _ Hmotion Hcost Hreach))
    as Hnan.
  assert (Hne : openset st <> []).
  { intro E. unfold step in Hstep. rewrite E in Hstep. discriminate. }
  destruct (min_cost_first_cheapest ss _ _ Hrun Hne Hnan)
    as (c_id & Hmin & Hfc & Huniq).
  destruct r as [ngoal' st'|st'].
  - destruct (step_breaks _ _ _ _ _ Hstep)
      as (c & current & Hmin' & Hlook & Hx & Hy & Hx' & Hy' & Hc & Hp).
    assert (c = c_id) by congruence. subst c.
    exists inserted, c_id, current. apply lookup_get in Hlook.
    repeat split; auto; congruence.
  - destruct (step_continue _ _ _ _ Hstep)
      as (c & current & Hmin' & Hlook & Hcl & _).
    assert (c = c_id) by congruence. subst c.
    exists inserted, c_id, current. apply lookup_get in Hlook.
    repeat split; auto.
Qed.

Lemma selection_takes_earliest_cheapest_witness :
  motion coarse = get_motion_model /\
  cost coarse_start = Flt (Float.Finite 0) /\
  reaches coarse coarse_start coarse_goal coarse_statements coarse_second /\
  exists r inserted c_id current,
    step coarse coarse_goal coarse_second = Return r /\
    run 0 [] [] coarse_statements = Return (openset coarse_second, inserted) /\
    min_cost (openset coarse_second) = Return c_id /\
    get (openset coarse_second) c_id = Some current /\
    first_cheapest (openset coarse_second) inserted c_id /\
    (forall k, first_cheapest (openset coarse_second) inserted k -> k = c_id).
Proof.
  assert (Hmotion : motion coarse = get_motion_model) by reflexivity.
  assert (Hstart : cost coarse_start = Flt (Float.Finite 0)) by reflexivity.
  assert (Hreach : reaches coarse coarse_start coarse_goal coarse_statements
                     coarse_second).
  { apply (reach_step coarse coarse_start coarse_goal
             [Store 0 coarse_start] (initial coarse coarse_start)
             0 coarse_start (skipn 2 coarse_statements) coarse_second).
    - apply reach_start.
    - reflexivity.
    - reflexivity.
    - vm_compute. reflexivity.
    - vm_compute. reflexivity. }
  assert (Hstep : exists r, step coarse coarse_goal coarse_second = Return r)
    by (eexists; vm_compute; reflexivity).
  destruct Hstep as [r Hstep].
  split; [exact Hmotion|]. split; [exact Hstart|]. split; [exact Hreach|].
  destruct (selection_takes_earliest_cheapest coarse coarse_start coarse_goal
              coarse_statements coarse_second r Hmotion Hstart Hreach Hstep)
    as (inserted & c_id & current & H1 & H2 & H3 & H4 & H5 & _).
  exists r, inserted, c_id, current. auto 10.
Defined.

End SelectionClaims.

(* ===================================================================== *)
(** * The nearest neighbour of [RRT] *)
(* ===================================================================== *)

Module DoubleRRTFacts.
Import Py PyFacts FloatFacts.
Import DoubleRRT.

Section Loop.
Variable power2 : Float.t -> Float.t.
Variable q : point.

(** The invariant of the loop of [find_nearest_neighbour]: after the
    nodes [pre], [index] is the first node of [pre] nearest to [q], and
    [dist_min] is as large as its distance. *)
Lemma nearest_loop_spec (ns : list (point * option Z)) :
  forall (pre : list (point * option Z)) (index : Z) (dist_min : Float.t),
    (forall n, In n (pre ++ ns) ->
               Float.is_nan (distance power2 q (fst n)) = false) ->
    (pre = [] -> index = 0 /\ dist_min = Float.Infinity false) ->
    (pre <> [] ->
     exists n, 0 <= index /\ nth_error pre (Z.to_nat index) = Some n /\
       Float.leb dist_min (distance power2 q (fst n)) = true /\
       Float.leb (distance power2 q (fst n)) dist_min = true /\
       forall j m, nth_error pre j = Some m ->
         Float.leb dist_min (distance power2 q (fst m)) = true /\
         ((j < Z.to_nat index)%nat ->
          Float.ltb dist_min (distance power2 q (fst m)) = true)) ->
    pre ++ ns <> [] ->
    first_nearest power2 (pre ++ ns) q
      (find_nearest_neighbour_loop power2 ns q (Z.of_nat (length pre))
         index dist_min).
Proof.
  induction ns as [|n ns IH]; intros pre index dist_min Hnan Hnil Hinv Hne.
  - rewrite app_nil_r in *. simpl.
    destruct (Hinv Hne) as (n & H0 & Hn & Hle & Hge & Hall).
    exists n. split; [assumption|]. split; [assumption|].
    intros j m Hm. destruct (Hall j m Hm) as [H1 H2]. split.
    + eapply leb_trans; eauto.
    + intro Hj. specialize (H2 Hj).
      destruct (distance power2 q (fst n)) as [a|[|]|], dist_min as [b|[|]|],
               (distance power2 q (fst m)) as [c|[|]|];
        cbn [Float.ltb Float.leb negb andb orb] in *;
        try discriminate; try reflexivity.
      apply Qltb_spec. apply Qltb_spec in H2. apply Qleb_spec in Hle, Hge.
      qlra.
  - assert (Hlen : Z.of_nat (length (pre ++ [n]))
                   = Z.of_nat (length pre) + 1)
      by (rewrite length_app; simpl; lia).
    assert (Happ : (pre ++ [n]) ++ ns = pre ++ n :: ns)
      by (rewrite <- app_assoc; reflexivity).
    assert (Hnth : nth_error (pre ++ [n]) (length pre) = Some n).
    { rewrite nth_error_app2 by lia. now rewrite Nat.sub_diag. }
    assert (Hpre : forall j m, nth_error (pre ++ [n]) j = Some m ->
                     (j < length pre)%nat /\ nth_error pre j = Some m
                     \/ j = length pre /\ m = n).
    { intros j m Hj. destruct (Nat.lt_ge_cases j (length pre)) as [Hlt|Hge].
      - left. split; [assumption|]. now rewrite nth_error_app1 in Hj.
      - right. rewrite nth_error_app2 in Hj by assumption.
        destruct (j - length pre)%nat as [|k] eqn:Ek; simpl in Hj.
        + split; [lia|congruence].
        + now destruct k. }
    assert (Hn : Float.is_nan (distance power2 q (fst n)) = false).
    { apply Hnan. apply in_or_app. right. now left. }
    assert (Hne' : pre ++ [n] <> []) by (destruct pre; discriminate).
    simpl. rewrite <- Hlen, <- Happ.
    destruct (Float.ltb (distance power2 q (fst n)) dist_min) eqn:Ec.
    + apply IH; [now rewrite Happ|contradiction| |now rewrite Happ].
      intros _. exists n. rewrite Nat2Z.id.
      split; [lia|]. split; [assumption|].
      split; [now apply leb_refl|]. split; [now apply leb_refl|].
      intros j m Hj. destruct (Hpre j m Hj) as [[Hlt Hm]|[-> ->]].
      * assert (Hp : pre <> [])
          by (destruct pre; [simpl in Hlt; lia|discriminate]).
        destruct (Hinv Hp) as (n0 & _ & _ & _ & _ & Hall).
        destruct (Hall j m Hm) as [H1 _].
        assert (Hlt' : Float.ltb (distance power2 q (fst n))
                                 (distance power2 q (fst m)) = true)
          by (eapply ltb_leb_trans; eauto).
        split; [now apply ltb_leb|]. intros _. assumption.
      * split; [now apply leb_refl|lia].
    + assert (Hdm : Float.is_nan dist_min = false).
      { destruct pre as [|p pre'].
        - destruct (Hnil eq_refl) as [_ ->]. reflexivity.
        - destruct (Hinv ltac:(discriminate)) as (n0 & _ & _ & Hle & _).
          destruct dist_min as [b|[|]|]; try reflexivity.
          destruct (distance power2 q (fst n0)) as [a|[|]|]; discriminate. }
      assert (Hge : Float.leb dist_min (distance power2 q (fst n)) = true)
        by (apply leb_total; assumption).
      destruct pre as [|p pre'].
      * (* the first node, at an infinite distance *)
        destruct (Hnil eq_refl) as [-> ->].
        apply IH; [now rewrite Happ|discriminate| |now rewrite Happ].
        intros _. exists n. simpl.
        assert (Hinf : distance power2 q (fst n) = Float.Infinity false).
        { destruct (distance power2 q (fst n)) as [a|[|]|];
            try discriminate; reflexivity. }
        split; [lia|]. split; [reflexivity|]. rewrite Hinf.
        split; [reflexivity|]. split; [reflexivity|].
        intros [|[|j]] m Hj; simpl in Hj; try discriminate.
        injection Hj as <-. rewrite Hinf. split; [reflexivity|]. simpl. lia.
      * destruct (Hinv ltac:(discriminate))
          as (n0 & H0 & Hn0 & Hle0 & Hge0 & Hall).
        assert (Hidx : (Z.to_nat index < length (p :: pre'))%nat)
          by (apply nth_error_Some; congruence).
        apply IH;
          [now rewrite Happ|intro E; destruct (Hne' E)| |now rewrite Happ].
        intros _. exists n0. rewrite nth_error_app1 by assumption.
        split; [assumption|]. split; [assumption|].
        split; [assumption|]. split; [assumption|].
        intros j m Hj. destruct (Hpre j m Hj) as [[Hlt Hm]|[-> ->]].
        -- now apply Hall.
        -- split; [assumption|]. lia.
Qed.

End Loop.
End DoubleRRTFacts.

Module DoubleRRTExtras.
Import Py PyFacts FloatFacts DoubleRRTFacts.
Import DoubleRRT.

(** On a tree that has a node, and when none of the distances that the
    code computes from [q] is a NaN, [find_nearest_neighbour] returns
    the index of a node whose computed distance no node undercuts, and
    every node before it is farther by the computed distance: among
    several nearest nodes it is the first. *)
Theorem nearest_neighbour_is_first_nearest
    (power2 : Float.t -> Float.t) (nodes : list (point * option Z))
    (q : point) :
  nodes <> [] ->
  (forall n, In n nodes ->
             Float.is_nan (distance power2 q (fst n)) = false) ->
  first_nearest power2 nodes q (find_nearest_neighbour power2 nodes q).
Proof.
  intros Hne Hnan.
  apply (nearest_loop_spec power2 q nodes [] 0 (Float.Infinity false)).
  - exact Hnan.
  - auto.
  - congruence.
  - exact Hne.
Qed.

Lemma nearest_neighbour_is_first_nearest_witness :
  first_nearest power2_nearest sapling (Float.Finite 4, Float.Finite (-3))
    (find_nearest_neighbour power2_nearest sapling
       (Float.Finite 4, Float.Finite (-3))).
Proof.
  apply (nearest_neighbour_is_first_nearest power2_nearest sapling
           (Float.Finite 4, Float.Finite (-3))).
  - discriminate.
  - intros n [<-|[<-|[<-|[]]]]; vm_compute; reflexivity.
Defined.

End DoubleRRTExtras.

(* ===================================================================== *)
(** * Termination of [planning] in doubles *)
(* ===================================================================== *)

Module TerminationFacts.
Import Py PyFacts DictFacts ArithFacts DoubleSelectFacts DoubleCostFacts.
Import Num Arith DoubleGraphSearch DoubleSearch DoubleInvariant.

Lemma proper_bind {A B : Type} (c : res A) (k : A -> res B) :
  proper c -> (forall a, c = Return a -> proper (k a)) -> proper (bind c k).
Proof. destruct c; simpl; auto. Qed.

Lemma to_float_proper (n : Num.t) : proper (to_float n).
Proof.
  destruct n as [z|f]; simpl; [|exact I].
  destruct (Float.of_Q (inject_Z z)); simpl; try exact I; discriminate.
Qed.

Ltac float_operands :=
  apply proper_bind; [apply to_float_proper|intros ? _];
  apply proper_bind; [apply to_float_proper|intros ? _].

Lemma add_proper (a b : Num.t) : proper (add a b).
Proof.
  destruct a, b; try exact I; unfold add; float_operands; exact I.
Qed.

Lemma sub_proper (a b : Num.t) : proper (sub a b).
Proof.
  destruct a, b; try exact I; unfold sub; float_operands; exact I.
Qed.

Lemma mul_proper (a b : Num.t) : proper (mul a b).
Proof.
  destruct a, b; try exact I; unfold mul; float_operands; exact I.
Qed.

Lemma truediv_proper (a b : Num.t) : proper (truediv a b).
Proof.
  destruct a as [x|f], b as [y|g]; unfold truediv.
  - destruct (y =? 0); [discriminate|].
    destruct (Float.of_Q _); simpl; try exact I; discriminate.
  - float_operands. destruct (Float.is_zero _); [discriminate|exact I].
  - float_operands. destruct (Float.is_zero _); [discriminate|exact I].
  - float_operands. destruct (Float.is_zero _); [discriminate|exact I].
Qed.

Lemma round_proper (a : Num.t) : proper (round a).
Proof.
  destruct a as [z|[q|s|]]; simpl; try exact I; discriminate.
Qed.

Lemma index_proper {A : Type} (l : list A) (i : Z) : proper (index l i).
Proof.
  unfold index. destruct (_ && _); [|discriminate].
  destruct (nth_error _ _); [exact I|discriminate].
Qed.

Lemma position_proper (reso0 : Num.t) (i minp : Z) :
  proper (position reso0 i minp).
Proof.
  unfold position. apply proper_bind; [apply mul_proper|intros p _].
  apply add_proper.
Qed.

Lemma calc_xyindex_proper (self : DoubleGraphSearch.t) (pos : Num.t)
    (minp : Z) :
  proper (calc_xyindex self pos minp).
Proof.
  unfold calc_xyindex. apply proper_bind; [apply sub_proper|intros d _].
  apply proper_bind; [apply truediv_proper|intros q _]. apply round_proper.
Qed.

Lemma verify_node_proper (self : DoubleGraphSearch.t) (x0 y0 : Z) :
  proper (verify_node self x0 y0).
Proof.
  unfold verify_node, calc_position.
  apply proper_bind; [apply position_proper|intros px _].
  apply proper_bind; [apply position_proper|intros py _].
  repeat (match goal with |- proper (if ?b then _ else _) => destruct b end;
          [exact I|]).
  apply proper_bind.
  - unfold obmap_at. apply proper_bind; [apply index_proper|intros row _].
    apply index_proper.
  - intros [|] _; exact I.
Qed.

Lemma neighbour_proper (current : Node) (c_id : Z) (m : motion_t) :
  proper (neighbour current c_id m).
Proof.
  destruct m as [[dx dy] c]. unfold neighbour.
  apply proper_bind; [apply add_proper|intros c' _]. exact I.
Qed.

(** An index that a list accepts lies between [-len] and [len - 1]. *)
Lemma index_return {A : Type} (l : list A) (i : Z) (a : A) :
  index l i = Return a ->
  - Z.of_nat (length l) <= i < Z.of_nat (length l) /\ In a l.
Proof.
  unfold index.
  destruct ((0 <=? _) && (_ <? _)) eqn:E; [|discriminate].
  destruct (nth_error _ _) as [a'|] eqn:Hn; [|discriminate].
  intros [= ->]. apply andb_true_iff in E as [E1 E2].
  apply Z.leb_le in E1. apply Z.ltb_lt in E2.
  split; [|eapply nth_error_In; eauto].
  destruct (i <? 0) eqn:Ei; [apply Z.ltb_lt in Ei|apply Z.ltb_ge in Ei]; lia.
Qed.

Lemma In_indices (n : nat) (i : Z) :
  In i (indices n) <-> - Z.of_nat n <= i < Z.of_nat n.
Proof.
  unfold indices. rewrite in_map_iff. split.
  - intros (j & <- & Hj). apply in_seq in Hj. lia.
  - intro H. exists (Z.to_nat (i + Z.of_nat n)). split; [lia|].
    apply in_seq. lia.
Qed.

Lemma widest_ge (rows : list (list bool)) (row : list bool) :
  In row rows -> (length row <= widest rows)%nat.
Proof.
  unfold widest. induction rows as [|r rows IH]; simpl; [contradiction|].
  intros [->|H]; [lia|]. specialize (IH H). lia.
Qed.

(** A node that [verify_node] accepts sits on a readable pair. *)
Lemma verify_node_readable (self : DoubleGraphSearch.t) (x0 y0 : Z) :
  verify_node self x0 y0 = Return true -> In (x0, y0) (readable self).
Proof.
  unfold verify_node. intro H.
  destruct (calc_position self x0 _) as [px| |]; simpl in H; try discriminate.
  destruct (calc_position self y0 _) as [py| |]; simpl in H; try discriminate.
  repeat match type of H with
         | (if ?b then _ else _) = _ => destruct b; [discriminate|]
         end.
  unfold obmap_at in H.
  destruct (index (obmap self) x0) as [row| |] eqn:Hrow; simpl in H;
    try discriminate.
  destruct (index row y0) as [occ| |] eqn:Hocc; simpl in H; try discriminate.
  apply index_return in Hrow as [Hx Hin]. apply index_return in Hocc as [Hy _].
  pose proof (widest_ge _ _ Hin) as Hw.
  unfold readable. apply in_prod; apply In_indices; lia.
Qed.

(** The scan of [min] returns one of the items. *)
Lemma min_cost_from_In (d : dict Node) :
  forall best, In (min_cost_from best d) (best :: d).
Proof.
  induction d as [|e d IH]; intro best; simpl; [now left|].
  destruct (IH (if lt (cost (snd e)) (cost (snd best)) then e else best))
    as [H|H]; [|now right; right].
  rewrite <- H. destruct (lt _ _); auto.
Qed.

Lemma min_cost_lookup (d : dict Node) (k : Z) :
  NoDup (keys d) -> min_cost d = Return k ->
  exists n, lookup d k = Return n /\ In (k, n) d.
Proof.
  intros Hnd H. destruct d as [|e d]; [discriminate|]. simpl in H.
  injection H as <-.
  pose proof (min_cost_from_In d e) as Hin.
  destruct (min_cost_from e d) as [k n]. simpl.
  exists n. split; [|assumption].
  unfold lookup. now rewrite (In_get _ _ _ Hnd Hin).
Qed.

Lemma In_keys {V : Type} (d : dict V) (k : Z) (v : V) :
  In (k, v) d -> In k (keys d).
Proof. intro H. change k with (fst (k, v)). now apply in_map. Qed.

(** What the items of the open set have in common after the [for]
    loop: a property of the old items and of every accepted
    neighbour. *)
Lemma expand_entries (self : DoubleGraphSearch.t) (current : Node) (c_id : Z)
    (closed : dict Node) (P : Z * Node -> Prop) (ms : list motion_t) :
  (forall m node,
     In m ms -> neighbour current c_id m = Return node ->
     mem (calc_index self (x node) (y node)) closed = false ->
     verify_node self (x node) (y node) = Return true ->
     P (calc_index self (x node) (y node), node)) ->
  forall open os,
    expand self current c_id closed ms open = Return os ->
    (forall e, In e open -> P e) ->
    forall e, In e os -> P e.
Proof.
  induction ms as [|m ms IH]; intros Hnew open os He Hopen; simpl in He.
  - injection He as <-. assumption.
  - assert (Hnew' : forall m0 node,
              In m0 ms -> neighbour current c_id m0 = Return node ->
              mem (calc_index self (x node) (y node)) closed = false ->
              verify_node self (x node) (y node) = Return true ->
              P (calc_index self (x node) (y node), node))
      by (intros; eapply Hnew; eauto; now right).
    destruct (neighbour current c_id m) as [node| |] eqn:Hn; simpl in He;
      try discriminate.
    destruct (mem _ closed) eqn:Hc; [eapply IH; eauto|].
    destruct (verify_node self _ _) as [[|]| |] eqn:Hv; simpl in He;
      try discriminate; [|eapply IH; eauto].
    assert (Hset : forall e, In e (set open (calc_index self (x node) (y node))
                                       node) -> P e).
    { intros e Hin. apply In_set in Hin as [->|Hin]; [|auto].
      eapply Hnew; eauto. now left. }
    destruct (negb (mem _ open)); [eapply IH; eauto|].
    destruct (lookup open _) as [old| |]; simpl in He; try discriminate.
    destruct (gt _ _); eapply IH; eauto.
Qed.

Lemma expand_NoDup (self : DoubleGraphSearch.t) (current : Node) (c_id : Z)
    (closed : dict Node) (ms : list motion_t) :
  forall open os,
    expand self current c_id closed ms open = Return os ->
    NoDup (keys open) -> NoDup (keys os).
Proof.
  induction ms as [|m ms IH]; intros open os He Hnd; simpl in He.
  - injection He as <-. assumption.
  - destruct (neighbour current c_id m) as [node| |]; simpl in He;
      try discriminate.
    destruct (mem _ closed); [eapply IH; eauto|].
    destruct (verify_node self _ _) as [[|]| |]; simpl in He;
      try discriminate; [|eapply IH; eauto].
    destruct (negb (mem _ open));
      [eapply IH; eauto; now apply NoDup_set|].
    destruct (lookup open _) as [old| |]; simpl in He; try discriminate.
    destruct (gt _ _); eapply IH; eauto. now apply NoDup_set.
Qed.

Lemma expand_proper (self : DoubleGraphSearch.t) (current : Node) (c_id : Z)
    (closed : dict Node) (ms : list motion_t) :
  forall open, proper (expand self current c_id closed ms open).
Proof.
  induction ms as [|m ms IH]; intro open; simpl; [exact I|].
  apply proper_bind; [apply neighbour_proper|intros node _].
  destruct (mem _ closed); [apply IH|].
  apply proper_bind; [apply verify_node_proper|intros [|] _]; simpl;
    [|apply IH].
  destruct (mem _ open) eqn:Hm; simpl; [|apply IH].
  apply mem_get in Hm as [old Hold]. unfold lookup. rewrite Hold. simpl.
  destruct (gt _ _); apply IH.
Qed.

Section Tidy.
Variables (self : DoubleGraphSearch.t) (nstart ngoal : Node).
Hypothesis Hstart : pind nstart = -1.

Lemma tidy_initial : tidy self nstart (initial self nstart).
Proof.
  unfold tidy, initial. simpl. repeat split.
  - constructor; [simpl; tauto|constructor].
  - constructor.
  - tauto.
  - intros k [[<-|[]]|[]]. now left.
  - intros [|e l1] k n l2 H; discriminate.
  - intros e [<-|[]]. now left.
Qed.

Lemma step_proper (st : state) :
  tidy self nstart st -> proper (step self ngoal st).
Proof.
  intros (Hno & _). unfold step.
  destruct (min_cost (openset st)) as [c_id| |] eqn:Hmin; simpl.
  - destruct (min_cost_lookup _ _ Hno Hmin) as (current & -> & _). simpl.
    apply proper_bind; [apply position_proper|intros px _].
    apply proper_bind; [apply position_proper|intros py _].
    destruct (_ && _); [exact I|].
    apply proper_bind; [apply expand_proper|intros os _]. exact I.
  - destruct (openset st); simpl in Hmin; [|discriminate].
    injection Hmin as <-. discriminate.
  - destruct (openset st); discriminate.
Qed.

(** Leaving the loop: the closed set is as it was, and the parent id of
    the goal node leads into it. *)
Lemma step_leaves (st st' : state) (ngoal' : Node) :
  tidy self nstart st ->
  step self ngoal st = Return (Break ngoal' st') ->
  closedset st' = closedset st /\ parented (closedset st) (pind ngoal').
Proof.
  intros (Hno & _ & _ & _ & _ & Hpar). unfold step. intro H.
  destruct (min_cost (openset st)) as [c_id| |] eqn:Hmin; simpl in H;
    try discriminate.
  destruct (min_cost_lookup _ _ Hno Hmin) as (current & Hl & Hin).
  rewrite Hl in H. simpl in H.
  destruct (calc_position self (x current) _) as [px| |];
    simpl in H; try discriminate.
  destruct (calc_position self (y current) _) as [py| |];
    simpl in H; try discriminate.
  destruct (_ && _).
  - injection H as <- <-. simpl. split; [reflexivity|].
    apply (Hpar _ Hin).
  - destruct (expand _ _ _ _ _ _); simpl in H; discriminate.
Qed.

(** Going round: one more node is closed, and the state stays tidy. *)
Lemma step_tidy (st st' : state) :
  tidy self nstart st ->
  step self ngoal st = Return (Continue st') ->
  tidy self nstart st' /\
  length (closedset st') = S (length (closedset st)).
Proof.
  intros (Hno & Hnc & Hdis & Hkeys & Hch & Hpar) H.
  destruct (step_continue _ _ _ _ H) as (c_id & current & Hmin & Hl & Hcl & He).
  destruct (min_cost_lookup _ _ Hno Hmin) as (current' & Hl' & Hin).
  assert (current' = current) by congruence. subst current'.
  assert (Hk : In c_id (keys (openset st))) by (eapply In_keys; eauto).
  assert (Hnew : ~ In c_id (keys (closedset st))) by auto.
  rewrite set_new in Hcl by assumption.
  assert (Hkc : keys (closedset st') = keys (closedset st) ++ [c_id]).
  { rewrite Hcl. unfold keys. now rewrite map_app. }
  assert (Hdel : forall e, In e (del (openset st) c_id) ->
                           In e (openset st) /\ fst e <> c_id).
  { intros [k n] Hi. split; [eapply In_del; eauto|]. simpl. intros ->.
    pose proof (NoDup_del _ c_id Hno) as Hnd.
    pose proof (In_get _ _ _ Hnd Hi) as Hg.
    rewrite get_del_same in Hg by assumption. discriminate. }
  assert (Hmem : forall k, mem k (closedset st') = false ->
                           ~ In k (keys (closedset st'))).
  { intros k Hm. now apply mem_false. }
  split; [|rewrite Hcl, length_app; simpl; lia].
  unfold tidy. split; [|split; [|split; [|split; [|split]]]].
  - eapply expand_NoDup; [exact He|]. now apply NoDup_del.
  - rewrite Hkc. apply NoDup_app; [assumption|repeat constructor; auto|].
    intros a Ha [<-|[]]. auto.
  - intros k Hk'. apply in_map_iff in Hk' as (e & <- & He').
    revert e He'.
    apply (expand_entries self current c_id (closedset st')
             (fun e => ~ In (fst e) (keys (closedset st')))
             (motion self)) with (open := del (openset st) c_id).
    + intros m node _ _ Hm _. simpl. now apply Hmem.
    + exact He.
    + intros e Hi. destruct (Hdel e Hi) as [Hi' Hne].
      rewrite Hkc. intro Hc. apply in_app_or in Hc as [Hc|[Hc|[]]].
      * eapply Hdis; [|exact Hc]. now apply in_map.
      * congruence.
  - assert (Hopen : forall e, In e (openset st') ->
              fst e = calc_index self (x nstart) (y nstart) \/
              In (fst e) (readable_keys self)).
    { apply (expand_entries self current c_id (closedset st')
               (fun e => fst e = calc_index self (x nstart) (y nstart) \/
                         In (fst e) (readable_keys self))
               (motion self)) with (open := del (openset st) c_id).
      - intros m node _ _ _ Hv. right. simpl. unfold readable_keys.
        apply verify_node_readable in Hv.
        change (calc_index self (x node) (y node))
          with ((fun c => calc_index self (fst c) (snd c)) (x node, y node)).
        now apply in_map.
      - exact He.
      - intros e Hi. destruct (Hdel e Hi) as [Hi' _].
        apply Hkeys. left. now apply in_map. }
    intros k [Hk'|Hk'].
    + apply in_map_iff in Hk' as (e & <- & He'). now apply Hopen.
    + rewrite Hkc in Hk'. apply in_app_or in Hk' as [Hk'|[<-|[]]]; auto.
  - intros l1 k n l2 Heq. rewrite Hcl in Heq.
    destruct l2 as [|e2 l2'].
    + apply app_inj_tail in Heq as [<- [= <- <-]].
      apply (Hpar _ Hin).
    + assert (Heq' : closedset st ++ [(c_id, current)]
                     = (l1 ++ (k, n) :: removelast (e2 :: l2'))
                       ++ [last (e2 :: l2') e2]).
      { rewrite Heq. rewrite <- app_assoc. cbn [app]. f_equal. f_equal.
        apply app_removelast_last. discriminate. }
      apply app_inj_tail in Heq' as [Hc _]. eapply Hch; eauto.
  - apply (expand_entries self current c_id (closedset st')
             (fun e => parented (closedset st') (pind (snd e)))
             (motion self)) with (open := del (openset st) c_id).
    + intros m node _ Hn _ _. simpl. right. rewrite Hkc.
      destruct m as [[dx dy] c]. unfold neighbour in Hn.
      destruct (add _ _); simpl in Hn; try discriminate.
      injection Hn as <-. simpl. apply in_or_app. right. now left.
    + exact He.
    + intros e Hi. destruct (Hdel e Hi) as [Hi' _].
      destruct (Hpar _ Hi') as [Hp|Hp]; [now left|right].
      rewrite Hkc. apply in_or_app. now left.
Qed.

(** The closed set holds at most the start cell and the readable
    pairs. *)
Lemma closed_bound (st : state) :
  tidy self nstart st ->
  (length (closedset st) <= S (readable_count self))%nat.
Proof.
  intros (_ & Hnc & _ & Hkeys & _).
  replace (length (closedset st)) with (length (keys (closedset st)))
    by (unfold keys; apply length_map).
  replace (S (readable_count self))
    with (length (calc_index self (x nstart) (y nstart) :: readable_keys self))
    by (unfold readable_keys, readable_count; simpl; now rewrite length_map).
  apply NoDup_incl_length; [assumption|].
  intros k Hk.
  destruct (Hkeys k (or_intror Hk)) as [->|H]; [now left|now right].
Qed.

(** With fuel for one pass per readable pair and two more, the loop
    ends; what it returns has a closed set that leads back. *)
Lemma loop_proper (fuel : nat) :
  forall st,
    tidy self nstart st ->
    (S (readable_count self) - length (closedset st) < fuel)%nat ->
    match loop fuel self ngoal st with
    | Return (ngoal', st') =>
        NoDup (keys (closedset st')) /\ chained (closedset st') /\
        (length (closedset st') <= S (readable_count self))%nat /\
        parented (closedset st') (pind ngoal')
    | Raise e => e <> KeyError
    | OutOfFuel => False
    end.
Proof.
  induction fuel as [|fuel IH]; intros st Ht Hfuel; [lia|]. simpl.
  pose proof (step_proper st Ht) as Hp.
  destruct (step self ngoal st) as [[ng st2|st1]|e|] eqn:Hs; simpl;
    simpl in Hp; try assumption.
  - destruct (step_leaves _ _ _ Ht Hs) as [Hc Hpar]. rewrite Hc.
    pose proof (closed_bound _ Ht) as Hb.
    destruct Ht as (_ & Hnc & _ & _ & Hch & _). auto.
  - destruct (step_tidy _ _ Ht Hs) as [Ht1 Hlen].
    pose proof (closed_bound _ Ht1) as Hb.
    apply IH; [assumption|]. lia.
Qed.

End Tidy.

(** The walk back through the parents ends: each lookup lands earlier
    in the closed set. *)
Lemma final_path_proper (self : DoubleGraphSearch.t) (closed : dict Node) :
  NoDup (keys closed) -> chained closed ->
  forall (fuel : nat) (p : Z) (l1 : dict Node) (rx ry : list Num.t),
    (length l1 <= fuel)%nat ->
    (exists l2, closed = l1 ++ l2) ->
    p = -1 \/ In p (keys l1) ->
    proper (final_path_loop fuel self closed p rx ry).
Proof.
  intros Hnd Hch. induction fuel as [|fuel IH];
    intros p l1 rx ry Hlen [l2 Heq] Hp.
  - destruct l1; [|simpl in Hlen; lia].
    destruct Hp as [->|[]]. exact I.
  - simpl. destruct (p =? -1) eqn:E; [exact I|].
    destruct Hp as [->|Hin]; [discriminate|].
    apply in_map_iff in Hin as ([k n] & Hk & Hin). simpl in Hk. subst k.
    apply in_split in Hin as (la & lb & ->).
    assert (Hget : get closed p = Some n).
    { apply In_get; [assumption|]. rewrite Heq, <- app_assoc.
      apply in_elt. }
    unfold lookup. rewrite Hget. simpl.
    apply proper_bind; [apply position_proper|intros px _].
    apply proper_bind; [apply position_proper|intros py _].
    apply (IH (pind n) la).
    + rewrite length_app in Hlen. simpl in Hlen. lia.
    + exists ((p, n) :: lb ++ l2). rewrite Heq, <- app_assoc. reflexivity.
    + eapply Hch. rewrite Heq, <- app_assoc. reflexivity.
Qed.

Lemma query_node_return (self : DoubleGraphSearch.t) (px py : Num.t)
    (n : Node) :
  query_node self px py = Return n -> pind n = -1.
Proof.
  unfold query_node.
  destruct (calc_xyindex self px _); simpl; try discriminate.
  destruct (calc_xyindex self py _); simpl; try discriminate.
  now intros [= <-].
Qed.

Lemma query_node_proper (self : DoubleGraphSearch.t) (px py : Num.t) :
  proper (query_node self px py).
Proof.
  unfold query_node.
  apply proper_bind; [apply calc_xyindex_proper|intros ix _].
  apply proper_bind; [apply calc_xyindex_proper|intros iy _]. exact I.
Qed.

Lemma planning_proper (self : DoubleGraphSearch.t) (fuel : nat)
    (sx sy gx gy : Num.t) :
  (readable_count self + 2 <= fuel)%nat ->
  proper (planning fuel self sx sy gx gy).
Proof.
  intro Hfuel. unfold planning.
  apply proper_bind; [apply query_node_proper|intros nstart Hs].
  apply proper_bind; [apply query_node_proper|intros ngoal _].
  apply query_node_return in Hs.
  pose proof (loop_proper self nstart ngoal fuel (initial self nstart)
                (tidy_initial self nstart Hs)) as Hloop.
  destruct (loop fuel self ngoal (initial self nstart)) as [[ng st]|e|];
    simpl in *.
  - destruct Hloop as (Hnd & Hch & Hlen & Hpar); [lia|].
    apply proper_bind; [|intros p _; exact I].
    unfold calc_final_path.
    apply proper_bind; [apply position_proper|intros px _].
    apply proper_bind; [apply position_proper|intros py _].
    apply (final_path_proper self (closedset st) Hnd Hch fuel (pind ng)
             (closedset st)); [lia|exists []; now rewrite app_nil_r|exact Hpar].
  - apply Hloop. lia.
  - apply Hloop. lia.
Qed.

End TerminationFacts.

Module DoubleSearchExtras.
Import Py PyFacts DictFacts TerminationFacts.
Import Num Arith DoubleGraphSearch DoubleSearch DoubleInvariant DoubleExamples.

(** [planning] terminates on every planner object and for every query,
    whatever the numbers are: with fuel for one pass of its loop per
    index pair at which [obmap[x][y]] can be read and two more, it
    returns a result or raises an exception, and the exception is never
    the [KeyError] of a dictionary lookup that misses. *)
Theorem planning_halts
    (self : DoubleGraphSearch.t) (fuel : nat) (sx sy gx gy : Num.t) :
  (readable_count self + 2 <= fuel)%nat ->
  (exists r, planning fuel self sx sy gx gy = Return r) \/
  (exists e, planning fuel self sx sy gx gy = Raise e /\ e <> KeyError).
Proof.
  intro Hfuel. pose proof (planning_proper self fuel sx sy gx gy Hfuel) as H.
  destruct (planning fuel self sx sy gx gy) as [r|e|]; simpl in H.
  - left. eauto.
  - right. eauto.
  - contradiction.
Qed.

Lemma planning_halts_witness :
  (readable_count coarse + 2 <= 18)%nat /\
  ((exists r, planning 18 coarse (Int 0) (Int 0) (Flt (Float.Finite 5)) (Int 0)
              = Return r) \/
   (exists e, planning 18 coarse (Int 0) (Int 0) (Flt (Float.Finite 5)) (Int 0)
              = Raise e /\ e <> KeyError)).
Proof.
  assert (Hf : (readable_count coarse + 2 <= 18)%nat) by (vm_compute; lia).
  split; [exact Hf|].
  exact (planning_halts coarse 18 (Int 0) (Int 0) (Flt (Float.Finite 5))
           (Int 0) Hf).
Defined.

End DoubleSearchExtras.

(* ===================================================================== *)
(** * Rounding to a double *)
(* ===================================================================== *)

Module RoundingFacts.
Import Py PyFacts RoundFacts DoubleCostFacts.

Lemma pow2_power (e : Z) : (Float.pow2 e == 2 ^ e)%Q.
Proof.
  unfold Float.pow2. destruct e as [|p|p].
  - reflexivity.
  - apply Zpower_Qpower. lia.
  - change ((2:Q) ^ Z.neg p)%Q with (/ (2 ^ Z.pos p))%Q.
    rewrite <- (Zpower_Qpower 2 (Z.pos p)) by lia.
    rewrite <- Pos2Z.inj_pow. reflexivity.
Qed.

Lemma pow2_add (a b : Z) :
  (Float.pow2 (a + b) == Float.pow2 a * Float.pow2 b)%Q.
Proof.
  rewrite !pow2_power. apply Qpower_plus. discriminate.
Qed.

Lemma pow2_le (a b : Z) : a <= b -> (Float.pow2 a <= Float.pow2 b)%Q.
Proof.
  intro H. rewrite !pow2_power. apply Qpower_le_compat_l; [assumption|].
  discriminate.
Qed.

Lemma pow2_lt (a b : Z) : a < b -> (Float.pow2 a < Float.pow2 b)%Q.
Proof.
  intro H. rewrite !pow2_power. apply Qpower_lt_compat_l; [assumption|].
  reflexivity.
Qed.

Lemma pow2_lt_inv (a b : Z) : (Float.pow2 a < Float.pow2 b)%Q -> a < b.
Proof.
  rewrite !pow2_power. intro H.
  apply (Qpower_lt_compat_l_inv 2); [assumption|reflexivity].
Qed.

(** A power of two with an exponent that is not negative is an
    integer. *)
Lemma pow2_integer (e : Z) : 0 <= e -> (Float.pow2 e == inject_Z (2 ^ e))%Q.
Proof.
  intro H. unfold Float.pow2. destruct e; try reflexivity. lia.
Qed.

Lemma pow2_div (a b : Z) :
  (Float.pow2 a / Float.pow2 b == Float.pow2 (a - b))%Q.
Proof.
  pose proof (pow2_pos b) as Hb.
  replace a with ((a - b) + b) at 1 by lia. rewrite pow2_add.
  field. intro E. rewrite E in Hb. discriminate.
Qed.

(** A quotient of two numbers that are known up to a factor of two. *)
Lemma quotient_between (q n d A B : Q) :
  (0 < q)%Q -> (q * d == n)%Q -> (A <= n)%Q -> (n < 2 * A)%Q ->
  (0 < B)%Q -> (B <= d)%Q -> (d < 2 * B)%Q ->
  (A / B * (1 # 2) < q /\ q < A / B * 2)%Q.
Proof.
  intros Hq E H1 H2 HB H3 H4.
  assert (HB' : ~ (B == 0)%Q) by (intro H; rewrite H in HB; discriminate).
  assert (Er : (A / B * B == A)%Q) by (field; assumption).
  revert Er. generalize (A / B)%Q. intros r Er.
  assert (P1 : (0 < q * (2 * B - d))%Q).
  { apply Qmult_lt_0_compat; [assumption|Lqa.lra]. }
  assert (P2 : (0 <= q * (d - B))%Q).
  { apply Qmult_le_0_compat; Lqa.lra. }
  split.
  - destruct (Qlt_le_dec (r * (1 # 2)) q) as [H|H]; [assumption|exfalso].
    assert (P3 : (0 <= B * (r * (1 # 2) - q))%Q).
    { apply Qmult_le_0_compat; Lqa.lra. }
    Lqa.lra.
  - destruct (Qlt_le_dec q (r * 2)) as [H|H]; [assumption|exfalso].
    assert (P3 : (0 <= B * (q - r * 2))%Q).
    { apply Qmult_le_0_compat; Lqa.lra. }
    Lqa.lra.
Qed.

(** [ilog2 q] is the binary order of magnitude of a positive [q]. *)
Lemma ilog2_spec (q : Q) :
  (0 < q)%Q ->
  (Float.pow2 (Float.ilog2 q) <= q < Float.pow2 (Float.ilog2 q + 1))%Q.
Proof.
  intro Hq. unfold Float.ilog2.
  set (n := Qnum q). set (d := Qden q).
  assert (Hn : 0 < n) by (unfold Qlt in Hq; simpl in Hq; subst n; lia).
  set (a := Z.log2 n). set (b := Z.log2 (Z.pos d)).
  destruct (Z.log2_spec n Hn) as [Ha1 Ha2]. fold a in Ha1, Ha2.
  destruct (Z.log2_spec (Z.pos d) (Pos2Z.is_pos d)) as [Hb1 Hb2].
  fold b in Hb1, Hb2.
  assert (Ha0 : 0 <= a) by apply Z.log2_nonneg.
  assert (Hb0 : 0 <= b) by apply Z.log2_nonneg.
  assert (Eq : (q * inject_Z (Z.pos d) == inject_Z n)%Q).
  { destruct q as [n0 d0]. subst n d. simpl.
    unfold Qeq, Qmult, inject_Z. simpl. lia. }
  assert (Hsucc : forall c, 0 <= c ->
            (inject_Z (2 ^ Z.succ c) == 2 * Float.pow2 c)%Q).
  { intros c Hc. rewrite Z.pow_succ_r by assumption.
    rewrite inject_Z_mult. rewrite (pow2_integer c) by assumption.
    reflexivity. }
  destruct (quotient_between q (inject_Z n) (inject_Z (Z.pos d))
              (Float.pow2 a) (Float.pow2 b)) as [Hlow Hup].
  - assumption.
  - assumption.
  - rewrite (pow2_integer a) by assumption. now rewrite <- Zle_Qle.
  - rewrite <- (Hsucc a) by assumption. now rewrite <- Zlt_Qlt.
  - apply pow2_pos.
  - rewrite (pow2_integer b) by assumption. now rewrite <- Zle_Qle.
  - rewrite <- (Hsucc b) by assumption. now rewrite <- Zlt_Qlt.
  - rewrite pow2_div in Hlow, Hup.
    assert (E1 : (Float.pow2 (a - b) * (1 # 2) == Float.pow2 (a - b - 1))%Q).
    { replace (a - b - 1) with (a - b + (-1)) by lia. rewrite pow2_add.
      reflexivity. }
    assert (E2 : (Float.pow2 (a - b) * 2 == Float.pow2 (a - b + 1))%Q).
    { rewrite pow2_add. reflexivity. }
    rewrite E1 in Hlow. rewrite E2 in Hup.
    destruct (Qle_bool (Float.pow2 (a - b)) q) eqn:E.
    + apply Qle_bool_iff in E. split; assumption.
    + assert (Hlt : (q < Float.pow2 (a - b))%Q).
      { apply Qnot_le_lt. intro H. apply Qle_bool_iff in H. congruence. }
      split; [apply Qlt_le_weak; assumption|].
      replace (a - b - 1 + 1) with (a - b) by lia. assumption.
Qed.

Lemma ilog2_unique (q : Q) (k : Z) :
  (Float.pow2 k <= q < Float.pow2 (k + 1))%Q -> Float.ilog2 q = k.
Proof.
  intros [H1 H2].
  assert (Hq : (0 < q)%Q).
  { eapply Qlt_le_trans; [apply (pow2_pos k)|assumption]. }
  destruct (ilog2_spec q Hq) as [H3 H4].
  assert (Float.ilog2 q < k + 1).
  { apply pow2_lt_inv. eapply Qle_lt_trans; eauto. }
  assert (k < Float.ilog2 q + 1).
  { apply pow2_lt_inv. eapply Qle_lt_trans; eauto. }
  lia.
Qed.

Lemma ilog2_monotone (p q : Q) :
  (0 < p)%Q -> (p <= q)%Q -> Float.ilog2 p <= Float.ilog2 q.
Proof.
  intros Hp Hpq.
  assert (Hq : (0 < q)%Q) by (eapply Qlt_le_trans; eauto).
  destruct (ilog2_spec p Hp) as [H1 _]. destruct (ilog2_spec q Hq) as [_ H2].
  assert (Float.ilog2 p < Float.ilog2 q + 1); [|lia].
  apply pow2_lt_inv. eapply Qle_lt_trans; [exact H1|].
  eapply Qle_lt_trans; eauto.
Qed.

Lemma Qabs_pos_eq (q : Q) : (0 < q)%Q -> Qabs q = q.
Proof.
  destruct q as [n d]. unfold Qlt, Qabs. simpl. intro H.
  rewrite Z.abs_eq by lia. reflexivity.
Qed.

Lemma exponent_pos (q : Q) :
  (0 < q)%Q -> Float.exponent q = Z.max (Float.ilog2 q - 52) (-1074).
Proof. intro H. unfold Float.exponent. now rewrite Qabs_pos_eq. Qed.

Lemma nearest_pos (q : Q) :
  (0 < q)%Q ->
  (Float.nearest q
   == inject_Z (round (q / Float.pow2 (Float.exponent q)))
      * Float.pow2 (Float.exponent q))%Q.
Proof.
  intro H. unfold Float.nearest.
  destruct (Qeq_bool q 0) eqn:E.
  - apply Qeq_bool_iff in E. rewrite E in H. discriminate.
  - apply Qred_correct.
Qed.

Lemma nearest_zero (q : Q) : (q == 0)%Q -> Float.nearest q = 0%Q.
Proof.
  intro H. unfold Float.nearest.
  apply Qeq_bool_iff in H. now rewrite H.
Qed.

(** A positive [q] counted in units of its last place. *)
Lemma scaled_bounds (q : Q) :
  (0 < q)%Q ->
  (Float.pow2 (Float.ilog2 q - Float.exponent q)
   <= q / Float.pow2 (Float.exponent q)
   < Float.pow2 (Float.ilog2 q + 1 - Float.exponent q))%Q.
Proof.
  intro H. destruct (ilog2_spec q H) as [H1 H2].
  pose proof (pow2_pos (Float.exponent q)) as He.
  rewrite <- !pow2_div. split.
  - apply Qmult_le_compat_r; [assumption|].
    apply Qlt_le_weak, Qinv_lt_0_compat. assumption.
  - apply Qmult_lt_compat_r; [|assumption].
    apply Qinv_lt_0_compat. assumption.
Qed.

Lemma round_pow2 (j : Z) : 0 <= j -> forall x : Q,
  (x <= Float.pow2 j)%Q -> round x <= 2 ^ j.
Proof.
  intros Hj x Hx. rewrite <- (round_inject_Z (2 ^ j)).
  apply round_monotone. now rewrite <- pow2_integer.
Qed.

Lemma round_small (x : Q) : (x <= 1 # 2)%Q -> round x <= 0.
Proof.
  intro H. change 0 with (round (1 # 2)). now apply round_monotone.
Qed.

(** A positive [q] rounds to at most the next power of two, or to
    zero. *)
Lemma nearest_below (q : Q) :
  (0 < q)%Q ->
  (Float.nearest q <= Float.pow2 (Float.ilog2 q + 1))%Q \/
  (Float.nearest q <= 0)%Q.
Proof.
  intro H. rewrite (nearest_pos q H).
  destruct (scaled_bounds q H) as [_ Hup].
  pose proof (pow2_pos (Float.exponent q)) as He.
  set (j := Float.ilog2 q + 1 - Float.exponent q) in *.
  destruct (Z_le_gt_dec 0 j) as [Hj|Hj].
  - left.
    replace (Float.ilog2 q + 1) with (j + Float.exponent q) by (subst j; lia).
    rewrite pow2_add. apply Qmult_le_compat_r; [|apply Qlt_le_weak, He].
    rewrite (pow2_integer j Hj). rewrite <- Zle_Qle.
    apply round_pow2; [assumption|]. now apply Qlt_le_weak.
  - right.
    assert (Hr : round (q / Float.pow2 (Float.exponent q)) <= 0).
    { apply round_small. apply Qlt_le_weak.
      eapply Qlt_le_trans; [exact Hup|].
      change (1 # 2)%Q with (Float.pow2 (-1)). apply pow2_le. lia. }
    setoid_replace 0%Q with (0 * Float.pow2 (Float.exponent q))%Q by ring.
    apply Qmult_le_compat_r; [|apply Qlt_le_weak, He].
    change 0%Q with (inject_Z 0). now rewrite <- Zle_Qle.
Qed.

(** A [q] whose last place is above the subnormals rounds to at least
    the power of two below it. *)
Lemma nearest_above (q : Q) :
  (0 < q)%Q -> Float.exponent q = Float.ilog2 q - 52 ->
  (Float.pow2 (Float.ilog2 q) <= Float.nearest q)%Q.
Proof.
  intros H He. rewrite (nearest_pos q H).
  destruct (scaled_bounds q H) as [Hlow _].
  pose proof (pow2_pos (Float.exponent q)) as Hp.
  replace (Float.ilog2 q) with (52 + Float.exponent q) at 1 by lia.
  rewrite pow2_add. apply Qmult_le_compat_r; [|apply Qlt_le_weak, Hp].
  rewrite (pow2_integer 52) by lia. rewrite <- Zle_Qle.
  rewrite <- (round_inject_Z (2 ^ 52)). apply round_monotone.
  rewrite <- pow2_integer by lia.
  replace 52 with (Float.ilog2 q - Float.exponent q) by lia. assumption.
Qed.

(** Rounding to a double keeps the order. *)
Lemma nearest_monotone (p q : Q) :
  (0 <= p)%Q -> (p <= q)%Q -> (Float.nearest p <= Float.nearest q)%Q.
Proof.
  intros Hp Hpq.
  assert (Hq0 : (0 <= q)%Q) by (eapply Qle_trans; eauto).
  destruct (Qlt_le_dec 0 p) as [Hp'|Hp'].
  - assert (Hq : (0 < q)%Q) by (eapply Qlt_le_trans; eauto).
    pose proof (ilog2_monotone p q Hp' Hpq) as Hk.
    pose proof (exponent_pos p Hp') as Ep. pose proof (exponent_pos q Hq) as Eq.
    destruct (Z.eq_dec (Float.exponent p) (Float.exponent q)) as [E|E].
    + rewrite (nearest_pos p Hp'), (nearest_pos q Hq). rewrite E.
      pose proof (pow2_pos (Float.exponent q)) as He.
      apply Qmult_le_compat_r; [|apply Qlt_le_weak, He].
      rewrite <- Zle_Qle. apply round_monotone.
      apply Qmult_le_compat_r; [assumption|].
      apply Qlt_le_weak, Qinv_lt_0_compat. assumption.
    + assert (Heq : Float.exponent q = Float.ilog2 q - 52) by lia.
      assert (Hkk : Float.ilog2 p + 1 <= Float.ilog2 q) by lia.
      apply Qle_trans with (Float.pow2 (Float.ilog2 q));
        [|now apply nearest_above].
      destruct (nearest_below p Hp') as [H|H].
      * eapply Qle_trans; [exact H|]. now apply pow2_le.
      * eapply Qle_trans; [exact H|]. apply Qlt_le_weak, pow2_pos.
  - rewrite (nearest_zero p) by (apply Qle_antisym; assumption).
    now apply nearest_nonneg.
Qed.

(** A whole number of units of the last place is kept. *)
Lemma nearest_units (P : Q) (M : Z) :
  (0 < P)%Q ->
  (P == inject_Z M * Float.pow2 (Float.exponent P))%Q ->
  (Float.nearest P == P)%Q.
Proof.
  intros HP E. rewrite (nearest_pos P HP).
  pose proof (pow2_pos (Float.exponent P)) as He.
  assert (Hs : (P / Float.pow2 (Float.exponent P) == inject_Z M)%Q).
  { rewrite E at 1. field. intro H. rewrite H in He. discriminate. }
  rewrite (round_comp _ _ Hs), round_inject_Z. symmetry. exact E.
Qed.

(** A double rounds to itself. *)
Lemma nearest_idempotent (q : Q) :
  (0 <= q)%Q -> (Float.nearest (Float.nearest q) == Float.nearest q)%Q.
Proof.
  intro Hq0. destruct (Qlt_le_dec 0 q) as [Hq|Hq];
    [|rewrite (nearest_zero q) by (apply Qle_antisym; assumption);
      reflexivity].
  pose proof (nearest_nonneg q Hq0) as HP0.
  destruct (Qlt_le_dec 0 (Float.nearest q)) as [HP|HP];
    [|rewrite (nearest_zero (Float.nearest q))
        by (apply Qle_antisym; assumption);
      symmetry; apply Qle_antisym; assumption].
  pose proof (nearest_pos q Hq) as EP.
  pose proof (exponent_pos q Hq) as Ee.
  pose proof (exponent_pos _ HP) as Ee'.
  destruct (scaled_bounds q Hq) as [_ Hup].
  set (P := Float.nearest q) in *.
  set (e := Float.exponent q) in *. set (k := Float.ilog2 q) in *.
  set (m := round (q / Float.pow2 e)) in *.
  pose proof (pow2_pos e) as He.
  (* the number of units is at least one, and at most [2^j] *)
  assert (Hm : 1 <= m).
  { assert (0 < m); [|lia]. rewrite Zlt_Qlt.
    apply (Qmult_lt_r _ _ (Float.pow2 e) He). rewrite <- EP.
    now rewrite Qmult_0_l. }
  assert (Hj : 0 <= k + 1 - e).
  { destruct (Z_le_gt_dec 0 (k + 1 - e)) as [H|H]; [assumption|exfalso].
    assert (m <= 0); [|lia]. apply round_small. apply Qlt_le_weak.
    eapply Qlt_le_trans; [exact Hup|].
    change (1 # 2)%Q with (Float.pow2 (-1)). apply pow2_le. lia. }
  assert (Hm2 : m <= 2 ^ (k + 1 - e)).
  { apply round_pow2; [assumption|]. now apply Qlt_le_weak. }
  destruct (Z.eq_dec m (2 ^ (k + 1 - e))) as [Htop|Htop].
  - (* rounded up to the next power of two *)
    assert (EP' : (P == Float.pow2 (k + 1))%Q).
    { rewrite EP, Htop. rewrite <- pow2_integer by assumption.
      rewrite <- pow2_add. now replace (k + 1 - e + e) with (k + 1) by lia. }
    assert (Hk' : Float.ilog2 P = k + 1).
    { apply ilog2_unique. rewrite EP'. split; [apply Qle_refl|].
      apply pow2_lt. lia. }
    apply (nearest_units P (2 ^ (k + 1 - Float.exponent P)) HP).
    rewrite <- pow2_integer by lia. rewrite <- pow2_add.
    now replace (k + 1 - Float.exponent P + Float.exponent P)
      with (k + 1) by lia.
  - assert (Hlt : (P < Float.pow2 (k + 1))%Q).
    { rewrite EP. replace (k + 1) with ((k + 1 - e) + e) by lia.
      rewrite pow2_add. apply Qmult_lt_compat_r; [assumption|].
      rewrite pow2_integer by assumption. rewrite <- Zlt_Qlt. lia. }
    assert (Hk' : Float.ilog2 P <= k).
    { destruct (ilog2_spec P HP) as [H1 _].
      assert (Float.ilog2 P < k + 1); [|lia].
      apply pow2_lt_inv. eapply Qle_lt_trans; eauto. }
    assert (He' : Float.exponent P <= e) by lia.
    apply (nearest_units P (m * 2 ^ (e - Float.exponent P)) HP).
    rewrite inject_Z_mult. rewrite <- pow2_integer by lia.
    rewrite <- Qmult_assoc, <- pow2_add.
    now replace (e - Float.exponent P + Float.exponent P) with e by lia.
Qed.

End RoundingFacts.

(* ===================================================================== *)
(** * The order in which [planning] closes the cells *)
(* ===================================================================== *)

Module OrderFacts.
Import Py PyFacts DictFacts FloatFacts DoubleSelectFacts DoubleCostFacts.
Import RoundingFacts TerminationFacts.
Import Num Arith DoubleGraphSearch DoubleSearch DoubleInvariant.

Lemma of_Q_rounded (q : Q) : (0 <= q)%Q -> Float.rounded (Float.of_Q q).
Proof.
  intro H. unfold Float.of_Q. destruct (Qle_bool _ _); simpl; [exact I|].
  now apply nearest_idempotent.
Qed.

(** Rounding a sum does not take it below a term that is a double. *)
Lemma of_Q_above (p q : Q) :
  (0 <= p)%Q -> (Float.nearest p == p)%Q -> (p <= q)%Q ->
  Float.leb (Float.Finite p) (Float.of_Q q) = true.
Proof.
  intros Hp Hr Hpq. unfold Float.of_Q.
  assert (Hq : (0 <= q)%Q) by (eapply Qle_trans; eauto).
  destruct (Qle_bool _ _); simpl.
  - unfold Float.negative, Qltb.
    assert (E : Qle_bool 0 q = true) by now apply Qle_bool_iff.
    now rewrite E.
  - apply Qle_bool_iff. rewrite <- Hr. now apply nearest_monotone.
Qed.

(** Adding a cost that is not negative to a computed cost gives a
    computed cost that is not less. *)
Lemma add_above (f g : Float.t) :
  Float.nonneg f -> Float.rounded f -> Float.nonneg g ->
  Float.nonneg (Float.add f g) /\ Float.rounded (Float.add f g) /\
  Float.leb f (Float.add f g) = true.
Proof.
  intros Hf Hr Hg. split; [now apply add_nonneg|].
  destruct Hf as [->|(p & -> & Hp)], Hg as [->|(c & -> & Hc)]; simpl;
    try (split; [exact I|reflexivity]).
  split.
  - apply of_Q_rounded. Lqa.lra.
  - apply of_Q_above; [assumption|exact Hr|Lqa.lra].
Qed.

Lemma neighbour_above (current node : Node) (c_id : Z) (m : motion_t) :
  In m get_motion_model ->
  computed (cost current) ->
  neighbour current c_id m = Return node ->
  computed (cost node) /\ cheaper current node.
Proof.
  intros Hm (f & Hf & Hnn & Hr) H.
  assert (Hc : exists g, to_float (snd m) = Return g /\ Float.nonneg g).
  { unfold get_motion_model in Hm. simpl in Hm.
    repeat (destruct Hm as [<-|Hm];
            [eexists; split; [vm_compute; reflexivity|];
             right; eexists; split; [reflexivity|discriminate]|]).
    destruct Hm. }
  destruct Hc as (g & Hg & Hgn).
  destruct m as [[dx dy] c]. unfold neighbour in H. simpl in Hg.
  unfold cheaper. rewrite Hf in *. unfold add in H.
  assert (E : (x <~ to_float (Flt f) ;; y <~ to_float c ;;
               Return (Flt (Float.add x y)))
              = Return (Flt (Float.add f g))).
  { simpl. rewrite Hg. reflexivity. }
  destruct (add_above f g Hnn Hr Hgn) as (H1 & H2 & H3).
  destruct c as [z|h]; rewrite E in H; simpl in H; injection H as <-;
    simpl; (split; [exists (Float.add f g); auto|exact H3]).
Qed.

Lemma computed_not_nan (c : Num.t) : computed c -> is_nan c = false.
Proof.
  intros (f & -> & [->|(q & -> & _)] & _); reflexivity.
Qed.

Lemma cheaper_trans (a b c : Node) :
  cheaper a b -> cheaper b c -> cheaper a c.
Proof. apply leb_trans. Qed.

(** The selected node is a cheapest node of the open set. *)
Lemma min_cost_cheapest (d : dict Node) (c_id : Z) (current : Node) :
  NoDup (keys d) ->
  (forall e, In e d -> computed (cost (snd e))) ->
  min_cost d = Return c_id ->
  lookup d c_id = Return current ->
  forall e, In e d -> cheaper current (snd e).
Proof.
  intros Hnd Hc Hmin Hl.
  assert (Hnan : no_nan d).
  { intros e He. apply computed_not_nan. auto. }
  assert (Hne : d <> []) by (destruct d; [discriminate|congruence]).
  destruct (min_cost_first d Hne Hnan) as (l1 & k & n & l2 & Hk & -> & H1 & H2).
  assert (k = c_id) by congruence. subst k.
  assert (n = current).
  { apply lookup_get in Hl.
    assert (Hg : get (l1 ++ (c_id, n) :: l2) c_id = Some n)
      by (apply In_get; [assumption|apply in_elt]).
    congruence. }
  subst n. intros e He. unfold cheaper, le, lt in *.
  apply in_app_or in He as [He|[<-|He]].
  - apply ltb_leb. auto.
  - apply leb_refl. apply (Hnan (c_id, current)). apply in_elt.
  - apply leb_total; [apply (Hnan (c_id, current)); apply in_elt| |auto].
    apply Hnan. apply in_or_app. right. now right.
Qed.

Section Order.
Variables (self : DoubleGraphSearch.t) (nstart ngoal : Node).
Hypothesis Hmotion : motion self = get_motion_model.
Hypothesis Hcost : cost nstart = Flt (Float.Finite 0).
Hypothesis Hpind : pind nstart = -1.

Lemma reaches_tidy (ss : list statement) (st : state) :
  reaches self nstart ngoal ss st -> tidy self nstart st.
Proof.
  induction 1 as [|ss st c_id current ss' st' Hr IH Hmin Hlook Hss Hstep].
  - now apply tidy_initial.
  - now apply (step_tidy self nstart ngoal st st' IH Hstep).
Qed.

(** Dijkstra's order on the computed costs. *)
Lemma closed_in_cost_order (ss : list statement) (st : state) :
  reaches self nstart ngoal ss st ->
  (forall e, In e (openset st) -> computed (cost (snd e))) /\
  StronglySorted cheaper (map snd (closedset st)) /\
  (forall a b, In a (closedset st) -> In b (openset st) ->
               cheaper (snd a) (snd b)).
Proof.
  induction 1 as [|ss st c_id current ss' st' Hr IH Hmin Hlook Hss Hstep].
  - split; [|split].
    + intros e [<-|[]]. simpl. rewrite Hcost.
      exists (Float.Finite 0). split; [reflexivity|]. split.
      * right. exists 0%Q. split; [reflexivity|discriminate].
      * reflexivity.
    + constructor.
    + intros a b [].
  - destruct IH as (Hc & Hs & Ho).
    pose proof (reaches_tidy _ _ Hr) as (Hno & Hnc & Hdis & _).
    destruct (step_continue _ _ _ _ Hstep)
      as (c & cur & Hmin' & Hlook' & Hcl & Hex).
    assert (c = c_id) by congruence. subst c.
    assert (cur = current) by congruence. subst cur.
    assert (Hin : In (c_id, current) (openset st)).
    { apply lookup_get in Hlook. now apply get_In. }
    assert (Hnew : ~ In c_id (keys (closedset st))).
    { apply Hdis. eapply In_keys; eauto. }
    rewrite set_new in Hcl by assumption.
    pose proof (min_cost_cheapest _ _ _ Hno Hc Hmin Hlook) as Hleast.
    assert (Hcur : computed (cost current)) by apply (Hc _ Hin).
    assert (Hopen : forall e, In e (openset st') ->
              computed (cost (snd e)) /\ cheaper current (snd e)).
    { apply (expand_entries self current c_id (closedset st')
               (fun e => computed (cost (snd e)) /\ cheaper current (snd e))
               (motion self)) with (open := del (openset st) c_id).
      - intros m node Hm Hn _ _. simpl. rewrite Hmotion in Hm.
        eapply neighbour_above; eauto.
      - exact Hex.
      - intros e He. apply In_del in He. split; auto. }
    split; [|split].
    + intros e He. apply (Hopen e He).
    + rewrite Hcl, map_app. simpl.
      assert (Hall : Forall (fun a => cheaper a current)
                       (map snd (closedset st))).
      { apply Forall_forall. intros a Ha.
        apply in_map_iff in Ha as (e & <- & He).
        exact (Ho e (c_id, current) He Hin). }
      clear - Hs Hall. induction Hs as [|a l Hs IH Ha]; simpl.
      * repeat constructor.
      * inversion Hall as [|? ? Hac Hall']; subst.
        constructor; [now apply IH|].
        apply Forall_app. split; [assumption|]. now constructor.
    + intros a b Ha Hb. rewrite Hcl in Ha.
      destruct (Hopen b Hb) as [_ Hb'].
      apply in_app_or in Ha as [Ha|[<-|[]]]; [|exact Hb'].
      eapply cheaper_trans; [|exact Hb']. exact (Ho a (c_id, current) Ha Hin).
Qed.

End Order.
End OrderFacts.

Module OrderExtras.
Import Py PyFacts DictFacts TerminationFacts OrderFacts.
Import Num Arith DoubleGraphSearch DoubleSearch DoubleInvariant DoubleExamples.

(** Dijkstra's order, on the costs as the code computes them: in every
    state of the loop of [planning] the nodes of the closed set are in
    the order of their costs, the cheapest first, and no node of the
    open set is cheaper than a closed one, all by [<=] on the doubles. *)
Theorem cells_are_closed_in_computed_cost_order
    (self : DoubleGraphSearch.t) (sx sy : Num.t) (nstart ngoal : Node)
    (ss : list statement) (st : state) :
  motion self = get_motion_model ->
  query_node self sx sy = Return nstart ->
  reaches self nstart ngoal ss st ->
  StronglySorted cheaper (map snd (closedset st)) /\
  (forall ka a kb b,
     get (closedset st) ka = Some a -> get (openset st) kb = Some b ->
     cheaper a b).
Proof.
  intros Hmotion Hq Hr.
  assert (Hcost : cost nstart = Flt (Float.Finite 0)).
  { unfold query_node in Hq.
    destruct (calc_xyindex self sx _); simpl in Hq; try discriminate.
    destruct (calc_xyindex self sy _); simpl in Hq; try discriminate.
    now injection Hq as <-. }
  pose proof (query_node_return _ _ _ _ Hq) as Hpind.
  destruct (closed_in_cost_order self nstart ngoal Hmotion Hcost Hpind ss st Hr)
    as (_ & Hs & Ho).
  split; [exact Hs|].
  intros ka a kb b Ha Hb. apply get_In in Ha, Hb.
  exact (Ho _ _ Ha Hb).
Qed.

Lemma cells_are_closed_in_computed_cost_order_witness :
  motion coarse = get_motion_model /\
  query_node coarse (Int 0) (Int 0) = Return coarse_start /\
  reaches coarse coarse_start coarse_goal coarse_statements coarse_second /\
  StronglySorted cheaper (map snd (closedset coarse_second)) /\
  (forall ka a kb b,
     get (closedset coarse_second) ka = Some a ->
     get (openset coarse_second) kb = Some b ->
     cheaper a b).
Proof.
  assert (Hmotion : motion coarse = get_motion_model) by reflexivity.
  assert (Hq : query_node coarse (Int 0) (Int 0) = Return coarse_start)
    by (vm_compute; reflexivity).
  assert (Hreach : reaches coarse coarse_start coarse_goal coarse_statements
                     coarse_second).
  { apply (reach_step coarse coarse_start coarse_goal
             [Store 0 coarse_start] (initial coarse coarse_start)
             0 coarse_start (skipn 2 coarse_statements) coarse_second).
    - apply reach_start.
    - reflexivity.
    - reflexivity.
    - vm_compute. reflexivity.
    - vm_compute. reflexivity. }
  split; [exact Hmotion|]. split; [exact Hq|]. split; [exact Hreach|].
  exact (cells_are_closed_in_computed_cost_order coarse (Int 0) (Int 0)
           coarse_start coarse_goal coarse_statements coarse_second
           Hmotion Hq Hreach).
Defined.

End OrderExtras.

(* ===================================================================== *)
(** * The collision test of [RRT] *)
(* ===================================================================== *)

Module CollisionExtras.
Import DoubleRRT.

(** [check_point_collision(q)] returns [True] exactly when, for some
    obstacle of the list, the distance that the code computes in
    doubles compares [<= RADIUS_OBSTACLE]; with no obstacle it returns
    [False].  [RADIUS_OBSTACLE] is the double nearest to [0.8], which
    lies above [8/10]. *)
Theorem collision_iff_computed_distance_within_radius
    (power2 : Float.t -> Float.t) (obstacles : list point) (q : point) :
  (check_point_collision power2 obstacles q = true <->
   exists o, In o obstacles /\
             Float.leb (distance power2 q o) RADIUS_OBSTACLE = true) /\
  check_point_collision power2 [] q = false /\
  RADIUS_OBSTACLE = Float.Finite (3602879701896397 # 4503599627370496) /\
  (8 # 10 < 3602879701896397 # 4503599627370496)%Q.
Proof.
  split; [|split; [reflexivity|split; [vm_compute; reflexivity|reflexivity]]].
  induction obstacles as [|o rest IH]; simpl.
  - split; [discriminate|]. intros (o & [] & _).
  - destruct (Float.leb (distance power2 q o) RADIUS_OBSTACLE) eqn:E.
    + split; [|reflexivity]. intros _. exists o. auto.
    + rewrite IH. split.
      * intros (o' & Hin & Ho'). exists o'. auto.
      * intros (o' & [<-|Hin] & Ho'); [congruence|]. exists o'. auto.
Qed.

End CollisionExtras.
